(** * Atlas.js: a verified model of the slippy-map viewport engine

    The development embeds the event bus, the geometric primitives, the
    Web-Mercator projection, the map's view state and the tile layer of
    [atlas.js] and states the properties of its specification against
    them.

    Number model.  A JavaScript number is a double.  The view state,
    the geometry and the tile grid are stated over the reals, which is
    the usual idealisation of finite doubles: [Math.sin], [Math.log],
    [Math.atan], [Math.exp] and [Math.pow] are the real functions, and
    no operation rounds.  A statement that is made over this exact
    arithmetic says so.  Where rounding or overflow decides a statement,
    module [Double] has the operations as IEEE 754 defines them for
    binary64 (53 significant bits, rounding to nearest with ties to
    even, gradual underflow, overflow to an infinity), and the statement
    is made there.  The three non-finite doubles are in the type
    [number]. *)

From Stdlib Require Import Reals Lra Lia ZArith List String Ascii Bool.
Import ListNotations.

Local Open Scope R_scope.

(** ** Exceptions *)

Inductive Exception : Type :=
| TypeError (msg : string)
| Error (msg : string).

Inductive Result (A : Type) : Type :=
| Return (a : A)
| Throw (e : Exception).

Arguments Return {A} a.
Arguments Throw {A} e.

Definition bind {A B : Type} (r : Result A) (k : A -> Result B) : Result B :=
  match r with
  | Return a => k a
  | Throw e => Throw e
  end.

Notation "'let*' x ':=' r 'in' k" := (bind r (fun x => k))
  (at level 10, x name, r at level 100, k at level 200).

Definition throws {A : Type} (r : Result A) : bool :=
  match r with
  | Return _ => false
  | Throw _ => true
  end.

(** ** JavaScript numbers with their non-finite values *)

Inductive number : Type :=
| Finite (r : R)
| PosInfinity
| NegInfinity
| NaN.

(** The global [isNaN], on a value that is already a number. *)
Definition isNaN (v : number) : bool :=
  match v with
  | NaN => true
  | _ => false
  end.

(** The global [isFinite], on a value that is already a number. *)
Definition isFinite (v : number) : bool :=
  match v with
  | Finite _ => true
  | _ => false
  end.

(** Subtraction, [Math.abs] and [<] on numbers: the infinities and NaN
    as IEEE 754 has them, finite values exactly. *)
Definition number_sub (a b : number) : number :=
  match a, b with
  | Finite x, Finite y => Finite (x - y)
  | NaN, _ | _, NaN => NaN
  | PosInfinity, PosInfinity | NegInfinity, NegInfinity => NaN
  | PosInfinity, _ | _, NegInfinity => PosInfinity
  | NegInfinity, _ | _, PosInfinity => NegInfinity
  end.

Definition Math_abs (a : number) : number :=
  match a with
  | Finite x => Finite (Rabs x)
  | PosInfinity | NegInfinity => PosInfinity
  | NaN => NaN
  end.

Definition number_lt (a b : number) : bool :=
  match a, b with
  | Finite x, Finite y => if Rlt_dec x y then true else false
  | NaN, _ | _, NaN => false
  | NegInfinity, NegInfinity | PosInfinity, _ => false
  | NegInfinity, _ | Finite _, PosInfinity => true
  | Finite _, NegInfinity => false
  end.

(** ** [Math] on finite numbers *)

(** [Math.round]: the nearest integer, a tie going up. *)
Definition Math_round (v : R) : R := IZR (Zfloor (v + / 2)).

(** [Math.pow] for a positive base. *)
Definition Math_pow (b e : R) : R := Rpower b e.

Definition Math_LN2 : R := ln 2.

(** Truncation toward zero, and the remainder operator [%], whose sign
    follows the dividend. *)
Definition Ztrunc (v : R) : Z :=
  if Rle_dec 0 v then Zfloor v else Zceil v.

Definition js_rem (a b : R) : R := a - b * IZR (Ztrunc (a / b)).

(** The values of [for (let v = a; v <= b; v++)]. *)
Definition js_range (a b : R) : list R :=
  if Rle_dec a b
  then map (fun k => a + INR k) (seq 0 (S (Z.to_nat (Zfloor (b - a)))))
  else [].

(** ** Strings *)

(** [s.split(sep)] for a one-character separator. *)
Fixpoint split_on (sep : ascii) (s : string) : list string :=
  match s with
  | EmptyString => [EmptyString]
  | String c s' =>
      if Ascii.eqb c sep then EmptyString :: split_on sep s'
      else match split_on sep s' with
           | h :: t => String c h :: t
           | [] => [String c EmptyString]
           end
  end.

(** [s.replace(pat, rep)] for a string pattern: the first occurrence of
    [pat] is replaced.  The replacement is taken literally, which is what
    JavaScript does for a replacement without a dollar sign. *)
Fixpoint replace (pat rep s : string) : string :=
  if String.prefix pat s
  then String.append rep (String.substring (String.length pat)
                            (String.length s - String.length pat) s)
  else match s with
       | EmptyString => EmptyString
       | String c s' => String c (replace pat rep s')
       end.

(** ** Objects used as dictionaries

    A JavaScript object keeps its string keys in insertion order; an
    association list keeps that order. *)

Section JsObject.
Context {K V : Type}.
Variable eqb : K -> K -> bool.

Definition Obj : Type := list (K * V).

Fixpoint obj_get (o : Obj) (k : K) : option V :=
  match o with
  | [] => None
  | (k', v) :: o' => if eqb k k' then Some v else obj_get o' k
  end.

(** [k in o] *)
Definition obj_has (o : Obj) (k : K) : bool :=
  match obj_get o k with
  | Some _ => true
  | None => false
  end.

(** [o[k] = v]: an existing key keeps its place. *)
Fixpoint obj_set (o : Obj) (k : K) (v : V) : Obj :=
  match o with
  | [] => [(k, v)]
  | (k', v') :: o' =>
      if eqb k k' then (k', v) :: o' else (k', v') :: obj_set o' k v
  end.

(** [delete o[k]] *)
Definition obj_delete (o : Obj) (k : K) : Obj :=
  filter (fun kv => negb (eqb k (fst kv))) o.

(** [Object.keys(o)] *)
Definition obj_keys (o : Obj) : list K := map fst o.
End JsObject.

Arguments Obj K V : clear implicits.

(** ** The event system: [class Evented] *)

Module Evented.

(** A function or a context object is known by its identity only. *)
Definition Fn : Type := nat.
Definition Ctx : Type := nat.

Record Listener : Type := mkListener { fn : Fn; ctx : option Ctx }.

(** [this._events]: listener lists by event type. *)
Definition Events : Type := Obj string (list Listener).

(** The state of an emitter: [this._events], undefined until the first
    [on]. *)
Definition t : Type := option Events.

(** The [types] argument that a caller of [off] passes. *)
Inductive Types : Type :=
| TypesUndefined
| TypesString (s : string)
| TypesArray (l : list string).

(** [this._events] is a plain object, so under a name that it inherits
    from [Object.prototype] the lookup [this._events[type]] finds the
    inherited value and not a list of listeners: [on], [off] with a
    function and [fire] then throw a TypeError.  The definitions below
    are for the other names, and the statements about them say so. *)
Definition Object_prototype : list string :=
  ["constructor"; "hasOwnProperty"; "isPrototypeOf"; "propertyIsEnumerable";
   "toLocaleString"; "toString"; "valueOf"; "__proto__";
   "__defineGetter__"; "__defineSetter__"; "__lookupGetter__";
   "__lookupSetter__"]%string.

Definition inherited (type : string) : bool :=
  existsb (String.eqb type) Object_prototype.

Definition register (fn : Fn) (ctx : option Ctx) (ev : Events) (type : string)
  : Events :=
  let listeners := match obj_get String.eqb ev type with
                   | Some l => l
                   | None => []
                   end in
  obj_set String.eqb ev type (listeners ++ [mkListener fn ctx]).

Definition on (this : t) (types : string) (fn : Fn) (ctx : option Ctx) : t :=
  let ev := match this with
            | Some ev => ev
            | None => []
            end in
  Some (fold_left (register fn ctx) (split_on " "%char types) ev).

(** [(types || Object.keys(this._events)).flat()].  A string has no
    [flat] method, so a non-empty string makes the call a TypeError;
    the empty string is falsy and selects every key. *)
Definition off_types (ev : Events) (types : Types) : Result (list string) :=
  match types with
  | TypesUndefined => Return (obj_keys ev)
  | TypesString EmptyString => Return (obj_keys ev)
  | TypesString (String _ _) =>
      Throw (TypeError "(types || Object.keys(...)).flat is not a function")
  | TypesArray l => Return l
  end.

(** One round of the loop of [off]: with a function the list found under
    [type] is filtered, or an empty list is stored when nothing is found;
    without one the key is deleted. *)
Definition unregister (fn : option Fn) (ev : Events) (type : string)
  : Result Events :=
  match fn with
  | Some f =>
      match obj_get String.eqb ev type with
      | Some l =>
          Return (obj_set String.eqb ev type
                    (filter (fun l' => negb (Nat.eqb (Evented.fn l') f)) l))
      | None =>
          if inherited type
          then Throw (TypeError "this._events[type]?.filter is not a function")
          else Return (obj_set String.eqb ev type [])
      end
  | None => Return (obj_delete String.eqb ev type)
  end.

Fixpoint unregister_each (fn : option Fn) (types : list string) (ev : Events)
  : Result Events :=
  match types with
  | [] => Return ev
  | type :: rest =>
      let* ev := unregister fn ev type in
      unregister_each fn rest ev
  end.

Definition off (this : t) (types : Types) (fn : option Fn) : Result t :=
  match this with
  | None => Return this
  | Some ev =>
      let* ts := off_types ev types in
      let* ev := unregister_each fn ts ev in
      Return (Some ev)
  end.

(** [fire(type)]: the listeners called, in order; the bodies of the
    listeners belong to the subscribers. *)
Definition fire (this : t) (type : string) : list Listener :=
  match this with
  | None => []
  | Some ev =>
      match obj_get String.eqb ev type with
      | Some l => l
      | None => []
      end
  end.

(** The listeners registered for one type. *)
Definition listeners (this : t) (type : string) : list Listener :=
  fire this type.

End Evented.

(** ** Core types *)

Module Point.

Record t : Type := mk { x : R; y : R }.

Definition add (p q : t) : t := mk (x p + x q) (y p + y q).
Definition subtract (p q : t) : t := mk (x p - x q) (y p - y q).
Definition multiplyBy (p : t) (k : R) : t := mk (x p * k) (y p * k).
Definition divideBy (p : t) (k : R) : t := mk (x p / k) (y p / k).
Definition distanceTo (p q : t) : R :=
  let dx := x q - x p in
  let dy := y q - y p in
  sqrt (dx * dx + dy * dy).
Definition clone (p : t) : t := mk (x p) (y p).
Definition equals (p q : t) : bool :=
  if Req_dec_T (x p) (x q) then
    if Req_dec_T (y p) (y q) then true else false
  else false.
Definition round (p : t) : t := mk (Math_round (x p)) (Math_round (y p)).

(** The methods of [Point.prototype] that take no argument and return
    a point, by name: what [p.name()] finds. *)
Definition Prototype : Type := string -> option (t -> t).

Definition prototype : Prototype :=
  fun name =>
    if String.eqb name "clone" then Some clone
    else if String.eqb name "round" then Some round
    else None.

(** [p.name()] under a prototype: a name that is not a method is not
    callable. *)
Definition call (proto : Prototype) (p : t) (name : string) : Result t :=
  match proto name with
  | Some f => Return (f p)
  | None => Throw (TypeError (String.append name " is not a function"))
  end.

End Point.

Module LatLng.

(** An instance as the constructor leaves it. *)
Record fields : Type := mkFields { lat_field : number; lng_field : number }.

(** [new LatLng(lat, lng)] on two numbers; unary [+] leaves a number
    as it is. *)
Definition new (lat lng : number) : Result fields :=
  if isNaN lat || isNaN lng then Throw (Error "Invalid LatLng")
  else Return (mkFields lat lng).

(** An instance whose two components are finite. *)
Record t : Type := mk { lat : R; lng : R }.

Definition finite (f : fields) : option t :=
  match lat_field f, lng_field f with
  | Finite a, Finite b => Some (mk a b)
  | _, _ => None
  end.

(** The instance with the components of a finite one. *)
Definition of_finite (l : t) : fields :=
  mkFields (Finite (lat l)) (Finite (lng l)).

Definition clone (l : fields) : Result fields :=
  new (lat_field l) (lng_field l).

(** [equals] takes any instance, one with an infinite component
    included. *)
Definition equals (l other : fields) : bool :=
  number_lt (Math_abs (number_sub (lat_field l) (lat_field other)))
            (Finite 1e-9)
  && number_lt (Math_abs (number_sub (lng_field l) (lng_field other)))
               (Finite 1e-9).

End LatLng.

Module Bounds.

(** [min] and [max] are set together by the first [extend]. *)
Definition t : Type := option (Point.t * Point.t).

Definition extend (b : t) (p : Point.t) : t :=
  match b with
  | None => Some (Point.clone p, Point.clone p)
  | Some (mn, mx) =>
      Some (Point.mk (Rmin (Point.x mn) (Point.x p))
                     (Rmin (Point.y mn) (Point.y p)),
            Point.mk (Rmax (Point.x mx) (Point.x p))
                     (Rmax (Point.y mx) (Point.y p)))
  end.

Definition new (a b : option Point.t) : t :=
  let b0 := match a with
            | Some p => extend None p
            | None => None
            end in
  match b with
  | Some p => extend b0 p
  | None => b0
  end.

(** [contains] and [getSize] read [min] and [max], which a bounds that
    was never extended does not have. *)
Definition contains (b : t) (p : Point.t) : Result bool :=
  match b with
  | Some (mn, mx) =>
      Return (if Rge_dec (Point.x p) (Point.x mn) then
                if Rle_dec (Point.x p) (Point.x mx) then
                  if Rge_dec (Point.y p) (Point.y mn) then
                    if Rle_dec (Point.y p) (Point.y mx) then true else false
                  else false
                else false
              else false)
  | None => Throw (TypeError "this.min is undefined")
  end.

Definition getSize (b : t) : Result Point.t :=
  match b with
  | Some (mn, mx) => Return (Point.subtract mx mn)
  | None => Throw (TypeError "this.max is undefined")
  end.

Definition isValid (b : t) : bool :=
  match b with
  | Some _ => true
  | None => false
  end.

End Bounds.

(** ** Projection (Web Mercator) *)

Definition earthRadius : R := 6378137.
Definition MAX_LATITUDE : R := 85.0511287798.

Definition project (latlng : LatLng.t) : Point.t :=
  let d := PI / 180 in
  let lat := Rmax (Rmin MAX_LATITUDE (LatLng.lat latlng)) (- MAX_LATITUDE) in
  let sin := sin (lat * d) in
  Point.mk (earthRadius * LatLng.lng latlng * d)
           (earthRadius * ln ((1 + sin) / (1 - sin)) / 2).

Definition unproject (point : Point.t) : LatLng.t :=
  let d := 180 / PI in
  LatLng.mk ((2 * atan (exp (Point.y point / earthRadius)) - PI / 2) * d)
            (Point.x point * d / earthRadius).

Module CRS.
Definition scale (zoom : R) : R := 256 * Math_pow 2 zoom.
Definition zoom (scale : R) : R := ln (scale / 256) / Math_LN2.
End CRS.

(** ** Double-precision arithmetic

    The operations of the projection of a longitude and of [_wrapX] as
    the host carries them out: each result is the exact one rounded to
    the nearest double.  A finite double is a real of the form
    [m * 2^e] with [|m| < 2^53] and [e >= -1074]. *)

Module Double.

(** The binade of a number that is not zero:
    [2^mag <= |x| < 2^(mag + 1)]. *)
Definition mag (x : R) : Z := Zfloor (ln (Rabs x) / ln 2).

(** The exponent of the last place of the doubles of that binade; below
    [2^-1022] the doubles are evenly spaced. *)
Definition ulp_exp (x : R) : Z := Z.max (mag x - 52) (-1074).

(** The nearest integer, a tie going to the even one. *)
Definition nearest_even (m : R) : Z :=
  let f := Zfloor m in
  if Rlt_dec (m - IZR f) (/ 2) then f
  else if Rlt_dec (/ 2) (m - IZR f) then (f + 1)%Z
  else if Z.even f then f else (f + 1)%Z.

(** Rounding to nearest, before overflow is looked at. *)
Definition nearest (x : R) : R :=
  let e := ulp_exp x in
  IZR (nearest_even (x * powerRZ 2 (- e))) * powerRZ 2 e.

(** [Number.MAX_VALUE] *)
Definition MAX_VALUE : R := IZR (2 ^ 53 - 1) * powerRZ 2 971.

(** The double that stands for an exact result. *)
Definition round (x : R) : number :=
  let y := nearest x in
  if Rlt_dec MAX_VALUE y then PosInfinity
  else if Rlt_dec y (- MAX_VALUE) then NegInfinity
  else Finite y.

(** [a + b], [a * b], [a / b] and [a % b].  A zero stands for +0: the
    sign of a zero only shows in a division by it. *)
Definition add (a b : number) : number :=
  match a, b with
  | Finite x, Finite y => round (x + y)
  | NaN, _ | _, NaN => NaN
  | PosInfinity, NegInfinity | NegInfinity, PosInfinity => NaN
  | PosInfinity, _ | _, PosInfinity => PosInfinity
  | NegInfinity, _ | _, NegInfinity => NegInfinity
  end.

Definition mul (a b : number) : number :=
  match a, b with
  | Finite x, Finite y => round (x * y)
  | NaN, _ | _, NaN => NaN
  | Finite x, PosInfinity | PosInfinity, Finite x =>
      if Rlt_dec 0 x then PosInfinity
      else if Rlt_dec x 0 then NegInfinity else NaN
  | Finite x, NegInfinity | NegInfinity, Finite x =>
      if Rlt_dec 0 x then NegInfinity
      else if Rlt_dec x 0 then PosInfinity else NaN
  | PosInfinity, PosInfinity | NegInfinity, NegInfinity => PosInfinity
  | PosInfinity, NegInfinity | NegInfinity, PosInfinity => NegInfinity
  end.


(** The remainder is exact and has the sign of the dividend. *)
Definition rem (a b : number) : number :=
  match a, b with
  | Finite x, Finite y => if Req_dec_T y 0 then NaN else Finite (js_rem x y)
  | Finite x, PosInfinity | Finite x, NegInfinity => Finite x
  | _, _ => NaN
  end.

(** [Math.pow(2, n)] for an integer [n]: the power of two, which is a
    double from [2^-1074] to [2^1023]. *)
Definition pow2 (n : Z) : number := round (powerRZ 2 n).


Definition earthRadius : number := Finite 6378137.

(** [CRS.scale(zoom)] at an integer zoom. *)
Definition scale (zoom : Z) : number := mul (Finite 256) (pow2 zoom).





(** [TileLayer._wrapX(x, zoom)] at an integer zoom. *)
Definition _wrapX (x : number) (zoom : Z) : number :=
  let worldWidth := pow2 zoom in
  rem (add (rem x worldWidth) worldWidth) worldWidth.

End Double.

(** ** What the engine does to its surroundings

    Listeners and layers are other components' code: a call into them
    is recorded, not run. *)

Inductive Effect : Type :=
| Fired (type : string) (called : list Evented.Listener)
| LayersUpdated.

(** ** DOM utilities *)

Module DomUtil.

(** An element, as far as positioning goes: its [_pos] property. *)
Definition Element : Type := option Point.t.

Definition setPosition (el : Element) (point : Point.t) : Element :=
  Some point.

Definition getPosition (el : Element) : Point.t :=
  match el with
  | Some p => p
  | None => Point.mk 0 0
  end.

(** [setTransform]: the offset and the scale that end up in
    [el.style.transform]; a falsy scale is left out. *)
Definition setTransform (offset : option Point.t) (scale : R)
  : Point.t * option R :=
  let pos := match offset with
             | Some p => p
             | None => Point.mk 0 0
             end in
  (pos, if Req_dec_T scale 0 then None else Some scale).

End DomUtil.

(** ** Animation: [class PosAnimation] *)

Module PosAnimation.

(** The host's frame scheduler: the callback waiting for the next
    frame, and the last id handed out. *)
Record Host : Type := mkHost { pending : option nat; lastId : nat }.

Definition requestAnimFrame (h : Host) : nat * Host :=
  (S (lastId h), mkHost (Some (S (lastId h))) (S (lastId h))).

Definition cancelAnimFrame (h : Host) (id : nat) : Host :=
  match pending h with
  | Some id' => if Nat.eqb id id' then mkHost None (lastId h) else h
  | None => h
  end.

Record t : Type := mk {
  _startPos : Point.t;
  _offset : Point.t;
  _startTime : R;
  _duration : R;
  _animId : option nat
}.

(** [new PosAnimation()]: nothing is set; [run] writes every field
    before [_animate] reads it. *)
Definition new : t := mk (Point.mk 0 0) (Point.mk 0 0) 0 0 None.

(** The animation together with what it acts on. *)
Record Scene : Type := mkScene {
  anim : t;
  el : DomUtil.Element;
  host : Host;
  log : list Effect
}.

Definition stop (s : Scene) : Scene :=
  match _animId (anim s) with
  | Some id =>
      let a := anim s in
      mkScene (mk (_startPos a) (_offset a) (_startTime a) (_duration a) None)
              (el s) (cancelAnimFrame (host s) id) (log s)
  | None => s
  end.

(** [_animate()], when [Date.now()] reads [now]. *)
Definition _animate (s : Scene) (now : R) : Scene :=
  let a := anim s in
  let elapsed := now - _startTime a in
  if Rlt_dec elapsed (_duration a) then
    let t := elapsed / _duration a in
    let ease := 1 - (1 - t) ^ 2 in
    let pos := Point.add (_startPos a) (Point.multiplyBy (_offset a) ease) in
    let (id, h) := requestAnimFrame (host s) in
    mkScene (mk (_startPos a) (_offset a) (_startTime a) (_duration a) (Some id))
            (DomUtil.setPosition (el s) pos) h (log s)
  else
    mkScene a
            (DomUtil.setPosition (el s) (Point.add (_startPos a) (_offset a)))
            (host s)
            (log s ++ [Fired "end" []]).

(** [run(el, newPos, duration = 0.25)]; [Date.now()] reads [t0] in
    [run] and [t1] in the first [_animate]. *)
Definition run (s : Scene) (newPos : Point.t) (duration : option R)
  (t0 t1 : R) : Scene :=
  let duration := match duration with
                  | Some d => d
                  | None => 0.25
                  end in
  let s := stop s in
  let startPos := DomUtil.getPosition (el s) in
  let a := mk startPos (Point.subtract newPos startPos) t0 (duration * 1000)
              (_animId (anim s)) in
  _animate (mkScene a (el s) (host s) (log s)) t1.

(** The host runs the waiting frame callback, if any, when
    [Date.now()] reads [now]. *)
Definition frame (s : Scene) (now : R) : Scene :=
  match pending (host s) with
  | Some _ =>
      _animate (mkScene (anim s) (el s) (mkHost None (lastId (host s))) (log s))
               now
  | None => s
  end.

End PosAnimation.

(** ** The map: [class Map] *)

Module Map.

Record t : Type := mk {
  clientSize : Point.t;          (* [_container.clientWidth/Height] *)
  _mapPane : DomUtil.Element;
  _events : Evented.t;
  _center : LatLng.t;
  _zoom : R;
  _pixelOrigin : Point.t;
  _panAnim : option PosAnimation.t;
  host : PosAnimation.Host;
  effects : list Effect
}.

(** A centre is given as an instance or as an array of two numbers. *)
Inductive Center : Type :=
| Instance (latlng : LatLng.t)
| Array (lat lng : R).

Record PanOptions : Type := mkPanOptions {
  animate : option bool;
  duration : option R
}.

Record Options : Type := mkOptions {
  center : option Center;
  zoom : option R
}.

(** *** Projection *)

Definition project (this : t) (latlng : LatLng.t) (zoom : option R) : Point.t :=
  let zoom := match zoom with
              | Some z => z
              | None => _zoom this
              end in
  let point := project latlng in
  Point.multiplyBy point (CRS.scale zoom / earthRadius).

Definition unproject (this : t) (point : Point.t) (zoom : option R) : LatLng.t :=
  let zoom := match zoom with
              | Some z => z
              | None => _zoom this
              end in
  let scaled := Point.divideBy point (CRS.scale zoom / earthRadius) in
  unproject scaled.

(** *** Coordinate conversions *)

Definition latLngToContainerPoint (this : t) (latlng : LatLng.t) : Point.t :=
  let p := Point.subtract (project this latlng None) (_pixelOrigin this) in
  Point.round p.

Definition containerPointToLatLng (this : t) (point : Point.t) : LatLng.t :=
  unproject this (Point.add point (_pixelOrigin this)) None.

(** *** View control *)

Definition getZoom (this : t) : R := _zoom this.
Definition getCenter (this : t) : LatLng.t := _center this.
Definition getSize (this : t) : Point.t :=
  Point.mk (Point.x (clientSize this)) (Point.y (clientSize this)).
Definition getPixelBounds (this : t) : Bounds.t :=
  let size := getSize this in
  let nw := _pixelOrigin this in
  Bounds.new (Some nw) (Some (Point.add nw size)).
Definition getPixelOrigin (this : t) : Point.t := _pixelOrigin this.
Definition getZoomScale (this : t) (toZoom : R) (fromZoom : option R) : R :=
  let fromZoom := match fromZoom with
                  | Some z => z
                  | None => _zoom this
                  end in
  CRS.scale toZoom / CRS.scale fromZoom.

Definition fire (this : t) (type : string) : t :=
  mk (clientSize this) (_mapPane this) (_events this) (_center this)
     (_zoom this) (_pixelOrigin this) (_panAnim this) (host this)
     (effects this ++ [Fired type (Evented.fire (_events this) type)]).

Definition _updateLayers (this : t) : t :=
  mk (clientSize this) (_mapPane this) (_events this) (_center this)
     (_zoom this) (_pixelOrigin this) (_panAnim this) (host this)
     (effects this ++ [LayersUpdated]).

Definition _resetView (this : t) : t :=
  let this := mk (clientSize this)
                 (DomUtil.setPosition (_mapPane this) (Point.mk 0 0))
                 (_events this) (_center this) (_zoom this)
                 (_pixelOrigin this) (_panAnim this) (host this)
                 (effects this) in
  let this := _updateLayers this in
  fire this "moveend".

Definition setView (this : t) (latlng : Center) (zoom : R) : t :=
  let center := match latlng with
                | Instance l => l
                | Array lat lng => LatLng.mk lat lng
                end in
  let this := mk (clientSize this) (_mapPane this) (_events this) center zoom
                 (_pixelOrigin this) (_panAnim this) (host this)
                 (effects this) in
  let this := mk (clientSize this) (_mapPane this) (_events this)
                 (_center this) (_zoom this)
                 (Point.subtract (project this (_center this) None)
                                 (Point.divideBy (getSize this) 2))
                 (_panAnim this) (host this) (effects this) in
  _resetView this.

Definition _getMapPanePos (this : t) : Point.t :=
  DomUtil.getPosition (_mapPane this).

(** [panBy(offset, options)]; [t0] and [t1] are the two readings of
    the clock that an animated pan takes. *)
Definition panBy (this : t) (offset : R * R) (options : PanOptions)
  (t0 t1 : R) : t :=
  let newPos := Point.subtract (_getMapPanePos this)
                               (Point.mk (fst offset) (snd offset)) in
  let this :=
    match animate options with
    | Some false =>
        mk (clientSize this) (DomUtil.setPosition (_mapPane this) newPos)
           (_events this) (_center this) (_zoom this) (_pixelOrigin this)
           (_panAnim this) (host this) (effects this)
    | _ =>
        let panAnim := match _panAnim this with
                       | Some a => a
                       | None => PosAnimation.new
                       end in
        let s := PosAnimation.run
                   (PosAnimation.mkScene panAnim (_mapPane this) (host this)
                                         (effects this))
                   newPos (duration options) t0 t1 in
        mk (clientSize this) (PosAnimation.el s) (_events this)
           (_center this) (_zoom this) (_pixelOrigin this)
           (Some (PosAnimation.anim s)) (PosAnimation.host s)
           (PosAnimation.log s)
    end in
  fire this "moveend".

Definition panTo (this : t) (latlng : LatLng.t) (options : PanOptions)
  (t0 t1 : R) : t :=
  let from := latLngToContainerPoint this (_center this) in
  let to := latLngToContainerPoint this latlng in
  let offset := Point.subtract to from in
  panBy this (Point.x offset, Point.y offset) options t0 t1.

Definition setZoom (this : t) (zoom : R) : t :=
  setView this (Instance (_center this)) zoom.

Definition zoomIn (this : t) (delta : option R) : t :=
  let delta := match delta with
               | Some d => d
               | None => 1
               end in
  setZoom this (_zoom this + delta).

Definition zoomOut (this : t) (delta : option R) : t :=
  let delta := match delta with
               | Some d => d
               | None => 1
               end in
  setZoom this (_zoom this - delta).

Definition _getNewPixelOrigin (this : t) (center : LatLng.t) (zoom : R)
  : Point.t :=
  let viewHalf := Point.divideBy (getSize this) 2 in
  Point.subtract (project this center (Some zoom)) viewHalf.

(** [on] and [off] of the emitter that the map is. *)
Definition on (this : t) (types : string) (fn : Evented.Fn)
  (ctx : option Evented.Ctx) : t :=
  mk (clientSize this) (_mapPane this)
     (Evented.on (_events this) types fn ctx) (_center this) (_zoom this)
     (_pixelOrigin this) (_panAnim this) (host this) (effects this).

Definition off (this : t) (types : Evented.Types) (fn : option Evented.Fn)
  : Result t :=
  let* ev := Evented.off (_events this) types fn in
  Return (mk (clientSize this) (_mapPane this) ev (_center this) (_zoom this)
             (_pixelOrigin this) (_panAnim this) (host this) (effects this)).

(** The host runs the frame callback of the pan animation, if one
    waits, when the clock reads [now]. *)
Definition animationFrame (this : t) (now : R) : t :=
  match _panAnim this with
  | Some a =>
      let s := PosAnimation.frame
                 (PosAnimation.mkScene a (_mapPane this) (host this)
                                       (effects this)) now in
      mk (clientSize this) (PosAnimation.el s) (_events this) (_center this)
         (_zoom this) (_pixelOrigin this) (Some (PosAnimation.anim s))
         (PosAnimation.host s) (PosAnimation.log s)
  | None => this
  end.

(** [new Map(container, options)] without layers, in a container of
    the given client size: the layout is created and the view is set.
    The view fields are unset until [setView] writes them; the values
    given to them here are never read. *)
Definition new (size : Point.t) (options : Options) : t :=
  let this := mk size None None (LatLng.mk 0 0) 0 (Point.mk 0 0) None
                 (PosAnimation.mkHost None 0) [] in
  setView this
          (match center options with
           | Some c => c
           | None => Array 0 0
           end)
          (match zoom options with
           | Some z => z
           | None => 1
           end).

(** The operations that change the view of a map. *)
Inductive Op : Type :=
| SetView (latlng : Center) (zoom : R)
| SetZoom (zoom : R)
| ZoomIn (delta : option R)
| ZoomOut (delta : option R)
| PanBy (offset : R * R) (options : PanOptions) (t0 t1 : R)
| PanTo (latlng : LatLng.t) (options : PanOptions) (t0 t1 : R)
| AnimationFrame (now : R).

Definition step (this : t) (op : Op) : t :=
  match op with
  | SetView latlng zoom => setView this latlng zoom
  | SetZoom zoom => setZoom this zoom
  | ZoomIn delta => zoomIn this delta
  | ZoomOut delta => zoomOut this delta
  | PanBy offset options t0 t1 => panBy this offset options t0 t1
  | PanTo latlng options t0 t1 => panTo this latlng options t0 t1
  | AnimationFrame now => animationFrame this now
  end.

Definition run (this : t) (ops : list Op) : t := fold_left step ops this.

End Map.

(** ** The tile layer: [class TileLayer] *)

Module TileLayer.

(** Tile coordinates [{x, y, z}]. *)
Record Coords : Type := mkCoords { x : R; y : R; z : R }.

(** The key [`${x}:${y}:${z}`]: the string shows the three numbers,
    so two keys are the same string exactly when the numbers agree. *)
Definition Key : Type := (R * R * R)%type.

Definition key_eqb (k k' : Key) : bool :=
  let '(a, b, c) := k in
  let '(a', b', c') := k' in
  if Req_dec_T a a' then
    if Req_dec_T b b' then
      if Req_dec_T c c' then true else false
    else false
  else false.

(** An [img] element of the layer. *)
Record Tile : Type := mkTile {
  width : R;
  height : R;
  left : R;
  top : R;
  src : string;
  loading : bool
}.

Definition errorTileUrl : string :=
  "data:image/gif;base64,R0lGODlhAQABAAD/ACwAAAAAAQABAAACADs=".

Definition onload (tile : Tile) : Tile :=
  mkTile (width tile) (height tile) (left tile) (top tile) (src tile) false.

Definition onerror (tile : Tile) : Tile :=
  mkTile (width tile) (height tile) (left tile) (top tile) errorTileUrl
         (loading tile).

(** What [_update] does to the children of the tile container. *)
Inductive DomOp : Type :=
| RemoveChild (key : Key)
| AppendChild (key : Key).

Record t : Type := mk {
  _url : string;
  tileSize : R;                       (* [_options.tileSize] *)
  _map : bool;                        (* whether [this._map] is set *)
  _tiles : Obj Key Tile;
  transform : option (Point.t * option R)   (* of [this._container] *)
}.

Section Host.

(** The host's conversion of a number to its decimal string. *)
Variable toString : R -> string.

(** [new TileLayer(urlTemplate, options)] *)
Definition new (urlTemplate : string) (tileSize : option R) : t :=
  mk urlTemplate
     (match tileSize with
      | Some s => s
      | None => 256
      end)
     false [] None.

Definition _getTileUrl (this : t) (coords : Coords) : string :=
  replace "{z}" (toString (z coords))
    (replace "{y}" (toString (y coords))
       (replace "{x}" (toString (x coords)) (_url this))).

Definition _wrapX (x zoom : R) : R :=
  let worldWidth := Math_pow 2 zoom in
  js_rem (js_rem x worldWidth + worldWidth) worldWidth.

(** The two nested loops that fill [tilesToLoad]. *)
Definition tilesToLoad (nwTile seTile : Point.t) (zoom : R)
  : Obj Key Coords :=
  fold_left
    (fun acc x =>
       fold_left
         (fun acc y =>
            let wx := _wrapX x zoom in
            let key := (wx, y, zoom) in
            obj_set key_eqb acc key (mkCoords wx y zoom))
         (js_range (Point.y nwTile) (Point.y seTile)) acc)
    (js_range (Point.x nwTile) (Point.x seTile)) [].

(** Remove old tiles: the tiles kept, and the removals. *)
Definition removeOld (tiles : Obj Key Tile) (toLoad : Obj Key Coords)
  : Obj Key Tile * list DomOp :=
  (filter (fun kt => obj_has key_eqb toLoad (fst kt)) tiles,
   map (fun kt => RemoveChild (fst kt))
       (filter (fun kt => negb (obj_has key_eqb toLoad (fst kt))) tiles)).

Definition createTile (this : t) (coords : Coords) : Tile :=
  mkTile (tileSize this) (tileSize this)
         (x coords * tileSize this) (y coords * tileSize this)
         (_getTileUrl this coords) true.

(** Add new tiles: the tiles after the loop, and the additions. *)
Definition addNew (this : t) (tiles : Obj Key Tile)
  (toLoad : Obj Key Coords) : Obj Key Tile * list DomOp :=
  fold_left
    (fun acc kc =>
       if obj_has key_eqb (fst acc) (fst kc) then acc
       else (obj_set key_eqb (fst acc) (fst kc) (createTile this (snd kc)),
             snd acc ++ [AppendChild (fst kc)]))
    toLoad (tiles, []).

(** [_update()], for a layer whose [_map], when set, is [map];
    [proto] is [Point.prototype] at the time of the call. *)
Definition _update (proto : Point.Prototype) (map : Map.t) (this : t)
  : Result (t * list DomOp) :=
  if negb (_map this) then Return (this, [])
  else
    let zoom := Math_round (Map.getZoom map) in
    let bounds := Map.getPixelBounds map in
    let tileSize := tileSize this in
    match bounds with
    | None => Throw (TypeError "bounds.min is undefined")
    | Some (bmin, bmax) =>
        let* nwTile := Point.call proto (Point.divideBy bmin tileSize)
                                  "floor" in
        let* seTile := Point.call proto (Point.divideBy bmax tileSize)
                                  "ceil" in
        let toLoad := tilesToLoad nwTile seTile zoom in
        let (tiles, removed) := removeOld (_tiles this) toLoad in
        let (tiles, added) := addNew this tiles toLoad in
        let center := Map.getCenter map in
        let pixelOrigin := Map._getNewPixelOrigin map center zoom in
        let offset := Point.multiplyBy pixelOrigin (-1) in
        let scale := Map.getZoomScale map zoom (Some (Map._zoom map)) in
        Return (mk (_url this) tileSize (_map this) tiles
                   (Some (DomUtil.setTransform (Some offset) scale)),
                removed ++ added)
    end.

(** [onAdd(map)]: the layer, the map and the DOM operations; the
    listener is registered only when [_update] has returned. *)
Definition onAdd (proto : Point.Prototype) (fn : Evented.Fn)
  (ctx : Evented.Ctx) (map : Map.t) (this : t)
  : Result (t * Map.t * list DomOp) :=
  let this := mk (_url this) (tileSize this) true [] (transform this) in
  let* r := _update proto map this in
  Return (fst r, Map.on map "moveend" fn (Some ctx), snd r).

Definition _clearTiles (this : t) : t * list DomOp :=
  (mk (_url this) (tileSize this) (_map this) [] (transform this),
   map (fun kt => RemoveChild (fst kt)) (_tiles this)).

(** [onRemove()], for a layer whose [_map], when set, is [map]: the
    listener is taken off the map first, by
    [this._map.off('moveend', this._update, this)], which needs
    [this._map]. *)
Definition onRemove (fn : Evented.Fn) (map : Map.t) (this : t)
  : Result (t * Map.t * list DomOp) :=
  if negb (_map this) then Throw (TypeError "this._map is undefined")
  else
    let* map := Map.off map (Evented.TypesString "moveend") (Some fn) in
    let (this, removed) := _clearTiles this in
    Return (mk (_url this) (tileSize this) false (_tiles this) (transform this),
            map, removed).

(** The layer and the operations after a call, whether it returned
    or threw: [_update] throws before it changes anything. *)
Definition after_update (proto : Point.Prototype) (map : Map.t) (this : t)
  : t * list DomOp :=
  match _update proto map this with
  | Return r => r
  | Throw _ => (this, [])
  end.

End Host.

End TileLayer.

(** ** Utilities: [Util] *)

Module Util.

(** [dest[i] = src[i]] on a plain object: under the name [__proto__]
    the assignment goes to the setter that [Object.prototype] has for it
    and gives [dest] no property of its own. *)
Definition assign {V : Type} (dest : Obj string V) (i : string) (v : V)
  : Obj string V :=
  if String.eqb i "__proto__" then dest else obj_set String.eqb dest i v.

(** [extend(dest, ...sources)]: every enumerable property of every
    source is assigned to [dest], in order. *)
Definition extend {V : Type} (dest : Obj string V) (sources : list (Obj string V))
  : Obj string V :=
  fold_left
    (fun dest src =>
       fold_left (fun dest kv => assign dest (fst kv) (snd kv)) src dest)
    sources dest.

(** Objects are known by their identity; [ids] gives the [_id] property
    of each, if it has one, and [lastId] is [Util.lastId]. *)
Record Stamps : Type := mkStamps { lastId : nat; ids : nat -> option nat }.

Definition noStamps : Stamps := mkStamps 0 (fun _ => None).

(** [stamp(obj)]: the id returned and the state left. *)
Definition stamp (s : Stamps) (obj : nat) : nat * Stamps :=
  match ids s obj with
  | Some id => (id, s)
  | None =>
      let id := S (lastId s) in
      (id, mkStamps id (fun o => if Nat.eqb o obj then Some id else ids s o))
  end.

(** [formatNum(num, digits = 6)] *)
Definition formatNum (num : R) (digits : option R) : R :=
  let digits := match digits with
                | Some d => d
                | None => 6
                end in
  let pow := Math_pow 10 digits in
  Math_round (num * pow) / pow.

End Util.

(** ** GeoJSON support: [geoJSON] *)

Module GeoJSON.

(** A geometry object: a Point with its [coordinates] array, or a
    geometry of another type. *)
Inductive Geometry : Type :=
| PointGeometry (coordinates : list number)
| OtherGeometry (type : string).

(** The values [geoJSON] tells apart by their [type]: a collection, a
    feature, and anything else (a bare geometry included). *)
#[warnings="-register-all"]
Inductive Data : Type :=
| FeatureCollection (features : list Data)
| Feature (geometry : Geometry)
| Other (type : string).

(** A marker as its constructor leaves it; the options are handed
    through as they are. *)
Record Marker (O : Type) : Type := mkMarker {
  _latlng : LatLng.fields;
  _options : O
}.

Arguments mkMarker {O} _latlng _options.
Arguments _latlng {O} m.
Arguments _options {O} m.

(** [coordinates[i]]; a missing element is undefined, which [isNaN]
    and unary [+] take to NaN. *)
Definition coordinate (coordinates : list number) (i : nat) : number :=
  match nth_error coordinates i with
  | Some v => v
  | None => NaN
  end.

(** [process(feature)], with the array [layers] it pushes to. *)
Fixpoint process {O : Type} (options : O) (feature : Data)
  (layers : list (Marker O)) : Result (list (Marker O)) :=
  match feature with
  | FeatureCollection features =>
      (fix forEach (fs : list Data) (layers : list (Marker O))
         : Result (list (Marker O)) :=
         match fs with
         | [] => Return layers
         | f :: fs' =>
             let* layers := process options f layers in
             forEach fs' layers
         end) features layers
  | Feature geom =>
      match geom with
      | PointGeometry coordinates =>
          let* ll := LatLng.new (coordinate coordinates 1)
                                (coordinate coordinates 0) in
          Return (layers ++ [mkMarker ll options])
      | OtherGeometry _ => Return layers
      end
  | Other _ => Return layers
  end.

(** [geoJSON(data, options)]: the layers of the group returned. *)
Definition geoJSON {O : Type} (data : Data) (options : O)
  : Result (list (Marker O)) :=
  match data with
  | Feature _ => process options data []
  | _ => process options (FeatureCollection [data]) []
  end.

(** The Point features of a value, in document order. *)
Fixpoint points (data : Data) : list (list number) :=
  match data with
  | FeatureCollection features =>
      (fix each (fs : list Data) : list (list number) :=
         match fs with
         | [] => []
         | f :: fs' => points f ++ each fs'
         end) features
  | Feature (PointGeometry coordinates) => [coordinates]
  | Feature (OtherGeometry _) => []
  | Other _ => []
  end.

(** The markers for a list of coordinate arrays, made one after the
    other; the first LatLng that cannot be constructed stops it. *)
Fixpoint markers {O : Type} (options : O) (ps : list (list number))
  : Result (list (Marker O)) :=
  match ps with
  | [] => Return []
  | coordinates :: ps' =>
      let* ll := LatLng.new (coordinate coordinates 1)
                            (coordinate coordinates 0) in
      let* ms := markers options ps' in
      Return (mkMarker ll options :: ms)
  end.

End GeoJSON.

(** ** Predicates of the specification *)

(** The pixel origin is the one derived from the centre, the zoom and
    the size of the viewport. *)
Definition derived (m : Map.t) : Prop :=
  Map._pixelOrigin m
  = Point.subtract (Map.project m (Map._center m) (Some (Map._zoom m)))
                   (Point.divideBy (Map.getSize m) 2).

(** A pan animation toward [target], started at [t0] and lasting
    [span] milliseconds, is under way or has come to rest at [target]. *)
Definition panning (target : Point.t) (t0 span : R) (m : Map.t) : Prop :=
  exists a,
    Map._panAnim m = Some a /\
    Point.add (PosAnimation._startPos a) (PosAnimation._offset a) = target /\
    PosAnimation._startTime a = t0 /\
    PosAnimation._duration a = span /\
    (PosAnimation.pending (Map.host m) = None -> Map._getMapPanePos m = target).

(** The tiles that [_update] wants, once floor and ceil are found. *)
Definition required (floor ceil : Point.t -> Point.t) (map : Map.t)
  (layer : TileLayer.t) : Obj TileLayer.Key TileLayer.Coords :=
  match Map.getPixelBounds map with
  | Some (bmin, bmax) =>
      TileLayer.tilesToLoad
        (floor (Point.divideBy bmin (TileLayer.tileSize layer)))
        (ceil (Point.divideBy bmax (TileLayer.tileSize layer)))
        (Math_round (Map.getZoom map))
  | None => []
  end.

(** [t] is [s] with the first occurrence of [pat], if there is one,
    replaced by [rep]: what is before and after that occurrence is
    kept as it is. *)
Definition first_replaced (pat rep s t : string) : Prop :=
  ((forall a b, s <> (a ++ pat ++ b)%string) /\ t = s) \/
  (exists a b,
      s = (a ++ pat ++ b)%string /\
      (forall a' b', s = (a' ++ pat ++ b')%string ->
                     (String.length a <= String.length a')%nat) /\
      t = (a ++ rep ++ b)%string).

(** [pat] occurs in [s]; [pat] occurs at two places of [s] that do not
    overlap. *)
Definition occurs (pat s : string) : Prop :=
  exists a b, s = (a ++ pat ++ b)%string.

Definition occurs_twice (pat s : string) : Prop :=
  exists a m c, s = (a ++ pat ++ m ++ pat ++ c)%string.

(** The placeholder [{c}]. *)
Definition placeholder (c : ascii) : string :=
  String "{" (String c (String "}" EmptyString)).

(** The number of times moveend was fired, in a list of effects. *)
Fixpoint moveends (effects : list Effect) : nat :=
  match effects with
  | [] => 0
  | Fired type _ :: rest =>
      if String.eqb type "moveend" then S (moveends rest) else moveends rest
  | LayersUpdated :: rest => moveends rest
  end.

(** The operations that a caller of the map makes, as opposed to the
    frames that the host runs. *)
Definition is_call (op : Map.Op) : bool :=
  match op with
  | Map.AnimationFrame _ => false
  | _ => true
  end.

(** A frame callback that waits is the one the pan animation of the
    map has recorded in [_animId]. *)
Definition frame_owned (m : Map.t) : Prop :=
  forall id,
    PosAnimation.pending (Map.host m) = Some id ->
    exists a, Map._panAnim m = Some a /\ PosAnimation._animId a = Some id.

(** Whether [pat] occurs in [s], by search from the left. *)
Fixpoint occursb (pat s : string) : bool :=
  if String.prefix pat s then true
  else match s with
       | EmptyString => false
       | String _ s' => occursb pat s'
       end.

(** The stamps after [stamp] has been called on each object of a list. *)
Definition stamp_all (s : Util.Stamps) (objs : list nat) : Util.Stamps :=
  fold_left (fun s obj => snd (Util.stamp s obj)) objs s.

(** The value that a key has after [extend]: that of the last source
    that has the key, and else the one of [dest]. *)
Definition last_assigned {V : Type} (dest : Obj string V)
  (sources : list (Obj string V)) (k : string) : option V :=
  fold_left
    (fun found src =>
       match obj_get String.eqb src k with
       | Some v => Some v
       | None => found
       end)
    sources (obj_get String.eqb dest k).

(** Half the distance between 1 and the next double, and half the
    distance between two of the smallest doubles: the relative and the
    absolute bound on the error of one rounding. *)
Definition u53 : R := powerRZ 2 (-53).
Definition eta : R := powerRZ 2 (-1075).


(** * Properties *)

(** ** The definitions on small inputs *)

Example split_on_two_types :
  split_on " " "moveend zoomend" = ["moveend"; "zoomend"]%string.
Proof. reflexivity. Qed.

Example split_on_double_space :
  split_on " " "a  b" = ["a"; ""; "b"]%string.
Proof. reflexivity. Qed.

Example replace_first_of_two :
  replace "{x}" "3" "a{x}b{x}" = "a3b{x}"%string.
Proof. reflexivity. Qed.

Example replace_absent : replace "{x}" "3" "abc" = "abc"%string.
Proof. reflexivity. Qed.

Example on_twice_then_fire :
  let bus := Evented.on (Evented.on None "moveend" 1%nat None)
                        "moveend zoomend" 2%nat (Some 7%nat) in
  Evented.fire bus "moveend"
  = [Evented.mkListener 1%nat None; Evented.mkListener 2%nat (Some 7%nat)] /\
  Evented.fire bus "zoomend" = [Evented.mkListener 2%nat (Some 7%nat)] /\
  Evented.fire bus "click" = [].
Proof. repeat split. Qed.

Example off_array_removes_by_function :
  let bus := Evented.on (Evented.on None "moveend" 1%nat None)
                        "moveend" 2%nat None in
  Evented.off bus (Evented.TypesArray ["moveend"%string]) (Some 1%nat)
  = Return (Some [("moveend"%string, [Evented.mkListener 2%nat None])]).
Proof. reflexivity. Qed.

Example bounds_of_two_points :
  Bounds.new (Some (Point.mk 1 5)) (Some (Point.mk 3 2))
  = Some (Point.mk 1 2, Point.mk 3 5).
Proof.
  unfold Bounds.new, Bounds.extend, Point.clone. cbn [Point.x Point.y].
  rewrite (Rmin_left 1 3), (Rmin_right 5 2), (Rmax_right 1 3), (Rmax_left 5 2)
    by lra.
  reflexivity.
Qed.

Example round_half_up :
  Math_round (5 / 2) = 3 /\ Math_round (- (5 / 2)) = -2 /\ Math_round (27 / 10) = 3.
Proof.
  unfold Math_round.
  repeat split; f_equal; apply Zfloor_eq; cbn [IZR]; lra.
Qed.

Example rem_follows_dividend :
  js_rem (-1) 4 = -1 /\ js_rem 7 4 = 3.
Proof.
  change (-1) with (IZR (-1)). change 4 with (IZR 4).
  change 7 with (IZR 7). change 3 with (IZR 3).
  unfold js_rem, Ztrunc. split.
  - destruct (Rle_dec 0 (IZR (-1) / IZR 4)) as [H | H]; [lra |].
    replace (Zceil (IZR (-1) / IZR 4)) with 0%Z; [lra |].
    symmetry. apply Zceil_eq. lra.
  - destruct (Rle_dec 0 (IZR 7 / IZR 4)) as [H | H]; [| lra].
    replace (Zfloor (IZR 7 / IZR 4)) with 1%Z; [lra |].
    symmetry. apply Zfloor_eq. lra.
Qed.

(** ** Numbers *)

Lemma Math_round_IZR (z : Z) : Math_round (IZR z) = IZR z.
Proof.
  unfold Math_round. f_equal. apply Zfloor_eq. lra.
Qed.

Lemma Math_pow_2_pos (e : R) : 0 < Math_pow 2 e.
Proof.
  unfold Math_pow, Rpower. apply exp_pos.
Qed.

Lemma CRS_scale_pos (zoom : R) : 0 < CRS.scale zoom.
Proof.
  unfold CRS.scale. pose proof (Math_pow_2_pos zoom). lra.
Qed.

Lemma Ztrunc_nonneg (q : R) :
  0 <= q -> 0 <= q - IZR (Ztrunc q) < 1.
Proof.
  intros Hq. unfold Ztrunc. destruct (Rle_dec 0 q) as [_ | Hn]; [| lra].
  pose proof (Zfloor_bound q). lra.
Qed.

Lemma Ztrunc_neg (q : R) :
  q < 0 -> -1 < q - IZR (Ztrunc q) <= 0.
Proof.
  intros Hq. unfold Ztrunc. destruct (Rle_dec 0 q) as [Hp | _]; [lra |].
  pose proof (Zceil_bound q). lra.
Qed.

(** The remainder is smaller than the divisor in size and has the sign
    of the dividend. *)
Lemma js_rem_bound (a b : R) :
  0 < b -> - b < js_rem a b < b.
Proof.
  intros Hb. unfold js_rem.
  assert (Ha : a = b * (a / b)) by (field; lra).
  set (q := a / b) in *. clearbody q. subst a.
  destruct (Rle_dec 0 q) as [Hq | Hq].
  - pose proof (Ztrunc_nonneg q Hq). nra.
  - pose proof (Ztrunc_neg q ltac:(lra)). nra.
Qed.

Lemma js_rem_nonneg (a b : R) :
  0 < b -> 0 <= a -> 0 <= js_rem a b < b.
Proof.
  intros Hb Ha. unfold js_rem.
  assert (Hq : 0 <= a / b).
  { apply Rmult_le_pos; [lra |]. left. now apply Rinv_0_lt_compat. }
  assert (Ha' : a = b * (a / b)) by (field; lra).
  set (q := a / b) in *. clearbody q. subst a.
  pose proof (Ztrunc_nonneg q Hq). nra.
Qed.

(** ** Rounding to doubles *)

Lemma Rabs_le_bounds (v a : R) : Rabs v <= a -> - a <= v <= a.
Proof.
  unfold Rabs. destruct (Rcase_abs v); lra.
Qed.

Lemma powerRZ_2_pos (e : Z) : 0 < powerRZ 2 e.
Proof. apply powerRZ_lt. lra. Qed.

Lemma powerRZ_2_IZR (e : Z) : (0 <= e)%Z -> powerRZ 2 e = IZR (2 ^ e).
Proof.
  intros He. destruct e as [| p | p]; [reflexivity | | lia].
  cbn [powerRZ]. rewrite pow_IZR. now rewrite positive_nat_Z.
Qed.

Lemma powerRZ_2_plus (a b : Z) : powerRZ 2 (a + b) = powerRZ 2 a * powerRZ 2 b.
Proof. apply powerRZ_add. lra. Qed.

Lemma powerRZ_2_opp (a : Z) : powerRZ 2 (- a) = / powerRZ 2 a.
Proof. apply powerRZ_neg'. Qed.

Lemma powerRZ_2_ge_1 (e : Z) : (0 <= e)%Z -> 1 <= powerRZ 2 e.
Proof.
  intros He. rewrite powerRZ_2_IZR by assumption.
  apply IZR_le. pose proof (Z.pow_pos_nonneg 2 e). lia.
Qed.

Lemma powerRZ_2_le (a b : Z) : (a <= b)%Z -> powerRZ 2 a <= powerRZ 2 b.
Proof.
  intros H. replace b with (a + (b - a))%Z by lia.
  rewrite powerRZ_2_plus.
  pose proof (powerRZ_2_pos a). pose proof (powerRZ_2_ge_1 (b - a) ltac:(lia)).
  nra.
Qed.

Lemma powerRZ_2_lt (a b : Z) : (a < b)%Z -> powerRZ 2 a < powerRZ 2 b.
Proof.
  intros H. replace b with (a + 1 + (b - a - 1))%Z by lia.
  rewrite !powerRZ_2_plus.
  pose proof (powerRZ_2_pos a). pose proof (powerRZ_2_ge_1 (b - a - 1) ltac:(lia)).
  change (powerRZ 2 1) with (2 * 1). nra.
Qed.

Lemma powerRZ_2_succ (a : Z) : powerRZ 2 (a + 1) = 2 * powerRZ 2 a.
Proof. rewrite powerRZ_2_plus. change (powerRZ 2 1) with (2 * 1). ring. Qed.

Lemma powerRZ_2_exp (e : Z) : powerRZ 2 e = exp (IZR e * ln 2).
Proof. rewrite powerRZ_Rpower by lra. reflexivity. Qed.

Lemma ln_2_pos : 0 < ln 2.
Proof. rewrite <- ln_1. apply ln_increasing; lra. Qed.

Lemma ln_nonpos (x : R) : x <= 0 -> ln x = 0.
Proof.
  intros Hx. unfold ln. destruct (Rlt_dec 0 x) as [H | H]; [exfalso; lra | reflexivity].
Qed.

Lemma mag_spec (x : R) :
  x <> 0 ->
  powerRZ 2 (Double.mag x) <= Rabs x < powerRZ 2 (Double.mag x + 1).
Proof.
  intros Hx. unfold Double.mag.
  assert (Ha : 0 < Rabs x) by now apply Rabs_pos_lt.
  pose proof ln_2_pos as H2.
  pose proof (Zfloor_bound (ln (Rabs x) / ln 2)) as [Hl Hu].
  set (e := Zfloor (ln (Rabs x) / ln 2)) in *.
  rewrite !powerRZ_2_exp, plus_IZR.
  rewrite <- (exp_ln (Rabs x)) at 1 2 by assumption.
  assert (Hl' : IZR e * ln 2 <= ln (Rabs x)).
  { apply (Rmult_le_compat_r (ln 2)) in Hl; [| lra].
    replace (ln (Rabs x) / ln 2 * ln 2) with (ln (Rabs x)) in Hl by (field; lra).
    exact Hl. }
  assert (Hu' : ln (Rabs x) < (IZR e + 1) * ln 2).
  { apply (Rmult_lt_compat_r (ln 2)) in Hu; [| lra].
    replace (ln (Rabs x) / ln 2 * ln 2) with (ln (Rabs x)) in Hu by (field; lra).
    exact Hu. }
  split.
  - destruct Hl' as [Hlt | Heq]; [left; now apply exp_increasing | right; now rewrite Heq].
  - now apply exp_increasing.
Qed.

Lemma mag_unique (x : R) (e : Z) :
  powerRZ 2 e <= Rabs x < powerRZ 2 (e + 1) -> Double.mag x = e.
Proof.
  intros [Hl Hu].
  assert (Hx : x <> 0).
  { intros ->. rewrite Rabs_R0 in Hl. pose proof (powerRZ_2_pos e). lra. }
  destruct (mag_spec x Hx) as [Hl' Hu'].
  destruct (Z.lt_trichotomy (Double.mag x) e) as [Hlt | [Heq | Hgt]];
    [| exact Heq |].
  - pose proof (powerRZ_2_le (Double.mag x + 1) e ltac:(lia)). lra.
  - pose proof (powerRZ_2_le (e + 1) (Double.mag x) ltac:(lia)). lra.
Qed.

Lemma nearest_even_near (m : R) :
  Rabs (IZR (Double.nearest_even m) - m) <= / 2.
Proof.
  unfold Double.nearest_even.
  pose proof (Zfloor_bound m) as [Hl Hu].
  set (f := Zfloor m) in *.
  destruct (Rlt_dec (m - IZR f) (/ 2)) as [H1 | H1].
  - apply Rabs_le. lra.
  - destruct (Rlt_dec (/ 2) (m - IZR f)) as [H2 | H2].
    + rewrite plus_IZR. apply Rabs_le. lra.
    + destruct (Z.even f); [| rewrite plus_IZR]; apply Rabs_le; lra.
Qed.

Lemma nearest_even_unique (m : R) (k : Z) :
  Rabs (m - IZR k) < / 2 -> Double.nearest_even m = k.
Proof.
  intros H. apply Rabs_def2 in H. destruct H as [Hu Hl].
  unfold Double.nearest_even.
  pose proof (Zfloor_bound m) as [Hfl Hfu].
  set (f := Zfloor m) in *.
  assert (Hf : (f = k \/ f = k - 1)%Z).
  { assert (H1 : (f < k + 1)%Z) by (apply lt_IZR; rewrite plus_IZR; lra).
    assert (H2 : (k - 2 < f)%Z).
    { apply lt_IZR. rewrite minus_IZR. lra. }
    lia. }
  destruct Hf as [-> | ->].
  - destruct (Rlt_dec (m - IZR k) (/ 2)); [reflexivity | lra].
  - rewrite minus_IZR in *.
    destruct (Rlt_dec (m - (IZR k - 1)) (/ 2)); [lra |].
    destruct (Rlt_dec (/ 2) (m - (IZR k - 1))); [lia | lra].
Qed.

Lemma nearest_even_IZR (k : Z) : Double.nearest_even (IZR k) = k.
Proof.
  apply nearest_even_unique. rewrite Rminus_diag, Rabs_R0. lra.
Qed.

Lemma nearest_even_nonneg (m : R) : 0 <= m -> (0 <= Double.nearest_even m)%Z.
Proof.
  intros Hm. unfold Double.nearest_even.
  assert (Hf : (0 <= Zfloor m)%Z) by (apply Zfloor_lub; exact Hm).
  destruct (Rlt_dec _ _); [exact Hf |].
  destruct (Rlt_dec _ _); [lia |].
  destruct (Z.even _); lia.
Qed.

Lemma nearest_error (x : R) :
  Rabs (Double.nearest x - x) <= powerRZ 2 (Double.ulp_exp x) / 2.
Proof.
  unfold Double.nearest.
  set (e := Double.ulp_exp x).
  pose proof (powerRZ_2_pos e) as He.
  pose proof (nearest_even_near (x * powerRZ 2 (- e))) as H.
  set (k := IZR (Double.nearest_even (x * powerRZ 2 (- e)))) in *.
  replace (k * powerRZ 2 e - x)
    with ((k - x * powerRZ 2 (- e)) * powerRZ 2 e).
  - rewrite Rabs_mult, (Rabs_pos_eq (powerRZ 2 e)) by lra. nra.
  - rewrite powerRZ_2_opp. field. lra.
Qed.

Lemma ulp_exp_bound (x : R) :
  x <> 0 -> powerRZ 2 (Double.ulp_exp x) / 2 <= u53 * Rabs x + eta.
Proof.
  intros Hne. unfold Double.ulp_exp, u53, eta.
  pose proof (powerRZ_2_pos (-53)) as H53.
  pose proof (powerRZ_2_pos (-1075)) as H1075.
  pose proof (Rabs_pos x) as Hx.
  destruct (Z.max_spec (Double.mag x - 52) (-1074)) as [[Hlt ->] | [Hge ->]].
  - replace (-1074)%Z with (-1075 + 1)%Z by lia.
    rewrite powerRZ_2_succ. nra.
  - destruct (mag_spec x Hne) as [Hl _].
    replace (Double.mag x - 52)%Z with (Double.mag x + (-53 + 1))%Z by lia.
    rewrite powerRZ_2_plus, powerRZ_2_succ.
    pose proof (powerRZ_2_pos (Double.mag x)). nra.
Qed.

Lemma nearest_0 : Double.nearest 0 = 0.
Proof.
  unfold Double.nearest. rewrite Rmult_0_l.
  change 0 with (IZR 0) at 1. rewrite nearest_even_IZR. apply Rmult_0_l.
Qed.

Lemma nearest_rel_error (x : R) :
  Rabs (Double.nearest x - x) <= u53 * Rabs x + eta.
Proof.
  destruct (Req_dec x 0) as [-> | Hne].
  - rewrite nearest_0, Rminus_diag, Rabs_R0.
    pose proof (powerRZ_2_pos (-1075)). unfold u53, eta. lra.
  - eapply Rle_trans; [apply nearest_error | now apply ulp_exp_bound].
Qed.

(** A rounding is known once the binade and the nearest multiple of
    the last place are. *)
Lemma ulp_exp_eq (x : R) (e : Z) :
  (-1074 <= e)%Z ->
  powerRZ 2 (e + 52) <= Rabs x < powerRZ 2 (e + 53) ->
  Double.ulp_exp x = e.
Proof.
  intros He Hx. unfold Double.ulp_exp.
  rewrite (mag_unique x (e + 52)).
  - lia.
  - now replace (e + 52 + 1)%Z with (e + 53)%Z by lia.
Qed.


Lemma nearest_representable (k e : Z) :
  (Z.abs k < 2 ^ 53)%Z -> (-1074 <= e)%Z ->
  Double.nearest (IZR k * powerRZ 2 e) = IZR k * powerRZ 2 e.
Proof.
  intros Hk He.
  destruct (Z.eq_dec k 0) as [-> | Hne].
  { rewrite Rmult_0_l. apply nearest_0. }
  set (x := IZR k * powerRZ 2 e).
  pose proof (powerRZ_2_pos e) as Hpe.
  assert (Hx : x <> 0).
  { unfold x. apply Rmult_integral_contrapositive_currified; [| lra].
    now apply not_0_IZR. }
  assert (Hu : (Double.ulp_exp x <= e)%Z).
  { unfold Double.ulp_exp.
    destruct (mag_spec x Hx) as [Hl _].
    assert (Hlt : Rabs x < powerRZ 2 (e + 53)).
    { unfold x. rewrite Rabs_mult, (Rabs_pos_eq (powerRZ 2 e)) by lra.
      rewrite powerRZ_2_plus, (powerRZ_2_IZR 53) by lia.
      rewrite <- abs_IZR. apply IZR_lt in Hk. nra. }
    assert (Hm : (Double.mag x < e + 53)%Z).
    { destruct (Z_lt_le_dec (Double.mag x) (e + 53)) as [H | H]; [exact H |].
      pose proof (powerRZ_2_le _ _ H). lra. }
    lia. }
  unfold Double.nearest. fold x.
  set (u := Double.ulp_exp x) in *.
  assert (Hm : x * powerRZ 2 (- u) = IZR (k * 2 ^ (e - u))).
  { unfold x. rewrite mult_IZR, <- powerRZ_2_IZR by lia.
    replace (e - u)%Z with (e + - u)%Z by lia.
    rewrite powerRZ_2_plus. ring. }
  rewrite Hm, nearest_even_IZR, <- Hm.
  rewrite powerRZ_2_opp. field. pose proof (powerRZ_2_pos u). lra.
Qed.

Lemma MAX_VALUE_big : powerRZ 2 1023 <= Double.MAX_VALUE.
Proof.
  unfold Double.MAX_VALUE.
  replace 1023%Z with (52 + 971)%Z by lia.
  rewrite powerRZ_2_plus, (powerRZ_2_IZR 52) by lia.
  pose proof (powerRZ_2_pos 971).
  assert (IZR (2 ^ 52) <= IZR (2 ^ 53 - 1)) by (apply IZR_le; lia).
  nra.
Qed.

Lemma round_finite (x : R) :
  Rabs (Double.nearest x) <= powerRZ 2 1023 ->
  Double.round x = Finite (Double.nearest x).
Proof.
  intros H. pose proof MAX_VALUE_big. unfold Double.round.
  apply Rabs_le_bounds in H.
  destruct (Rlt_dec _ _); [lra |]. destruct (Rlt_dec _ _); [lra | reflexivity].
Qed.




Lemma round_representable (k e : Z) :
  (Z.abs k < 2 ^ 53)%Z -> (-1074 <= e)%Z ->
  Rabs (IZR k * powerRZ 2 e) <= powerRZ 2 1023 ->
  Double.round (IZR k * powerRZ 2 e) = Finite (IZR k * powerRZ 2 e).
Proof.
  intros Hk He Hm. rewrite round_finite; rewrite nearest_representable by lia.
  - reflexivity.
  - exact Hm.
Qed.

Lemma pow2_exact (n : Z) :
  (-1074 <= n <= 1023)%Z -> Double.pow2 n = Finite (powerRZ 2 n).
Proof.
  intros Hn. unfold Double.pow2.
  replace (powerRZ 2 n) with (IZR 1 * powerRZ 2 n) by ring.
  apply round_representable; [lia | lia |].
  rewrite Rmult_1_l, Rabs_pos_eq by (left; apply powerRZ_2_pos).
  apply powerRZ_2_le. lia.
Qed.



Lemma MAX_VALUE_room : powerRZ 2 1023 * (1 + u53) + eta <= Double.MAX_VALUE.
Proof.
  unfold Double.MAX_VALUE, u53, eta.
  replace 1023%Z with (52 + 971)%Z by lia.
  change (-53)%Z with (- (53))%Z. change (-1075)%Z with (- (1075))%Z.
  rewrite powerRZ_2_plus, (powerRZ_2_IZR 52), !powerRZ_2_opp by lia.
  rewrite (powerRZ_2_IZR 53), (powerRZ_2_IZR 1075) by lia.
  pose proof (powerRZ_2_ge_1 971 ltac:(lia)) as H.
  set (p := powerRZ 2 971) in *.
  assert (H1 : IZR (2 ^ 52) * p * (1 + / IZR (2 ^ 53)) = IZR (2 ^ 52) * p + p / 2).
  { field_simplify; [| lra]. lra. }
  rewrite H1.
  assert (H2 : / IZR (2 ^ 1075) <= 1) by lra.
  assert (H3 : IZR (2 ^ 53 - 1) = 2 * IZR (2 ^ 52) - 1).
  { rewrite minus_IZR. lra. }
  rewrite H3. assert (0 < IZR (2 ^ 52)) by lra. nra.
Qed.

Lemma round_finite' (x : R) :
  Rabs x <= powerRZ 2 1023 -> Double.round x = Finite (Double.nearest x).
Proof.
  intros Hx. pose proof MAX_VALUE_room as Hroom.
  pose proof (nearest_rel_error x) as He.
  assert (Ht : Rabs (Double.nearest x) <= Rabs (Double.nearest x - x) + Rabs x).
  { replace (Double.nearest x) with ((Double.nearest x - x) + x) at 1 by ring.
    apply Rabs_triang. }
  assert (Hu : 0 < u53) by apply powerRZ_2_pos.
  assert (Hb : Rabs (Double.nearest x) <= Double.MAX_VALUE) by nra.
  apply Rabs_le_bounds in Hb. unfold Double.round.
  destruct (Rlt_dec _ _); [lra |]. destruct (Rlt_dec _ _); [lra | reflexivity].
Qed.







(** ** Projection *)

Lemma tan_quarter_turn (phi : R) :
  - (PI / 2) < phi < PI / 2 ->
  0 < tan (PI / 4 + phi / 2) /\
  (tan (PI / 4 + phi / 2))² = (1 + sin phi) / (1 - sin phi).
Proof.
  intros Hphi.
  set (theta := PI / 4 + phi / 2).
  assert (Htheta : 0 < theta < PI / 2) by (unfold theta; lra).
  assert (Hs : 0 < sin theta).
  { apply sin_gt_0; lra. }
  assert (Hc : 0 < cos theta).
  { apply cos_gt_0; lra. }
  assert (Hsin : sin phi = (sin theta)² - (cos theta)²).
  { replace phi with (2 * theta - PI / 2) by (unfold theta; lra).
    rewrite sin_minus, sin_PI2, cos_PI2, cos_2a. unfold Rsqr. ring. }
  pose proof (sin2_cos2 theta) as H1.
  split.
  - unfold tan. apply Rdiv_lt_0_compat; assumption.
  - unfold tan. rewrite Hsin. unfold Rsqr in *. field_simplify_eq.
    + nra.
    + split; nra.
Qed.

(** The latitude formula of [unproject] undoes the one of [project]. *)
Lemma mercator_latitude_inverse (phi : R) :
  - (PI / 2) < phi < PI / 2 ->
  2 * atan (exp (ln ((1 + sin phi) / (1 - sin phi)) / 2)) - PI / 2 = phi.
Proof.
  intros Hphi.
  destruct (tan_quarter_turn phi Hphi) as [Hpos Hsq].
  assert (Hexp : exp (ln ((1 + sin phi) / (1 - sin phi)) / 2)
                 = tan (PI / 4 + phi / 2)).
  { rewrite <- Hsq. unfold Rsqr.
    rewrite ln_mult by assumption.
    replace ((ln (tan (PI / 4 + phi / 2)) + ln (tan (PI / 4 + phi / 2))) / 2)
      with (ln (tan (PI / 4 + phi / 2))) by lra.
    now apply exp_ln. }
  rewrite Hexp, atan_tan by lra. lra.
Qed.

Lemma MAX_LATITUDE_clamp (lat : R) :
  Rabs lat <= MAX_LATITUDE ->
  Rmax (Rmin MAX_LATITUDE lat) (- MAX_LATITUDE) = lat.
Proof.
  intros H. apply Rabs_le_bounds in H.
  rewrite Rmin_right by lra. rewrite Rmax_left by lra. reflexivity.
Qed.


Lemma project_equator (lng : R) :
  project (LatLng.mk 0 lng) = Point.mk (earthRadius * lng * (PI / 180)) 0.
Proof.
  unfold project. cbn [LatLng.lat LatLng.lng].
  rewrite MAX_LATITUDE_clamp by (rewrite Rabs_R0; unfold MAX_LATITUDE; lra).
  rewrite Rmult_0_l, sin_0.
  replace ((1 + 0) / (1 - 0)) with 1 by field.
  rewrite ln_1. f_equal. unfold earthRadius. field.
Qed.

Lemma CRS_scale_0 : CRS.scale 0 = 256.
Proof.
  unfold CRS.scale, Math_pow. rewrite Rpower_O by lra. ring.
Qed.










(** ** The remainder on integers *)

Lemma Math_pow_2_IZR (e : Z) :
  (0 <= e)%Z -> Math_pow 2 (IZR e) = IZR (2 ^ e).
Proof.
  intros He. unfold Math_pow.
  rewrite <- (Z2Nat.id e) at 1 by assumption.
  rewrite <- INR_IZR_INZ, Rpower_pow by lra.
  rewrite pow_IZR, Z2Nat.id by assumption. reflexivity.
Qed.

Lemma Zfloor_IZR_div (a b : Z) :
  (0 < b)%Z -> Zfloor (IZR a / IZR b) = (a / b)%Z.
Proof.
  intros Hb. apply Zfloor_eq.
  pose proof (Z.div_mod a b ltac:(lia)) as Hdm.
  pose proof (Z.mod_pos_bound a b Hb) as [Hr0 Hr1].
  apply IZR_lt in Hb. apply IZR_le in Hr0. apply IZR_lt in Hr1.
  apply (f_equal IZR) in Hdm. rewrite plus_IZR, mult_IZR in Hdm.
  assert (Hq : IZR a / IZR b = IZR (a / b) + IZR (a mod b) / IZR b).
  { rewrite Hdm. field. lra. }
  rewrite Hq.
  assert (0 <= IZR (a mod b) / IZR b < 1).
  { split.
    - apply Rmult_le_pos; [lra |]. left. now apply Rinv_0_lt_compat.
    - apply (Rmult_lt_reg_r (IZR b)); [lra |]. field_simplify; lra. }
  lra.
Qed.

Lemma Ztrunc_IZR_div (a b : Z) :
  (0 < b)%Z -> Ztrunc (IZR a / IZR b) = (a ÷ b)%Z.
Proof.
  intros Hb. unfold Ztrunc.
  assert (Hb' : 0 < IZR b) by now apply IZR_lt.
  assert (Hinv : 0 < / IZR b) by now apply Rinv_0_lt_compat.
  destruct (Rle_dec 0 (IZR a / IZR b)) as [Hq | Hq].
  - assert (Ha : (0 <= a)%Z).
    { apply le_IZR. apply (Rmult_le_reg_r (/ IZR b)); [assumption |].
      unfold Rdiv in Hq. lra. }
    rewrite Zfloor_IZR_div by assumption.
    symmetry. apply Z.quot_div_nonneg; assumption.
  - assert (Ha : (a < 0)%Z).
    { apply lt_IZR. apply Rnot_le_lt in Hq. unfold Rdiv in Hq. nra. }
    unfold Zceil.
    replace (- (IZR a / IZR b)) with (IZR (- a) / IZR b)
      by (rewrite opp_IZR; field; lra).
    rewrite Zfloor_IZR_div by assumption.
    rewrite <- (Z.quot_div_nonneg (- a) b) by lia.
    rewrite Z.quot_opp_l by lia. lia.
Qed.

Lemma js_rem_IZR (a b : Z) :
  (0 < b)%Z -> js_rem (IZR a) (IZR b) = IZR (Z.rem a b).
Proof.
  intros Hb. unfold js_rem. rewrite Ztrunc_IZR_div by assumption.
  rewrite <- mult_IZR, <- minus_IZR. f_equal.
  pose proof (Z.quot_rem' a b). lia.
Qed.

Lemma Zrem_wrap (a w : Z) :
  (0 < w)%Z -> Z.rem (Z.rem a w + w) w = (a mod w)%Z.
Proof.
  intros Hw.
  pose proof (Z.rem_bound_abs a w ltac:(lia)) as Habs.
  assert (Hr : (- w < Z.rem a w < w)%Z) by lia.
  rewrite Z.rem_mod_nonneg by lia.
  rewrite Z.add_mod, Z.mod_same, Z.add_0_r, Z.mod_mod by lia.
  pose proof (Z.quot_rem' a w) as Hqr.
  rewrite Hqr at 2.
  rewrite Z.add_comm, Z.mul_comm, Z.mod_add by lia. reflexivity.
Qed.

Lemma wrapX_IZR (x zoom : Z) :
  (0 <= zoom)%Z ->
  TileLayer._wrapX (IZR x) (IZR zoom) = IZR (x mod 2 ^ zoom).
Proof.
  intros Hz. unfold TileLayer._wrapX.
  rewrite Math_pow_2_IZR by assumption.
  assert (Hw : (0 < 2 ^ zoom)%Z) by (apply Z.pow_pos_nonneg; lia).
  rewrite js_rem_IZR, <- plus_IZR, js_rem_IZR by assumption.
  now rewrite Zrem_wrap.
Qed.

Example wrapX_west_of_origin : TileLayer._wrapX (-1) 2 = 3.
Proof.
  change (-1) with (IZR (-1)). change 2 with (IZR 2).
  rewrite wrapX_IZR by lia. reflexivity.
Qed.

(** In double arithmetic. *)
Lemma nearest_nonneg (x : R) : 0 <= x -> 0 <= Double.nearest x.
Proof.
  intros Hx. unfold Double.nearest.
  pose proof (powerRZ_2_pos (Double.ulp_exp x)).
  pose proof (powerRZ_2_pos (- Double.ulp_exp x)).
  apply Rmult_le_pos; [| lra].
  apply IZR_le, nearest_even_nonneg. nra.
Qed.

Lemma rem_finite (x y : R) :
  y <> 0 -> Double.rem (Finite x) (Finite y) = Finite (js_rem x y).
Proof.
  intros Hy. unfold Double.rem. destruct (Req_dec_T y 0); [contradiction | reflexivity].
Qed.

Lemma round_IZR (n : Z) :
  (Z.abs n < 2 ^ 53)%Z -> Double.round (IZR n) = Finite (IZR n).
Proof.
  intros Hn. replace (IZR n) with (IZR n * powerRZ 2 0) by (change (powerRZ 2 0) with 1; ring).
  apply round_representable; [assumption | lia |].
  change (powerRZ 2 0) with 1. rewrite Rmult_1_r, <- abs_IZR.
  pose proof (powerRZ_2_le 53 1023 ltac:(lia)) as H.
  rewrite (powerRZ_2_IZR 53) in H by lia. apply IZR_lt in Hn. lra.
Qed.

(** Up to zoom 52 every intermediate value is an integer below 2^53 and
    nothing rounds: the result is x mod 2^zoom. *)
Lemma wrapX_exact (x zoom : Z) :
  (0 <= zoom <= 52)%Z ->
  Double._wrapX (Finite (IZR x)) zoom = Finite (IZR (x mod 2 ^ zoom)).
Proof.
  intros Hz. unfold Double._wrapX. rewrite pow2_exact by lia.
  rewrite powerRZ_2_IZR by lia.
  assert (Hw : (0 < 2 ^ zoom)%Z) by (apply Z.pow_pos_nonneg; lia).
  assert (Hw52 : (2 ^ zoom <= 2 ^ 52)%Z) by (apply Z.pow_le_mono_r; lia).
  assert (Hw0 : IZR (2 ^ zoom) <> 0) by (apply not_0_IZR; lia).
  rewrite rem_finite by assumption. rewrite js_rem_IZR by assumption.
  cbn [Double.add]. rewrite <- plus_IZR.
  pose proof (Z.rem_bound_abs x (2 ^ zoom) ltac:(lia)) as Habs.
  rewrite round_IZR by lia.
  rewrite rem_finite by assumption. rewrite js_rem_IZR by assumption.
  now rewrite Zrem_wrap.
Qed.

(** Up to zoom 1022 the sum is rounded but stays finite, and a rounded
    sum that is not negative leaves a remainder in the world. *)
Lemma wrapX_range_double (v : R) (zoom : Z) :
  (0 <= zoom <= 1022)%Z ->
  exists r,
    Double._wrapX (Finite v) zoom = Finite r /\ 0 <= r < powerRZ 2 zoom.
Proof.
  intros Hz. unfold Double._wrapX. rewrite pow2_exact by lia.
  pose proof (powerRZ_2_pos zoom) as Hw.
  rewrite rem_finite by lra. cbn [Double.add].
  pose proof (js_rem_bound v (powerRZ 2 zoom) Hw) as Hr.
  set (s := js_rem v (powerRZ 2 zoom) + powerRZ 2 zoom).
  assert (Hs : 0 <= s < 2 * powerRZ 2 zoom) by (unfold s; lra).
  pose proof (powerRZ_2_le (zoom + 1) 1023 ltac:(lia)) as Hmax.
  rewrite powerRZ_2_succ in Hmax.
  assert (Hfin : Double.round s = Finite (Double.nearest s)).
  { apply round_finite'. rewrite Rabs_pos_eq; lra. }
  rewrite Hfin. rewrite rem_finite by lra.
  eexists. split; [reflexivity |].
  apply js_rem_nonneg; [assumption | apply nearest_nonneg; lra].
Qed.

(** Up to zoom 52 the exact model and double arithmetic agree on the
    integers. *)
Lemma wrapX_agrees (x zoom : Z) :
  (0 <= zoom <= 52)%Z ->
  Double._wrapX (Finite (IZR x)) zoom
  = Finite (TileLayer._wrapX (IZR x) (IZR zoom)).
Proof.
  intros Hz. rewrite wrapX_exact, wrapX_IZR by lia. reflexivity.
Qed.

(** From zoom 1024 on the world width overflows to Infinity, and the
    remainder of Infinity is NaN. *)
Lemma pow2_overflow (n : Z) :
  (1024 <= n)%Z -> Double.pow2 n = PosInfinity.
Proof.
  intros Hn. unfold Double.pow2, Double.round.
  replace (powerRZ 2 n) with (IZR 1 * powerRZ 2 n) by ring.
  rewrite nearest_representable by lia. rewrite Rmult_1_l.
  assert (Hlt : Double.MAX_VALUE < powerRZ 2 n).
  { unfold Double.MAX_VALUE.
    pose proof (powerRZ_2_le 1024 n Hn) as Hle.
    replace 1024%Z with (53 + 971)%Z in Hle by lia.
    rewrite powerRZ_2_plus, (powerRZ_2_IZR 53) in Hle by lia.
    pose proof (powerRZ_2_pos 971).
    assert (IZR (2 ^ 53 - 1) < IZR (2 ^ 53)) by (apply IZR_lt; lia).
    nra. }
  destruct (Rlt_dec _ _); [reflexivity | contradiction].
Qed.

Lemma wrapX_overflow (v : R) (zoom : Z) :
  (1024 <= zoom)%Z -> Double._wrapX (Finite v) zoom = NaN.
Proof.
  intros Hz. unfold Double._wrapX. now rewrite pow2_overflow.
Qed.

(** At zoom 1023 the sum can overflow: for the largest double below
    2^1023 it is half way between the largest double and 2^1024, the
    tie goes to the even side, which is 2^1024, and that is Infinity. *)
Lemma nearest_even_tie (f : Z) :
  Double.nearest_even (IZR f + / 2) = if Z.even f then f else (f + 1)%Z.
Proof.
  unfold Double.nearest_even.
  rewrite (Zfloor_eq f) by lra.
  destruct (Rlt_dec _ _); [lra |]. destruct (Rlt_dec _ _); [lra | reflexivity].
Qed.

Lemma wrapX_zoom_1023 :
  Double._wrapX (Finite (IZR (2 ^ 1023 - 2 ^ 970))) 1023 = NaN.
Proof.
  unfold Double._wrapX. rewrite pow2_exact by lia.
  rewrite (powerRZ_2_IZR 1023) by lia.
  assert (Hw0 : IZR (2 ^ 1023) <> 0) by (apply not_0_IZR; lia).
  rewrite rem_finite by assumption. rewrite js_rem_IZR by lia.
  rewrite Z.rem_small
    by (split; [apply Z.leb_le | apply Z.ltb_lt]; vm_compute; reflexivity).
  cbn [Double.add]. rewrite <- plus_IZR.
  set (v := (2 ^ 1023 - 2 ^ 970 + 2 ^ 1023)%Z).
  assert (Hp : powerRZ 2 971 = IZR (2 ^ 971)) by (apply powerRZ_2_IZR; lia).
  assert (Hpos : 0 < IZR (2 ^ 971)) by (apply IZR_lt; lia).
  assert (Hv : IZR v = (IZR (2 ^ 53 - 1) + / 2) * IZR (2 ^ 971)).
  { replace ((IZR (2 ^ 53 - 1) + / 2) * IZR (2 ^ 971))
      with (IZR ((2 ^ 53 - 1) * 2 ^ 971 + 2 ^ 970)).
    - f_equal; vm_compute; reflexivity.
    - rewrite plus_IZR, mult_IZR.
      replace (IZR (2 ^ 971)) with (2 * IZR (2 ^ 970))
        by (rewrite <- mult_IZR; f_equal).
      field. }
  assert (Hu : Double.ulp_exp (IZR v) = 971%Z).
  { apply ulp_exp_eq; [lia |].
    rewrite Rabs_pos_eq
      by (apply IZR_le, Z.leb_le; vm_compute; reflexivity).
    rewrite !powerRZ_2_IZR by lia.
    split; [apply IZR_le, Z.leb_le | apply IZR_lt, Z.ltb_lt];
      vm_compute; reflexivity. }
  assert (Hn : Double.nearest (IZR v) = IZR (2 ^ 53) * IZR (2 ^ 971)).
  { unfold Double.nearest. rewrite Hu, powerRZ_2_opp, Hp.
    replace (IZR v * / IZR (2 ^ 971)) with (IZR (2 ^ 53 - 1) + / 2)
      by (rewrite Hv; field; lra).
    rewrite nearest_even_tie. reflexivity. }
  assert (Hinf : Double.round (IZR v) = PosInfinity).
  { unfold Double.round. rewrite Hn. unfold Double.MAX_VALUE. rewrite Hp.
    assert (IZR (2 ^ 53 - 1) < IZR (2 ^ 53)) by (apply IZR_lt; lia).
    destruct (Rlt_dec _ _) as [_ | Hn']; [reflexivity |]. exfalso. nra. }
  rewrite Hinf. reflexivity.
Qed.

(** C6, as the code has it. For every integer x, negative ones
    included, and every integer zoom >= 0, wrapX(x, zoom) is
    ((x % 2^zoom) + 2^zoom) % 2^zoom in double arithmetic, where 2^zoom
    is exact up to zoom 1023; up to zoom 1022 the result is a number of
    the interval [0, 2^zoom); up to zoom 52, where nothing rounds, it is
    x mod 2^zoom; and from zoom 1024 on it is NaN. *)
Theorem wrapX_in_world (x zoom : Z) :
  (0 <= zoom)%Z ->
  ((zoom <= 1023)%Z ->
   let w := Finite (IZR (2 ^ zoom)) in
   Double._wrapX (Finite (IZR x)) zoom
   = Double.rem (Double.add (Double.rem (Finite (IZR x)) w) w) w) /\
  ((zoom <= 1022)%Z ->
   exists r,
     Double._wrapX (Finite (IZR x)) zoom = Finite r /\
     0 <= r < IZR (2 ^ zoom)) /\
  ((zoom <= 52)%Z ->
   Double._wrapX (Finite (IZR x)) zoom = Finite (IZR (x mod 2 ^ zoom)) /\
   (0 <= x mod 2 ^ zoom < 2 ^ zoom)%Z) /\
  ((1024 <= zoom)%Z -> Double._wrapX (Finite (IZR x)) zoom = NaN).
Proof.
  intros Hz. split; [| split; [| split]].
  - intros Hle w. unfold Double._wrapX, w.
    rewrite pow2_exact, powerRZ_2_IZR by lia. reflexivity.
  - intros Hle. rewrite <- powerRZ_2_IZR by assumption.
    apply wrapX_range_double. lia.
  - intros Hle. split; [apply wrapX_exact; lia |].
    apply Z.mod_pos_bound. apply Z.pow_pos_nonneg; lia.
  - apply wrapX_overflow.
Qed.

Lemma wrapX_in_world_witness :
  Double._wrapX (Finite (IZR (-1))) 2 = Finite (IZR ((-1) mod 2 ^ 2)) /\
  (0 <= (-1) mod 2 ^ 2 < 2 ^ 2)%Z.
Proof.
  apply (wrapX_in_world (-1) 2); lia.
Defined.

(** C6 as the specification has it fails in double arithmetic: at zoom
    1024 the world width is Infinity and wrapX(-1, 1024) is NaN, which
    is in no interval. *)
Lemma wrapX_not_a_number :
  (0 <= 1024)%Z /\
  Double._wrapX (Finite (IZR (-1))) 1024 = NaN /\
  ~ exists r,
      Double._wrapX (Finite (IZR (-1))) 1024 = Finite r /\
      0 <= r < IZR (2 ^ 1024).
Proof.
  assert (H : Double._wrapX (Finite (IZR (-1))) 1024 = NaN)
    by (apply wrapX_overflow; lia).
  split; [lia |]. split; [exact H |].
  intros (r & Hr & _). rewrite H in Hr. discriminate.
Qed.


(** ** The LatLng constructor *)

(** C4, as the code has it. Constructing a LatLng from two numbers
    throws exactly when at least one of them is NaN; otherwise, and so
    for two finite numbers, it succeeds and stores both unchanged. *)
Theorem LatLng_new_throws_iff_NaN (lat lng : number) :
  (LatLng.new lat lng = Throw (Error "Invalid LatLng") <->
   isNaN lat = true \/ isNaN lng = true) /\
  (LatLng.new lat lng = Return (LatLng.mkFields lat lng) <->
   isNaN lat = false /\ isNaN lng = false) /\
  (isFinite lat = true /\ isFinite lng = true ->
   LatLng.new lat lng = Return (LatLng.mkFields lat lng)).
Proof.
  unfold LatLng.new.
  destruct lat, lng; simpl; repeat split;
    try solve [ intros; reflexivity
              | intros; discriminate
              | intros [H | H]; discriminate
              | intros [H1 H2]; discriminate
              | intros; auto ].
Qed.

Lemma LatLng_new_throws_iff_NaN_witness :
  LatLng.new (Finite 51.505) (Finite (-0.09))
  = Return (LatLng.mkFields (Finite 51.505) (Finite (-0.09))).
Proof.
  apply (LatLng_new_throws_iff_NaN (Finite 51.505) (Finite (-0.09))).
  split; reflexivity.
Defined.

(** An infinite component is not a finite number, and the constructor
    accepts it: failure is not equivalent to non-finiteness. *)
Lemma LatLng_new_accepts_infinity :
  ~ (throws (LatLng.new PosInfinity (Finite 0)) = true <->
     isFinite PosInfinity = false \/ isFinite (Finite 0) = false).
Proof.
  simpl. intros [_ H]. specialize (H (or_introl eq_refl)). discriminate.
Qed.

(** A LatLng made of two finite numbers is an instance of the finite
    model used by the geometry. *)
Lemma LatLng_new_finite (a b : R) :
  exists f, LatLng.new (Finite a) (Finite b) = Return f /\
            LatLng.finite f = Some (LatLng.mk a b).
Proof.
  eexists. split; reflexivity.
Qed.

(** ** Objects *)

Section ObjFacts.
Context {K V : Type}.
Variable eqb : K -> K -> bool.
Hypothesis eqb_eq : forall a b, eqb a b = true <-> a = b.

Lemma eqb_refl (a : K) : eqb a a = true.
Proof. now apply eqb_eq. Qed.

Lemma eqb_neq (a b : K) : a <> b -> eqb a b = false.
Proof.
  intros H. destruct (eqb a b) eqn:E; [| reflexivity].
  apply eqb_eq in E. contradiction.
Qed.

Lemma obj_get_set_eq (o : Obj K V) (k : K) (v : V) :
  obj_get eqb (obj_set eqb o k v) k = Some v.
Proof.
  induction o as [| [k' v'] o IH]; simpl.
  - now rewrite eqb_refl.
  - destruct (eqb k k') eqn:E; simpl; rewrite E; [reflexivity | exact IH].
Qed.

Lemma obj_get_set_ne (o : Obj K V) (k k' : K) (v : V) :
  k' <> k -> obj_get eqb (obj_set eqb o k v) k' = obj_get eqb o k'.
Proof.
  intros Hne. induction o as [| [k0 v0] o IH]; simpl.
  - now rewrite eqb_neq.
  - destruct (eqb k k0) eqn:E; simpl.
    + apply eqb_eq in E. subst k0. now rewrite eqb_neq.
    + now rewrite IH.
Qed.

Lemma obj_get_delete_eq (o : Obj K V) (k : K) :
  obj_get eqb (obj_delete eqb o k) k = None.
Proof.
  induction o as [| [k0 v0] o IH]; simpl; [reflexivity |].
  destruct (eqb k k0) eqn:E; simpl; [exact IH | now rewrite E].
Qed.

Lemma obj_get_delete_ne (o : Obj K V) (k k' : K) :
  k' <> k -> obj_get eqb (obj_delete eqb o k) k' = obj_get eqb o k'.
Proof.
  intros Hne. induction o as [| [k0 v0] o IH]; simpl; [reflexivity |].
  destruct (eqb k k0) eqn:E; simpl.
  - apply eqb_eq in E. subst k0. now rewrite eqb_neq.
  - now rewrite IH.
Qed.

Lemma obj_get_In_keys (o : Obj K V) (k : K) :
  obj_get eqb o k <> None -> In k (obj_keys o).
Proof.
  induction o as [| [k0 v0] o IH]; simpl; [congruence |].
  destruct (eqb k k0) eqn:E.
  - apply eqb_eq in E. auto.
  - auto.
Qed.

Lemma obj_has_In_keys (o : Obj K V) (k : K) :
  obj_has eqb o k = true <-> In k (obj_keys o).
Proof.
  unfold obj_has. split.
  - intros H. apply obj_get_In_keys. destruct (obj_get eqb o k); congruence.
  - induction o as [| [k0 v0] o IH]; simpl; [tauto |].
    intros [-> | Hin].
    + now rewrite eqb_refl.
    + destruct (eqb k k0); [reflexivity | auto].
Qed.


End ObjFacts.

(** ** The event system *)

Lemma string_eqb_eq (a b : string) : String.eqb a b = true <-> a = b.
Proof. apply String.eqb_eq. Qed.

(** [off] with a type given as a non-empty string never gets past
    [.flat()], whatever is registered. *)
Lemma off_string_throws (ev : Evented.Events) (c : ascii) (s : string)
  (fn : option Evented.Fn) :
  exists msg, Evented.off (Some ev) (Evented.TypesString (String c s)) fn
              = Throw (TypeError msg).
Proof.
  eexists. reflexivity.
Qed.

(** Before the first [on] there is nothing to remove and [off] returns. *)
Lemma off_without_events (types : Evented.Types) (fn : option Evented.Fn) :
  Evented.off None types fn = Return None.
Proof. reflexivity. Qed.

(** C8, at the failing input. After on('moveend', f), the calls
    off('moveend', f) and off('moveend') throw a TypeError instead of
    removing the listener, which stays registered; a caller that catches
    the error still finds it there. The same holds for
    on('moveend zoomend', f) and then off('zoomend'). *)
Theorem off_with_string_type_throws :
  let f : Evented.Fn := 1%nat in
  let bus := Evented.on None "moveend" f None in
  Evented.listeners bus "moveend" = [Evented.mkListener f None] /\
  Evented.off bus (Evented.TypesString "moveend") (Some f)
  = Throw (TypeError "(types || Object.keys(...)).flat is not a function") /\
  Evented.off bus (Evented.TypesString "moveend") None
  = Throw (TypeError "(types || Object.keys(...)).flat is not a function") /\
  Evented.off (Evented.on None "moveend zoomend" f None)
              (Evented.TypesString "zoomend") None
  = Throw (TypeError "(types || Object.keys(...)).flat is not a function").
Proof.
  repeat split.
Qed.

Lemma unregister_fn_get (ev : Evented.Events) (type type' : string)
  (f : Evented.Fn) :
  Evented.inherited type = false ->
  exists ev',
    Evented.unregister (Some f) ev type = Return ev' /\
    obj_get String.eqb ev' type'
    = if String.eqb type' type
      then Some (filter (fun l => negb (Nat.eqb (Evented.fn l) f))
                        (Evented.fire (Some ev) type))
      else obj_get String.eqb ev type'.
Proof.
  intros Hown. unfold Evented.unregister, Evented.fire. rewrite Hown.
  destruct (obj_get String.eqb ev type) as [l |]; eexists;
    (split; [reflexivity |]);
    destruct (String.eqb type' type) eqn:E.
  - apply String.eqb_eq in E. subst type'.
    now rewrite (obj_get_set_eq String.eqb string_eqb_eq).
  - apply String.eqb_neq in E.
    now rewrite (obj_get_set_ne String.eqb string_eqb_eq).
  - apply String.eqb_eq in E. subst type'.
    now rewrite (obj_get_set_eq String.eqb string_eqb_eq).
  - apply String.eqb_neq in E.
    now rewrite (obj_get_set_ne String.eqb string_eqb_eq).
Qed.

Lemma unregister_all_get (ev : Evented.Events) (type type' : string) :
  obj_get String.eqb (obj_delete String.eqb ev type) type'
  = if String.eqb type' type then None else obj_get String.eqb ev type'.
Proof.
  destruct (String.eqb type' type) eqn:E.
  - apply String.eqb_eq in E. subst type'.
    apply (obj_get_delete_eq String.eqb).
  - apply String.eqb_neq in E.
    now apply (obj_get_delete_ne String.eqb string_eqb_eq).
Qed.

(** Under a name that a plain object inherits, and with nothing
    registered under it, [off] with a function finds the inherited value
    and throws. *)
Lemma unregister_inherited (ev : Evented.Events) (type : string)
  (f : Evented.Fn) :
  Evented.inherited type = true ->
  obj_get String.eqb ev type = None ->
  Evented.unregister (Some f) ev type
  = Throw (TypeError "this._events[type]?.filter is not a function").
Proof.
  intros Hin Hget. unfold Evented.unregister. now rewrite Hget, Hin.
Qed.

(** What the loop of [off] does once it runs, that is for a type given
    in an array.  For a type that is not the name of an inherited
    property: with a function, exactly the listeners of that type with
    that function go, in place; without one, all listeners of that type
    go; the other types keep their listeners.  For the name of an
    inherited property under which nothing is registered, the call with
    a function throws a TypeError. *)
Lemma off_array_spec (ev : Evented.Events) (type : string)
  (fn : option Evented.Fn) :
  (Evented.inherited type = false ->
   exists bus,
     Evented.off (Some ev) (Evented.TypesArray [type]) fn = Return bus /\
     Evented.listeners bus type
     = match fn with
       | Some f => filter (fun l => negb (Nat.eqb (Evented.fn l) f))
                          (Evented.listeners (Some ev) type)
       | None => []
       end /\
     forall type', type' <> type ->
       Evented.listeners bus type' = Evented.listeners (Some ev) type') /\
  (Evented.inherited type = true ->
   obj_has String.eqb ev type = false ->
   forall f,
     exists msg,
       Evented.off (Some ev) (Evented.TypesArray [type]) (Some f)
       = Throw (TypeError msg)).
Proof.
  split.
  - intros Hown. unfold Evented.off, Evented.listeners.
    cbn [Evented.off_types bind Evented.unregister_each].
    destruct fn as [f |].
    + destruct (unregister_fn_get ev type type f Hown) as (ev' & Hev' & Hget).
      rewrite Hev'. cbn [bind]. eexists. split; [reflexivity |].
      cbn [Evented.fire]. split.
      * rewrite Hget, String.eqb_refl. reflexivity.
      * intros type' Hne.
        destruct (unregister_fn_get ev type type' f Hown)
          as (ev'' & Hev'' & Hget').
        rewrite Hev' in Hev''. injection Hev'' as <-.
        rewrite Hget'. apply String.eqb_neq in Hne. now rewrite Hne.
    + cbn [Evented.unregister bind]. eexists. split; [reflexivity |].
      cbn [Evented.fire]. split.
      * rewrite unregister_all_get, String.eqb_refl. reflexivity.
      * intros type' Hne. rewrite unregister_all_get.
        apply String.eqb_neq in Hne. now rewrite Hne.
  - intros Hin Hnone f. unfold Evented.off.
    cbn [Evented.off_types bind Evented.unregister_each].
    unfold obj_has in Hnone.
    destruct (obj_get String.eqb ev type) as [l |] eqn:E; [discriminate |].
    rewrite (unregister_inherited ev type f Hin E). cbn [bind].
    eexists. reflexivity.
Qed.

Lemma off_array_spec_witness :
  exists bus,
    Evented.off (Some [("moveend"%string, [Evented.mkListener 1%nat None])])
                (Evented.TypesArray ["moveend"%string]) (Some 1%nat)
    = Return bus /\
    Evented.listeners bus "moveend" = [].
Proof.
  destruct (proj1 (off_array_spec
                     [("moveend"%string, [Evented.mkListener 1%nat None])]
                     "moveend" (Some 1%nat)) eq_refl)
    as (bus & Hbus & Hl & _).
  exists bus. split; [exact Hbus | exact Hl].
Defined.

Lemma unregister_each_all (ts : list string) (ev : Evented.Events) :
  Evented.unregister_each None ts ev
  = Return (fold_left (obj_delete String.eqb) ts ev).
Proof.
  revert ev. induction ts as [| t ts IH]; intros ev; [reflexivity |].
  cbn [Evented.unregister_each Evented.unregister bind fold_left]. apply IH.
Qed.

Lemma unregister_all_fold_absent (ts : list string) (ev : Evented.Events)
  (type : string) :
  obj_get String.eqb ev type = None ->
  obj_get String.eqb (fold_left (obj_delete String.eqb) ts ev) type = None.
Proof.
  revert ev. induction ts as [| t ts IH]; intros ev H; [exact H |].
  cbn [fold_left]. apply IH. rewrite unregister_all_get.
  now destruct (String.eqb type t).
Qed.

Lemma unregister_all_fold (ts : list string) (ev : Evented.Events)
  (type : string) :
  In type ts ->
  obj_get String.eqb (fold_left (obj_delete String.eqb) ts ev) type = None.
Proof.
  revert ev. induction ts as [| t ts IH]; intros ev Hin; [destruct Hin |].
  cbn [fold_left]. destruct (string_dec t type) as [-> | Hne].
  - apply unregister_all_fold_absent.
    now rewrite unregister_all_get, String.eqb_refl.
  - destruct Hin as [Heq | Hin]; [contradiction | now apply IH].
Qed.

(** [off()] without arguments leaves no listener of any type. *)
Lemma off_no_arguments_spec (this : Evented.t) :
  exists bus,
    Evented.off this Evented.TypesUndefined None = Return bus /\
    forall type, Evented.listeners bus type = [].
Proof.
  destruct this as [ev |].
  - unfold Evented.off. cbn [Evented.off_types bind].
    rewrite unregister_each_all. cbn [bind].
    eexists. split; [reflexivity |]. intros type.
    unfold Evented.listeners, Evented.fire.
    destruct (obj_get String.eqb ev type) eqn:E.
    + rewrite unregister_all_fold; [reflexivity |].
      apply (obj_get_In_keys String.eqb string_eqb_eq). congruence.
    + now rewrite unregister_all_fold_absent.
  - exists None. split; reflexivity.
Qed.

(** A tile layer is taken off a map through [off] with the type as a
    string: once the map has listeners, [onRemove] throws and the layer
    stays as it is. *)
Lemma onRemove_throws (fn : Evented.Fn) (map : Map.t) (layer : TileLayer.t)
  (ev : Evented.Events) :
  Map._events map = Some ev ->
  exists msg, TileLayer.onRemove fn map layer = Throw (TypeError msg).
Proof.
  intros Hev. unfold TileLayer.onRemove, Map.off. rewrite Hev.
  destruct (TileLayer._map layer); eexists; reflexivity.
Qed.

(** ** The view state *)

Lemma setView_spec (m : Map.t) (latlng : Map.Center) (zoom : R) :
  let m' := Map.setView m latlng zoom in
  let center := match latlng with
                | Map.Instance l => l
                | Map.Array lat lng => LatLng.mk lat lng
                end in
  Map._center m' = center /\
  Map._zoom m' = zoom /\
  Map._pixelOrigin m'
  = Point.subtract (Map.project m' center (Some zoom))
                   (Point.divideBy (Map.getSize m') 2) /\
  Map.clientSize m' = Map.clientSize m /\
  Map._mapPane m' = Some (Point.mk 0 0) /\
  Map.effects m'
  = Map.effects m
    ++ [LayersUpdated; Fired "moveend" (Evented.fire (Map._events m) "moveend")].
Proof.
  unfold Map.setView, Map._resetView, Map._updateLayers, Map.fire.
  cbn [Map._center Map._zoom Map._pixelOrigin Map.clientSize Map._mapPane
       Map.effects Map._events DomUtil.setPosition].
  repeat split. now rewrite <- app_assoc.
Qed.

Lemma setView_derived (m : Map.t) (latlng : Map.Center) (zoom : R) :
  derived (Map.setView m latlng zoom).
Proof.
  destruct (setView_spec m latlng zoom) as (Hc & Hz & Ho & _).
  unfold derived. now rewrite Hc, Hz.
Qed.

Lemma fire_fields (m : Map.t) (type : string) :
  let m' := Map.fire m type in
  Map._center m' = Map._center m /\ Map._zoom m' = Map._zoom m /\
  Map._pixelOrigin m' = Map._pixelOrigin m /\
  Map.clientSize m' = Map.clientSize m /\
  Map._mapPane m' = Map._mapPane m /\
  Map._panAnim m' = Map._panAnim m /\
  Map.host m' = Map.host m /\
  Map._events m' = Map._events m.
Proof.
  repeat split.
Qed.

Lemma panBy_fields (m : Map.t) (offset : R * R) (options : Map.PanOptions)
  (t0 t1 : R) :
  let m' := Map.panBy m offset options t0 t1 in
  Map._center m' = Map._center m /\ Map._zoom m' = Map._zoom m /\
  Map._pixelOrigin m' = Map._pixelOrigin m /\
  Map.clientSize m' = Map.clientSize m.
Proof.
  unfold Map.panBy.
  destruct (Map.animate options) as [[|] |]; repeat split.
Qed.

Lemma animationFrame_fields (m : Map.t) (now : R) :
  let m' := Map.animationFrame m now in
  Map._center m' = Map._center m /\ Map._zoom m' = Map._zoom m /\
  Map._pixelOrigin m' = Map._pixelOrigin m /\
  Map.clientSize m' = Map.clientSize m.
Proof.
  unfold Map.animationFrame.
  destruct (Map._panAnim m); repeat split.
Qed.

Lemma derived_fields (m m' : Map.t) :
  Map._center m' = Map._center m -> Map._zoom m' = Map._zoom m ->
  Map._pixelOrigin m' = Map._pixelOrigin m ->
  Map.clientSize m' = Map.clientSize m ->
  derived m -> derived m'.
Proof.
  unfold derived, Map.project, Map.getSize.
  intros -> -> -> ->. auto.
Qed.

Lemma step_derived (m : Map.t) (op : Map.Op) :
  derived m ->
  derived (Map.step m op) /\ Map.clientSize (Map.step m op) = Map.clientSize m.
Proof.
  intros Hm. destruct op as [l z | z | d | d | o p t0 t1 | l p t0 t1 | now];
    cbn [Map.step]; unfold Map.zoomIn, Map.zoomOut, Map.setZoom, Map.panTo.
  1-4: split; [apply setView_derived | apply setView_spec].
  1-2: match goal with
       | |- context [Map.panBy ?m ?o ?p ?a ?b] =>
           destruct (panBy_fields m o p a b) as (H1 & H2 & H3 & H4)
       end; split; [now apply (derived_fields m) | exact H4].
  destruct (animationFrame_fields m now) as (H1 & H2 & H3 & H4).
  split; [now apply (derived_fields m) | exact H4].
Qed.

Lemma run_derived (ops : list Map.Op) (m : Map.t) :
  derived m ->
  derived (Map.run m ops) /\ Map.clientSize (Map.run m ops) = Map.clientSize m.
Proof.
  revert m. induction ops as [| op ops IH]; intros m Hm; [now split |].
  unfold Map.run. cbn [fold_left].
  destruct (step_derived m op Hm) as [Hd Hs].
  destruct (IH _ Hd) as [Hd' Hs']. unfold Map.run in Hd', Hs'.
  split; [exact Hd' | now rewrite Hs'].
Qed.

(** C1. For a map constructed in a container of any size, after any
    sequence of setView, setZoom, zoomIn, zoomOut, panBy and panTo calls
    and animation frames, the viewport size is the one of the container
    and pixelOrigin = project(center, zoom) - viewportSize/2; and every
    setView sets the centre and the zoom, computes pixelOrigin from them,
    puts the pan pane back at (0,0), has the layers updated and fires
    moveend. *)
Theorem pixelOrigin_always_derived :
  (forall (size : Point.t) (options : Map.Options) (ops : list Map.Op),
      let m := Map.run (Map.new size options) ops in
      Map.clientSize m = size /\
      Map._pixelOrigin m
      = Point.subtract (Map.project m (Map._center m) (Some (Map._zoom m)))
                       (Point.divideBy (Map.getSize m) 2)) /\
  (forall (m : Map.t) (latlng : Map.Center) (zoom : R),
      let m' := Map.setView m latlng zoom in
      let center := match latlng with
                    | Map.Instance l => l
                    | Map.Array lat lng => LatLng.mk lat lng
                    end in
      Map._center m' = center /\
      Map._zoom m' = zoom /\
      Map._pixelOrigin m'
      = Point.subtract (Map.project m' center (Some zoom))
                       (Point.divideBy (Map.getSize m') 2) /\
      Map._getMapPanePos m' = Point.mk 0 0 /\
      Map.effects m'
      = Map.effects m
        ++ [LayersUpdated;
            Fired "moveend" (Evented.fire (Map._events m) "moveend")]).
Proof.
  split.
  - intros size options ops m.
    assert (Hnew : derived (Map.new size options)) by apply setView_derived.
    destruct (run_derived ops _ Hnew) as [Hd Hs].
    split; [| exact Hd].
    unfold m. rewrite Hs. unfold Map.new. apply setView_spec.
  - intros m latlng zoom m' center.
    destruct (setView_spec m latlng zoom) as (Hc & Hz & Ho & _ & Hp & He).
    unfold Map._getMapPanePos. fold m' in Hp. rewrite Hp.
    repeat split; assumption.
Qed.

Lemma round_back_to_half (p half : R) (z : Z) :
  half = IZR z -> Math_round (p - (p - half)) = IZR z.
Proof.
  intros ->. replace (p - (p - IZR z)) with (IZR z) by ring.
  apply Math_round_IZR.
Qed.

(** [Math.round] gives the integer that is at most one half below and
    less than one half above its argument. *)
Lemma Math_round_spec (v : R) :
  exists i : Z, Math_round v = IZR i /\ IZR i - / 2 <= v < IZR i + / 2.
Proof.
  exists (Zfloor (v + / 2)). split; [reflexivity |].
  pose proof (Zfloor_bound (v + / 2)). lra.
Qed.

(** C2. For every LatLng, latLngToContainerPoint gives
    round(project(latlng, zoom) - pixelOrigin) at the zoom of the map:
    a point with integer coordinates, each at most half a pixel below
    and less than half a pixel above the exact difference.  On a
    600x400 viewport, after setView of the LatLng (51.505, -0.09) at
    zoom 12, given as an instance or as an array, that LatLng is at the
    container point (300, 200); and after setView of (0, 0) at zoom 0
    the LatLng (0, 9/128), which lies pi/10 pixels east of the centre,
    is at (300, 200) as well. *)
Theorem latLngToContainerPoint_rounds :
  (forall (m : Map.t) (latlng : LatLng.t),
      let p := Point.subtract (Map.project m latlng (Some (Map._zoom m)))
                              (Map._pixelOrigin m) in
      Map.latLngToContainerPoint m latlng = Point.round p /\
      exists i j : Z,
        Map.latLngToContainerPoint m latlng = Point.mk (IZR i) (IZR j) /\
        IZR i - / 2 <= Point.x p < IZR i + / 2 /\
        IZR j - / 2 <= Point.y p < IZR j + / 2) /\
  (forall m : Map.t,
      Map.clientSize m = Point.mk 600 400 ->
      let london := LatLng.mk 51.505 (-0.09) in
      Map.latLngToContainerPoint (Map.setView m (Map.Instance london) 12) london
      = Point.mk 300 200 /\
      Map.latLngToContainerPoint (Map.setView m (Map.Array 51.505 (-0.09)) 12)
                                 london
      = Point.mk 300 200 /\
      Map.latLngToContainerPoint (Map.setView m (Map.Array 0 0) 0)
                                 (LatLng.mk 0 (9 / 128))
      = Point.mk 300 200).
Proof.
  split.
  - intros m latlng p. split; [reflexivity |].
    destruct (Math_round_spec (Point.x p)) as (i & Hi & Hib).
    destruct (Math_round_spec (Point.y p)) as (j & Hj & Hjb).
    exists i, j. split; [| split; assumption].
    change (Point.round p = Point.mk (IZR i) (IZR j)).
    unfold Point.round. now rewrite Hi, Hj.
  - intros m Hsize london.
    assert (H : forall c : Map.Center,
               match c with
               | Map.Instance l => l
               | Map.Array lat lng => LatLng.mk lat lng
               end = london ->
               Map.latLngToContainerPoint (Map.setView m c 12) london
               = Point.mk 300 200).
    { intros c Hc.
      destruct (setView_spec m c 12) as (_ & Hz & Ho & Hs & _).
      unfold Map.latLngToContainerPoint. rewrite Ho, Hc.
      unfold Map.project, Map.getSize. rewrite Hz, Hs, Hsize.
      unfold Point.round, Point.subtract, Point.divideBy.
      cbn [Point.x Point.y].
      f_equal; [apply (round_back_to_half _ _ 300)
               | apply (round_back_to_half _ _ 200)]; lra. }
    split; [apply H; reflexivity |]. split; [apply H; reflexivity |].
    destruct (setView_spec m (Map.Array 0 0) 0) as (_ & Hz & Ho & Hs & _).
    unfold Map.latLngToContainerPoint. rewrite Ho.
    unfold Map.project, Map.getSize. rewrite Hz, Hs, Hsize.
    rewrite !project_equator, CRS_scale_0.
    unfold Point.round, Point.subtract, Point.divideBy, Point.multiplyBy.
    cbn [Point.x Point.y].
    pose proof PI2_3_2 as Hlo. pose proof PI_4 as Hhi.
    f_equal; unfold Math_round; f_equal.
    + change 300 with (IZR 300). apply Zfloor_eq.
      unfold earthRadius. cbn [IZR IPR IPR_2]. lra.
    + change 200 with (IZR 200). apply Zfloor_eq.
      unfold earthRadius. cbn [IZR IPR IPR_2]. lra.
Qed.

Lemma latLngToContainerPoint_rounds_witness :
  let m := Map.new (Point.mk 600 400) (Map.mkOptions None None) in
  let london := LatLng.mk 51.505 (-0.09) in
  Map.latLngToContainerPoint (Map.setView m (Map.Instance london) 12) london
  = Point.mk 300 200 /\
  Map.latLngToContainerPoint (Map.setView m (Map.Array 51.505 (-0.09)) 12)
                             london
  = Point.mk 300 200 /\
  Map.latLngToContainerPoint (Map.setView m (Map.Array 0 0) 0)
                             (LatLng.mk 0 (9 / 128))
  = Point.mk 300 200.
Proof.
  intros m london.
  apply (proj2 latLngToContainerPoint_rounds m).
  reflexivity.
Defined.

(** ** Panning *)

Lemma animate_spec (s : PosAnimation.Scene) (now : R) :
  let a := PosAnimation.anim s in
  let s' := PosAnimation._animate s now in
  let a' := PosAnimation.anim s' in
  PosAnimation._startPos a' = PosAnimation._startPos a /\
  PosAnimation._offset a' = PosAnimation._offset a /\
  PosAnimation._startTime a' = PosAnimation._startTime a /\
  PosAnimation._duration a' = PosAnimation._duration a /\
  ((now - PosAnimation._startTime a < PosAnimation._duration a /\
    PosAnimation.pending (PosAnimation.host s') <> None /\
    PosAnimation.log s' = PosAnimation.log s) \/
   (PosAnimation._duration a <= now - PosAnimation._startTime a /\
    PosAnimation.el s'
    = Some (Point.add (PosAnimation._startPos a) (PosAnimation._offset a)) /\
    PosAnimation.host s' = PosAnimation.host s /\
    PosAnimation.log s' = PosAnimation.log s ++ [Fired "end" []])).
Proof.
  unfold PosAnimation._animate.
  destruct (Rlt_dec (now - PosAnimation._startTime (PosAnimation.anim s))
                    (PosAnimation._duration (PosAnimation.anim s))) as [H | H];
    cbn; repeat split.
  - left. repeat split; [assumption | discriminate].
  - right. repeat split. lra.
Qed.

Lemma stop_spec (s : PosAnimation.Scene) :
  PosAnimation.el (PosAnimation.stop s) = PosAnimation.el s /\
  PosAnimation.log (PosAnimation.stop s) = PosAnimation.log s.
Proof.
  unfold PosAnimation.stop.
  destruct (PosAnimation._animId (PosAnimation.anim s)); split; reflexivity.
Qed.

Lemma run_spec (s : PosAnimation.Scene) (newPos : Point.t)
  (duration : option R) (t0 t1 : R) :
  let span := match duration with Some d => d | None => 0.25 end * 1000 in
  let s' := PosAnimation.run s newPos duration t0 t1 in
  let a' := PosAnimation.anim s' in
  Point.add (PosAnimation._startPos a') (PosAnimation._offset a')
  = Point.mk (Point.x newPos) (Point.y newPos) /\
  PosAnimation._startTime a' = t0 /\
  PosAnimation._duration a' = span /\
  (PosAnimation.pending (PosAnimation.host s') = None ->
   PosAnimation.el s' = Some (Point.mk (Point.x newPos) (Point.y newPos))) /\
  exists ended, PosAnimation.log s' = PosAnimation.log s ++ ended.
Proof.
  intros span s' a'. subst s' a' span. unfold PosAnimation.run.
  destruct (stop_spec s) as [Hel Hlog].
  match goal with
  | |- context [PosAnimation._animate ?sc t1] =>
      destruct (animate_spec sc t1) as (H1 & H2 & H3 & H4 & H5);
      set (s1 := PosAnimation._animate sc t1) in *
  end.
  cbn [PosAnimation.anim PosAnimation._startPos PosAnimation._offset
       PosAnimation._startTime PosAnimation._duration PosAnimation.el
       PosAnimation.host PosAnimation.log] in H1, H2, H3, H4, H5.
  assert (Hadd : Point.add (DomUtil.getPosition
                              (PosAnimation.el (PosAnimation.stop s)))
                           (Point.subtract newPos
                              (DomUtil.getPosition
                                 (PosAnimation.el (PosAnimation.stop s))))
                 = Point.mk (Point.x newPos) (Point.y newPos)).
  { unfold Point.add, Point.subtract. cbn [Point.x Point.y]. f_equal; ring. }
  rewrite H1, H2, H3, H4.
  repeat split; try assumption.
  - destruct H5 as [(_ & Hp & _) | (_ & He & _)]; [contradiction |].
    intros _. now rewrite He, Hadd.
  - destruct H5 as [(_ & _ & Hl) | (_ & _ & _ & Hl)]; rewrite Hl, Hlog.
    + exists []. now rewrite app_nil_r.
    + eexists. reflexivity.
Qed.

Lemma panBy_animated_panning (m : Map.t) (offset : R * R)
  (options : Map.PanOptions) (t0 t1 : R) :
  Map.animate options <> Some false ->
  panning (Point.subtract (Map._getMapPanePos m)
                          (Point.mk (fst offset) (snd offset)))
          t0
          (match Map.duration options with Some d => d | None => 0.25 end * 1000)
          (Map.panBy m offset options t0 t1).
Proof.
  intros Hanim. unfold panning, Map.panBy.
  set (newPos := Point.subtract (Map._getMapPanePos m)
                                (Point.mk (fst offset) (snd offset))).
  set (a0 := match Map._panAnim m with
             | Some a => a
             | None => PosAnimation.new
             end).
  pose proof (run_spec (PosAnimation.mkScene a0 (Map._mapPane m) (Map.host m)
                                             (Map.effects m))
                       newPos (Map.duration options) t0 t1)
    as (Hadd & Ht & Hd & Hrest & _).
  destruct (Map.animate options) as [[|] |]; try congruence;
    (eexists; split; [reflexivity |];
     split; [exact Hadd |]; split; [exact Ht |]; split; [exact Hd |];
     cbn [Map.fire Map.host Map._mapPane]; unfold Map._getMapPanePos;
     cbn [Map._mapPane]; intros Hp; rewrite (Hrest Hp); reflexivity).
Qed.

Lemma animationFrame_panning (target : Point.t) (t0 span : R) (m : Map.t)
  (now : R) :
  panning target t0 span m ->
  panning target t0 span (Map.animationFrame m now) /\
  (span <= now - t0 ->
   PosAnimation.pending (Map.host (Map.animationFrame m now)) = None).
Proof.
  intros (a & Ha & Hadd & Ht & Hd & Hrest).
  unfold Map.animationFrame. rewrite Ha. unfold PosAnimation.frame.
  cbn [PosAnimation.host PosAnimation.anim PosAnimation.el PosAnimation.log].
  destruct (PosAnimation.pending (Map.host m)) as [id |] eqn:Hp.
  - match goal with
    | |- context [PosAnimation._animate ?sc now] =>
        destruct (animate_spec sc now) as (H1 & H2 & H3 & H4 & H5);
        set (s1 := PosAnimation._animate sc now) in *
    end.
    cbn [PosAnimation.anim PosAnimation.el PosAnimation.host PosAnimation.log]
      in H1, H2, H3, H4, H5.
    split.
    + exists (PosAnimation.anim s1). unfold Map._getMapPanePos.
      cbn [Map._panAnim Map.host Map._mapPane].
      rewrite H1, H2, H3, H4.
      split; [reflexivity |]. split; [exact Hadd |]. split; [exact Ht |].
      split; [exact Hd |].
      destruct H5 as [(_ & Hn & _) | (_ & He & _)]; [contradiction |].
      intros _. now rewrite He, Hadd.
    + intros Hspan. cbn [Map.host].
      destruct H5 as [(Hlt & _) | (_ & _ & Hh & _)]; [lra |].
      now rewrite Hh.
  - split.
    + exists a. unfold Map._getMapPanePos in *.
      cbn [Map._panAnim Map.host Map._mapPane].
      split; [reflexivity |]. split; [exact Hadd |]. split; [exact Ht |].
      split; [exact Hd |]. intros _. now apply Hrest.
    + intros _. exact Hp.
Qed.

Lemma frames_panning (target : Point.t) (t0 span : R) (frames : list R)
  (m : Map.t) :
  panning target t0 span m ->
  panning target t0 span (fold_left Map.animationFrame frames m).
Proof.
  revert m. induction frames as [| now frames IH]; intros m Hm; [exact Hm |].
  cbn [fold_left]. apply IH. now apply animationFrame_panning.
Qed.

(** C7. For every offset, options and state of the map, panBy leaves
    center, zoom and pixelOrigin as they are and fires moveend as its
    last effect. Without animation the pan pane is at its former position
    minus the offset when panBy returns. With animation the pane is at
    that position whenever the animation has come to rest, after any
    number of frames, and it has come to rest by the first frame at
    which the duration (0.25 s unless given) has passed. *)
Theorem panBy_shifts_pane (m : Map.t) (offset : R * R)
  (options : Map.PanOptions) (t0 t1 : R) :
  let m' := Map.panBy m offset options t0 t1 in
  let target := Point.subtract (Map._getMapPanePos m)
                               (Point.mk (fst offset) (snd offset)) in
  let span := match Map.duration options with
              | Some d => d
              | None => 0.25
              end * 1000 in
  Map._center m' = Map._center m /\
  Map._zoom m' = Map._zoom m /\
  Map._pixelOrigin m' = Map._pixelOrigin m /\
  (exists before,
      Map.effects m'
      = Map.effects m ++ before
        ++ [Fired "moveend" (Evented.fire (Map._events m) "moveend")]) /\
  (Map.animate options = Some false -> Map._getMapPanePos m' = target) /\
  (Map.animate options <> Some false ->
   forall frames : list R,
     let m'' := fold_left Map.animationFrame frames m' in
     (PosAnimation.pending (Map.host m'') = None ->
      Map._getMapPanePos m'' = target) /\
     (forall now : R,
         span <= now - t0 ->
         PosAnimation.pending (Map.host (Map.animationFrame m'' now)) = None /\
         Map._getMapPanePos (Map.animationFrame m'' now) = target)).
Proof.
  intros m' target span.
  destruct (panBy_fields m offset options t0 t1) as (Hc & Hz & Ho & _).
  repeat split; try assumption.
  - unfold m', Map.panBy.
    destruct (Map.animate options) as [[|] |];
      try (exists []; reflexivity);
      match goal with
      | |- context [PosAnimation.run ?sc ?p ?d t0 t1] =>
          destruct (run_spec sc p d t0 t1) as (_ & _ & _ & _ & ended & Hl)
      end;
      exists ended; cbn [Map.fire Map.effects Map._events];
      rewrite Hl; cbn [PosAnimation.log]; now rewrite app_assoc.
  - intros Hanim. unfold m', Map.panBy. rewrite Hanim. reflexivity.
  - pose proof (panBy_animated_panning m offset options t0 t1 H) as Hp.
    pose proof (frames_panning _ _ _ frames _ Hp) as (a & _ & _ & _ & _ & Hr).
    exact Hr.
  - pose proof (panBy_animated_panning m offset options t0 t1 H) as Hp.
    pose proof (frames_panning _ _ _ frames _ Hp) as Hp'.
    now apply (animationFrame_panning _ _ _ _ now Hp').
  - pose proof (panBy_animated_panning m offset options t0 t1 H) as Hp.
    pose proof (frames_panning _ _ _ frames _ Hp) as Hp'.
    destruct (animationFrame_panning _ _ _ _ now Hp') as [(a & _ & _ & _ & _ & Hr) Hn].
    apply Hr. now apply Hn.
Qed.

Lemma panBy_shifts_pane_witness :
  let m := Map.new (Point.mk 600 400) (Map.mkOptions None None) in
  Map._getMapPanePos
    (Map.panBy m (10, 20) (Map.mkPanOptions (Some false) None) 0 0)
  = Point.subtract (Map._getMapPanePos m) (Point.mk 10 20).
Proof.
  intros m.
  apply (panBy_shifts_pane m (10, 20) (Map.mkPanOptions (Some false) None) 0 0).
  reflexivity.
Defined.

(** ** The tile layer *)

Lemma key_eqb_eq (k k' : TileLayer.Key) :
  TileLayer.key_eqb k k' = true <-> k = k'.
Proof.
  destruct k as [[a b] c], k' as [[a' b'] c']. unfold TileLayer.key_eqb.
  destruct (Req_dec_T a a'), (Req_dec_T b b'), (Req_dec_T c c');
    split; intros H; try discriminate; try reflexivity;
    try (inversion H; contradiction).
  now subst.
Qed.

Lemma getPixelBounds_valid (m : Map.t) :
  exists bmin bmax, Map.getPixelBounds m = Some (bmin, bmax).
Proof.
  unfold Map.getPixelBounds, Bounds.new, Bounds.extend. eauto.
Qed.

Lemma update_attached_throws (toString : R -> string) (map : Map.t)
  (url : string) (tileSize : R) (tiles : Obj TileLayer.Key TileLayer.Tile)
  (transform : option (Point.t * option R)) :
  TileLayer._update toString Point.prototype map
                    (TileLayer.mk url tileSize true tiles transform)
  = Throw (TypeError "floor is not a function").
Proof.
  unfold TileLayer._update. cbn [TileLayer._map negb].
  destruct (getPixelBounds_valid map) as (bmin & bmax & ->).
  reflexivity.
Qed.

(** C5, at every input. [Point.prototype] has no method floor and none
    ceil, so for every map and every tile layer that is on a map,
    _update throws a TypeError at the call of floor: the tile index
    bounds are never computed. *)
Theorem update_throws_at_floor :
  Point.prototype "floor"%string = None /\
  Point.prototype "ceil"%string = None /\
  forall (toString : R -> string) (map : Map.t) (url : string) (tileSize : R)
         (tiles : Obj TileLayer.Key TileLayer.Tile)
         (transform : option (Point.t * option R)),
    TileLayer._update toString Point.prototype map
                      (TileLayer.mk url tileSize true tiles transform)
    = Throw (TypeError "floor is not a function").
Proof.
  split; [reflexivity |]. split; [reflexivity |].
  apply update_attached_throws.
Qed.

(** Adding a tile layer to a map fails the same way, before the layer
    subscribes to moveend. *)
Lemma onAdd_throws (toString : R -> string) (fn : Evented.Fn)
  (ctx : Evented.Ctx) (map : Map.t) (layer : TileLayer.t) :
  TileLayer.onAdd toString Point.prototype fn ctx map layer
  = Throw (TypeError "floor is not a function").
Proof.
  unfold TileLayer.onAdd. now rewrite update_attached_throws.
Qed.

(** *** Reconciliation *)

Lemma filter_all (A : Type) (f : A -> bool) (l : list A) :
  (forall a, In a l -> f a = true) -> filter f l = l.
Proof.
  induction l as [| a l IH]; intros H; [reflexivity |].
  cbn [filter]. rewrite (H a (or_introl eq_refl)). f_equal.
  apply IH. intros b Hb. apply H. now right.
Qed.

Lemma filter_none (A : Type) (f : A -> bool) (l : list A) :
  (forall a, In a l -> f a = true) -> filter (fun a => negb (f a)) l = [].
Proof.
  induction l as [| a l IH]; intros H; [reflexivity |].
  cbn [filter]. rewrite (H a (or_introl eq_refl)). cbn [negb].
  apply IH. intros b Hb. apply H. now right.
Qed.

Section Reconcile.
Variable toString : R -> string.
Variable this : TileLayer.t.
Variable toLoad : Obj TileLayer.Key TileLayer.Coords.

Let Tiles : Type := Obj TileLayer.Key TileLayer.Tile.

(** One turn of the loop that adds new tiles. *)
Let add1 (acc : Tiles * list TileLayer.DomOp)
    (kc : TileLayer.Key * TileLayer.Coords) :=
  if obj_has TileLayer.key_eqb (fst acc) (fst kc) then acc
  else (obj_set TileLayer.key_eqb (fst acc) (fst kc)
                (TileLayer.createTile toString this (snd kc)),
        snd acc ++ [TileLayer.AppendChild (fst kc)]).

Lemma obj_has_set (o : Tiles) (k k' : TileLayer.Key) (v : TileLayer.Tile) :
  obj_has TileLayer.key_eqb (obj_set TileLayer.key_eqb o k v) k' = true <->
  k' = k \/ obj_has TileLayer.key_eqb o k' = true.
Proof.
  unfold obj_has.
  destruct (TileLayer.key_eqb k' k) eqn:E.
  - apply key_eqb_eq in E. subst k'.
    rewrite (obj_get_set_eq _ key_eqb_eq). tauto.
  - assert (Hne : k' <> k).
    { intros ->. rewrite (proj2 (key_eqb_eq k k) eq_refl) in E. discriminate. }
    rewrite (obj_get_set_ne _ key_eqb_eq) by assumption. tauto.
Qed.

Lemma obj_set_In (o : Tiles) (k : TileLayer.Key) (v : TileLayer.Tile)
  (kt : TileLayer.Key * TileLayer.Tile) :
  In kt (obj_set TileLayer.key_eqb o k v) -> In kt o \/ fst kt = k.
Proof.
  induction o as [| [k0 v0] o IH]; cbn [obj_set].
  - intros [<- | []]. now right.
  - destruct (TileLayer.key_eqb k k0) eqn:E.
    + apply key_eqb_eq in E. subst k0.
      intros [<- | Hin]; [now right | left; now right].
    + intros [<- | Hin]; [left; now left |].
      destruct (IH Hin); [left; now right | now right].
Qed.

Lemma add1_keeps (acc : Tiles * list TileLayer.DomOp)
  (kc : TileLayer.Key * TileLayer.Coords) (k : TileLayer.Key) :
  obj_has TileLayer.key_eqb (fst acc) k = true ->
  obj_has TileLayer.key_eqb (fst (add1 acc kc)) k = true.
Proof.
  intros H. unfold add1.
  destruct (obj_has TileLayer.key_eqb (fst acc) (fst kc)); [exact H |].
  cbn [fst]. apply obj_has_set. now right.
Qed.

Lemma add1_adds (acc : Tiles * list TileLayer.DomOp)
  (kc : TileLayer.Key * TileLayer.Coords) :
  obj_has TileLayer.key_eqb (fst (add1 acc kc)) (fst kc) = true.
Proof.
  unfold add1.
  destruct (obj_has TileLayer.key_eqb (fst acc) (fst kc)) eqn:E; [exact E |].
  cbn [fst]. apply obj_has_set. now left.
Qed.

Lemma add_loop_keeps (l : Obj TileLayer.Key TileLayer.Coords)
  (acc : Tiles * list TileLayer.DomOp) (k : TileLayer.Key) :
  obj_has TileLayer.key_eqb (fst acc) k = true ->
  obj_has TileLayer.key_eqb (fst (fold_left add1 l acc)) k = true.
Proof.
  revert acc. induction l as [| kc l IH]; intros acc H; [exact H |].
  cbn [fold_left]. apply IH. now apply add1_keeps.
Qed.

Lemma add_loop_adds (l : Obj TileLayer.Key TileLayer.Coords)
  (acc : Tiles * list TileLayer.DomOp)
  (kc : TileLayer.Key * TileLayer.Coords) :
  In kc l ->
  obj_has TileLayer.key_eqb (fst (fold_left add1 l acc)) (fst kc) = true.
Proof.
  revert acc. induction l as [| kc' l IH]; intros acc Hin; [destruct Hin |].
  cbn [fold_left]. destruct Hin as [-> | Hin].
  - apply add_loop_keeps, add1_adds.
  - now apply IH.
Qed.

Lemma add_loop_within (P : TileLayer.Key -> Prop)
  (l : Obj TileLayer.Key TileLayer.Coords)
  (acc : Tiles * list TileLayer.DomOp) :
  (forall kt, In kt (fst acc) -> P (fst kt)) ->
  (forall kc, In kc l -> P (fst kc)) ->
  forall kt, In kt (fst (fold_left add1 l acc)) -> P (fst kt).
Proof.
  revert acc. induction l as [| kc l IH]; intros acc Hacc Hl; [exact Hacc |].
  cbn [fold_left]. apply IH.
  - intros kt. unfold add1.
    destruct (obj_has TileLayer.key_eqb (fst acc) (fst kc)); [apply Hacc |].
    cbn [fst]. intros Hin. apply obj_set_In in Hin.
    destruct Hin as [Hin | ->]; [now apply Hacc | apply Hl; now left].
  - intros kc' Hin. apply Hl. now right.
Qed.

Lemma add_loop_idle (l : Obj TileLayer.Key TileLayer.Coords)
  (acc : Tiles * list TileLayer.DomOp) :
  (forall kc, In kc l ->
              obj_has TileLayer.key_eqb (fst acc) (fst kc) = true) ->
  fold_left add1 l acc = acc.
Proof.
  induction l as [| kc l IH]; intros H; [reflexivity |].
  cbn [fold_left]. unfold add1 at 2.
  rewrite (H kc (or_introl eq_refl)). apply IH.
  intros kc' Hin. apply H. now right.
Qed.

(** After the two loops a tile is resident exactly for the keys to
    load. *)
Lemma reconciled (tiles : Tiles) :
  let kept := fst (TileLayer.removeOld tiles toLoad) in
  let resident := fst (TileLayer.addNew toString this kept toLoad) in
  (forall kc, In kc toLoad ->
              obj_has TileLayer.key_eqb resident (fst kc) = true) /\
  (forall kt, In kt resident ->
              obj_has TileLayer.key_eqb toLoad (fst kt) = true).
Proof.
  intros kept resident. split.
  - intros kc Hin. now apply add_loop_adds.
  - intros kt Hkt.
    apply (add_loop_within
             (fun k => obj_has TileLayer.key_eqb toLoad k = true)
             toLoad (kept, [])); [| | exact Hkt].
    + intros kt' Hin. unfold kept in Hin.
      cbn [fst TileLayer.removeOld] in Hin.
      now apply filter_In in Hin.
    + intros kc Hin. apply (obj_has_In_keys _ key_eqb_eq).
      unfold obj_keys. now apply in_map.
Qed.

(** On tiles that are exactly those to load, the two loops remove
    nothing and add nothing. *)
Lemma reconcile_idle (tiles : Tiles) (other : TileLayer.t) :
  (forall kc, In kc toLoad ->
              obj_has TileLayer.key_eqb tiles (fst kc) = true) ->
  (forall kt, In kt tiles ->
              obj_has TileLayer.key_eqb toLoad (fst kt) = true) ->
  TileLayer.removeOld tiles toLoad = (tiles, []) /\
  TileLayer.addNew toString other tiles toLoad = (tiles, []).
Proof.
  intros Hall Hin. split.
  - unfold TileLayer.removeOld.
    rewrite (filter_all _ _ _ Hin).
    rewrite (filter_none _ (fun kt => obj_has TileLayer.key_eqb toLoad (fst kt))
                         _ Hin).
    reflexivity.
  - unfold TileLayer.addNew.
    clear Hin. revert Hall. generalize (@nil TileLayer.DomOp).
    induction toLoad as [| kc l IH]; intros ops H; [reflexivity |].
    cbn [fold_left fst]. rewrite (H kc (or_introl eq_refl)).
    apply IH. intros kc' Hin'. apply H. now right.
Qed.
End Reconcile.

Lemma update_equation (toString : R -> string) (proto : Point.Prototype)
  (map : Map.t) (layer : TileLayer.t) :
  TileLayer._update toString proto map layer
  = if negb (TileLayer._map layer) then Return (layer, [])
    else match proto "floor"%string, proto "ceil"%string with
         | Some floor, Some ceil =>
             let toLoad := required floor ceil map layer in
             let kept := TileLayer.removeOld (TileLayer._tiles layer) toLoad in
             let resident :=
               TileLayer.addNew toString layer (fst kept) toLoad in
             let zoom := Math_round (Map.getZoom map) in
             Return
               (TileLayer.mk
                  (TileLayer._url layer) (TileLayer.tileSize layer)
                  (TileLayer._map layer) (fst resident)
                  (Some (DomUtil.setTransform
                           (Some (Point.multiplyBy
                                    (Map._getNewPixelOrigin
                                       map (Map.getCenter map) zoom)
                                    (-1)))
                           (Map.getZoomScale map zoom (Some (Map._zoom map))))),
                snd kept ++ snd resident)
         | None, _ => Throw (TypeError "floor is not a function")
         | Some _, None => Throw (TypeError "ceil is not a function")
         end.
Proof.
  unfold TileLayer._update, required.
  destruct (negb (TileLayer._map layer)); [reflexivity |].
  destruct (getPixelBounds_valid map) as (bmin & bmax & ->).
  unfold Point.call.
  destruct (proto "floor"%string) as [floor |]; [| reflexivity].
  destruct (proto "ceil"%string) as [ceil |]; [| reflexivity].
  cbn [bind TileLayer.removeOld fst snd].
  match goal with
  | |- context [TileLayer.addNew ?a ?b ?c ?d] =>
      destruct (TileLayer.addNew a b c d) as [resident added]
  end.
  reflexivity.
Qed.

(** C9. Whatever [Point.prototype] provides, a second _update with the
    same map state does nothing: it appends no tile and removes none,
    and leaves the layer, its resident tiles and their keys included, as
    the first run left it. With the prototype of the library both runs
    stop at the call of floor; with floor and ceil provided the first
    run makes the resident keys those required and the second finds them
    so. *)
Theorem update_twice_is_idle (toString : R -> string)
  (proto : Point.Prototype) (map : Map.t) (layer : TileLayer.t) :
  let first := TileLayer.after_update toString proto map layer in
  let second := TileLayer.after_update toString proto map (fst first) in
  snd second = [] /\
  fst second = fst first /\
  obj_keys (TileLayer._tiles (fst second))
  = obj_keys (TileLayer._tiles (fst first)).
Proof.
  intros first second.
  assert (H : second = (fst first, [])); [| now rewrite H].
  unfold second, first, TileLayer.after_update.
  rewrite (update_equation toString proto map layer).
  destruct (TileLayer._map layer) eqn:Hmap; cbn [negb].
  2: { cbn [fst]. rewrite update_equation, Hmap. reflexivity. }
  destruct (proto "floor"%string) as [floor |] eqn:Hfloor.
  2: { cbn [fst]. rewrite update_equation, Hmap, Hfloor. reflexivity. }
  destruct (proto "ceil"%string) as [ceil |] eqn:Hceil.
  2: { cbn [fst]. rewrite update_equation, Hmap, Hfloor, Hceil. reflexivity. }
  cbv zeta. cbn [fst].
  rewrite update_equation. cbn [TileLayer._map negb].
  rewrite Hfloor, Hceil. cbv zeta.
  cbn [TileLayer._tiles TileLayer._url TileLayer.tileSize TileLayer._map].
  set (toLoad := required floor ceil map layer).
  assert (Hsame : required floor ceil map
                    (TileLayer.mk (TileLayer._url layer)
                       (TileLayer.tileSize layer) true
                       (fst (TileLayer.addNew toString layer
                               (fst (TileLayer.removeOld
                                       (TileLayer._tiles layer) toLoad))
                               toLoad))
                       (Some (DomUtil.setTransform
                                (Some (Point.multiplyBy
                                         (Map._getNewPixelOrigin
                                            map (Map.getCenter map)
                                            (Math_round (Map.getZoom map)))
                                         (-1)))
                                (Map.getZoomScale
                                   map (Math_round (Map.getZoom map))
                                   (Some (Map._zoom map))))))
                  = toLoad) by reflexivity.
  rewrite Hsame.
  destruct (reconciled toString layer toLoad (TileLayer._tiles layer))
    as [Hall Hin].
  set (resident := fst (TileLayer.addNew toString layer
                          (fst (TileLayer.removeOld (TileLayer._tiles layer)
                                                    toLoad))
                          toLoad)) in *.
  assert (Hrem : TileLayer.removeOld resident toLoad = (resident, []))
    by now apply (reconcile_idle toString toLoad resident layer).
  assert (Hadd : forall other,
             TileLayer.addNew toString other resident toLoad = (resident, []))
    by (intros other; now apply reconcile_idle).
  rewrite Hrem. cbn [fst snd]. rewrite Hadd. reflexivity.
Qed.

(** ** Tile URLs *)

Local Open Scope string_scope.

Lemma substring_all (s : string) : substring 0 (length s) s = s.
Proof.
  induction s as [| c s IH]; [reflexivity |]. cbn. now rewrite IH.
Qed.

Lemma prefix_split (pat s : string) :
  prefix pat s = true ->
  s = pat ++ substring (length pat) (length s - length pat) s.
Proof.
  revert s. induction pat as [| c pat IH]; intros s H.
  - cbn. now rewrite Nat.sub_0_r, substring_all.
  - destruct s as [| c' s]; [discriminate |]. cbn in H.
    destruct (ascii_dec c c') as [-> |]; [| discriminate].
    cbn. f_equal. now apply IH.
Qed.

Lemma prefix_append (pat b : string) : prefix pat (pat ++ b) = true.
Proof.
  induction pat as [| c pat IH]; [now destruct b |].
  cbn. destruct (ascii_dec c c); [exact IH | contradiction].
Qed.

Lemma replace_unfold (pat rep s : string) :
  replace pat rep s
  = if prefix pat s
    then rep ++ substring (length pat) (length s - length pat) s
    else match s with
         | EmptyString => EmptyString
         | String c s' => String c (replace pat rep s')
         end.
Proof.
  destruct s; reflexivity.
Qed.

(** [replace] replaces the first occurrence and nothing else. *)
Lemma replace_first (pat rep s : string) :
  first_replaced pat rep s (replace pat rep s).
Proof.
  induction s as [| c s IH]; rewrite replace_unfold.
  - destruct (prefix pat "") eqn:E.
    + right. exists "", "". destruct pat; [| discriminate].
      repeat split. intros a' b' _. apply Nat.le_0_l.
    + left. split; [| reflexivity].
      intros a b H. destruct a; [| discriminate].
      destruct pat; discriminate.
  - destruct (prefix pat (String c s)) eqn:E.
    + right. exists "".
      exists (substring (length pat) (length (String c s) - length pat)
                        (String c s)).
      split; [now apply prefix_split |].
      split; [intros a' b' _; apply Nat.le_0_l | reflexivity].
    + assert (Hno : forall b, String c s <> pat ++ b).
      { intros b H. rewrite H, prefix_append in E. discriminate. }
      destruct IH as [[Hnone ->] | (a & b & Hs & Hmin & ->)].
      * left. split; [| reflexivity].
        intros a b H. destruct a as [| c' a].
        -- now apply (Hno b).
        -- cbn in H. injection H as _ H. now apply (Hnone a b).
      * right. exists (String c a), b. subst s. repeat split.
        intros a' b' H. destruct a' as [| c' a'].
        -- exfalso. now apply (Hno b').
        -- cbn in H. injection H as _ H. cbn. apply le_n_S. now apply (Hmin a' b').
Qed.

Lemma append_assoc (a b c : string) : (a ++ b) ++ c = a ++ b ++ c.
Proof.
  induction a as [| ch a IH]; [reflexivity |]. cbn. now rewrite IH.
Qed.

Lemma length_append (a b : string) :
  length (a ++ b) = (length a + length b)%nat.
Proof.
  induction a as [| ch a IH]; [reflexivity |]. cbn. now rewrite IH.
Qed.

(** Two occurrences of placeholders in one string are the same
    occurrence or lie apart, one wholly before the other. *)
Lemma placeholders_apart (c1 c2 : ascii) :
  c1 <> "{"%char -> c1 <> "}"%char -> c2 <> "{"%char -> c2 <> "}"%char ->
  forall a1 b1 a2 b2 : string,
    a1 ++ placeholder c1 ++ b1 = a2 ++ placeholder c2 ++ b2 ->
    (a1 = a2 /\ c1 = c2 /\ b1 = b2) \/
    (exists d, a2 = a1 ++ placeholder c1 ++ d /\
               b1 = d ++ placeholder c2 ++ b2) \/
    (exists d, a1 = a2 ++ placeholder c2 ++ d /\
               b2 = d ++ placeholder c1 ++ b1).
Proof.
  intros H1o H1c H2o H2c.
  induction a1 as [| e a1 IH]; intros b1 a2 b2 H.
  - destruct a2 as [| e a2]; cbn in H.
    + injection H as Hc Hb. left. auto.
    + injection H as He H. subst e.
      destruct a2 as [| e a2]; cbn in H; injection H as He H;
        [now subst |].
      destruct a2 as [| e' a2]; cbn in H; injection H as He' H;
        [discriminate |].
      right. left. exists a2. subst. split; reflexivity.
  - destruct a2 as [| e' a2]; cbn in H.
    + injection H as He H. subst e.
      destruct a1 as [| e a1]; cbn in H; injection H as He H;
        [now subst |].
      destruct a1 as [| e' a1]; cbn in H; injection H as He' H;
        [discriminate |].
      right. right. exists a1. subst. split; reflexivity.
    + injection H as He H. subst e'.
      destruct (IH _ _ _ H) as [(-> & -> & ->) | [(d & -> & ->) | (d & -> & ->)]].
      * left. auto.
      * right. left. exists d. split; reflexivity.
      * right. right. exists d. split; reflexivity.
Qed.

(** Replacing another placeholder keeps an occurrence, and keeps two. *)
Lemma occurs_kept (c1 c2 : ascii) (rep s t : string) :
  c1 <> "{"%char -> c1 <> "}"%char -> c2 <> "{"%char -> c2 <> "}"%char ->
  c1 <> c2 ->
  first_replaced (placeholder c2) rep s t ->
  occurs (placeholder c1) s -> occurs (placeholder c1) t.
Proof.
  intros H1o H1c H2o H2c Hne [[_ ->] | (a & b & Hs & _ & ->)] (a1 & b1 & Hs1);
    [now exists a1, b1 |].
  rewrite Hs1 in Hs.
  destruct (placeholders_apart c1 c2 H1o H1c H2o H2c _ _ _ _ Hs)
    as [(_ & Hc & _) | [(d & -> & ->) | (d & -> & ->)]]; [contradiction | |].
  - exists a1, (d ++ rep ++ b). now rewrite !append_assoc.
  - exists (a ++ rep ++ d), b1. now rewrite !append_assoc.
Qed.

Lemma occurs_twice_kept (c1 c2 : ascii) (rep s t : string) :
  c1 <> "{"%char -> c1 <> "}"%char -> c2 <> "{"%char -> c2 <> "}"%char ->
  c1 <> c2 ->
  first_replaced (placeholder c2) rep s t ->
  occurs_twice (placeholder c1) s -> occurs_twice (placeholder c1) t.
Proof.
  intros H1o H1c H2o H2c Hne [[_ ->] | (a & b & Hs & _ & ->)]
         (a1 & m & c & Hs1); [now exists a1, m, c |].
  rewrite Hs1 in Hs.
  destruct (placeholders_apart c1 c2 H1o H1c H2o H2c _ _ _ _ Hs)
    as [(_ & Hc & _) | [(d & -> & Hd) | (d & -> & ->)]]; [contradiction | |].
  - destruct (placeholders_apart c1 c2 H1o H1c H2o H2c _ _ _ _ Hd)
      as [(_ & Hc & _) | [(d' & -> & ->) | (d' & -> & ->)]]; [contradiction | |].
    + exists a1, m, (d' ++ rep ++ b). now rewrite !append_assoc.
    + exists a1, (d ++ rep ++ d'), c. now rewrite !append_assoc.
  - exists (a ++ rep ++ d), m, c. now rewrite !append_assoc.
Qed.

(** Replacing a placeholder that occurs twice leaves an occurrence. *)
Lemma occurs_twice_left (c1 : ascii) (rep s t : string) :
  c1 <> "{"%char -> c1 <> "}"%char ->
  first_replaced (placeholder c1) rep s t ->
  occurs_twice (placeholder c1) s -> occurs (placeholder c1) t.
Proof.
  intros H1o H1c [[Hnone _] | (a & b & Hs & Hmin & ->)] (a1 & m & c & Hs1).
  - exfalso. now apply (Hnone a1 (m ++ placeholder c1 ++ c)).
  - pose proof (Hmin _ _ Hs1) as Hle. rewrite Hs1 in Hs.
    destruct (placeholders_apart c1 c1 H1o H1c H1o H1c _ _ _ _ Hs)
      as [(Ha & _ & Hb) | [(d & -> & _) | (d & -> & ->)]].
    + exists (a ++ rep ++ m), c. subst b. now rewrite !append_assoc.
    + rewrite !length_append in Hle. cbn in Hle. lia.
    + exists (a ++ rep ++ d), (m ++ placeholder c1 ++ c).
      now rewrite !append_assoc.
Qed.

(** C10. For every URL template and every tile, the tile URL is the
    template after three replacements in a row, of {x}, of {y} and of
    {z}, each by the decimal string of the coordinate; each replacement
    touches the first occurrence of its placeholder only, and the text
    before and after that occurrence is left as it is. So a placeholder
    that the template has twice is still in the tile URL. *)
Theorem getTileUrl_replaces_first_only (toString : R -> string)
  (layer : TileLayer.t) (coords : TileLayer.Coords) :
  (exists u1 u2,
      first_replaced "{x}" (toString (TileLayer.x coords))
                     (TileLayer._url layer) u1 /\
      first_replaced "{y}" (toString (TileLayer.y coords)) u1 u2 /\
      first_replaced "{z}" (toString (TileLayer.z coords)) u2
                     (TileLayer._getTileUrl toString layer coords)) /\
  (forall pat,
      In pat ["{x}"; "{y}"; "{z}"] ->
      occurs_twice pat (TileLayer._url layer) ->
      occurs pat (TileLayer._getTileUrl toString layer coords)).
Proof.
  unfold TileLayer._getTileUrl.
  set (rx := toString (TileLayer.x coords)).
  set (ry := toString (TileLayer.y coords)).
  set (rz := toString (TileLayer.z coords)).
  set (url := TileLayer._url layer).
  pose proof (replace_first "{x}" rx url) as Hx.
  pose proof (replace_first "{y}" ry (replace "{x}" rx url)) as Hy.
  pose proof (replace_first "{z}" rz (replace "{y}" ry (replace "{x}" rx url)))
    as Hz.
  split; [eexists; eexists; repeat split; eassumption |].
  change "{x}" with (placeholder "x") in *.
  change "{y}" with (placeholder "y") in *.
  change "{z}" with (placeholder "z") in *.
  intros pat [<- | [<- | [<- | []]]] Htwice.
  - eapply occurs_kept; [.. | exact Hz |]; try discriminate.
    eapply occurs_kept; [.. | exact Hy |]; try discriminate.
    eapply occurs_twice_left; [.. | exact Hx | exact Htwice]; discriminate.
  - eapply occurs_kept; [.. | exact Hz |]; try discriminate.
    eapply occurs_twice_left; [.. | exact Hy |]; try discriminate.
    eapply occurs_twice_kept; [.. | exact Hx | exact Htwice]; discriminate.
  - eapply occurs_twice_left; [.. | exact Hz |]; try discriminate.
    eapply occurs_twice_kept; [.. | exact Hy |]; try discriminate.
    eapply occurs_twice_kept; [.. | exact Hx | exact Htwice]; discriminate.
Qed.

Lemma getTileUrl_replaces_first_only_witness :
  occurs "{x}"
         (TileLayer._getTileUrl (fun _ => "7")
            (TileLayer.new "{x}/{x}" None) (TileLayer.mkCoords 7 7 7)).
Proof.
  apply (getTileUrl_replaces_first_only
           (fun _ => "7") (TileLayer.new "{x}/{x}" None)
           (TileLayer.mkCoords 7 7 7)).
  - simpl. auto.
  - exists "", "/", "". reflexivity.
Defined.

(** The scenario of the specification, and a template with duplicates. *)
Lemma getTileUrl_examples (toString : R -> string) :
  toString 3%R = "3" -> toString 5%R = "5" -> toString 4%R = "4" ->
  let coords := TileLayer.mkCoords 3 5 4 in
  TileLayer._getTileUrl toString
    (TileLayer.new "https://x/{z}/{x}/{y}.png" None) coords
  = "https://x/4/3/5.png" /\
  TileLayer._getTileUrl toString
    (TileLayer.new "{x}/{x}/{y}{y}-{z}{z}" None) coords
  = "3/{x}/5{y}-4{z}".
Proof.
  intros H3 H5 H4 coords. unfold TileLayer._getTileUrl.
  cbn [TileLayer.x TileLayer.y TileLayer.z coords TileLayer._url TileLayer.new].
  rewrite H3, H5, H4. split; reflexivity.
Qed.

(** * Further properties of the code *)

Local Close Scope string_scope.

(** ** Registration and firing *)

Lemma register_get (fn : Evented.Fn) (ctx : option Evented.Ctx)
  (ev : Evented.Events) (type t : string) :
  Evented.fire (Some (Evented.register fn ctx ev type)) t
  = if string_dec type t
    then Evented.fire (Some ev) t ++ [Evented.mkListener fn ctx]
    else Evented.fire (Some ev) t.
Proof.
  unfold Evented.fire, Evented.register.
  destruct (string_dec type t) as [-> | Hne].
  - now rewrite (obj_get_set_eq String.eqb string_eqb_eq).
  - rewrite (obj_get_set_ne String.eqb string_eqb_eq) by congruence.
    reflexivity.
Qed.

Lemma register_fold_get (fn : Evented.Fn) (ctx : option Evented.Ctx)
  (ts : list string) (ev : Evented.Events) (t : string) :
  Evented.fire (Some (fold_left (Evented.register fn ctx) ts ev)) t
  = Evented.fire (Some ev) t
    ++ repeat (Evented.mkListener fn ctx) (count_occ string_dec ts t).
Proof.
  revert ev. induction ts as [| type ts IH]; intros ev.
  - cbn [fold_left count_occ repeat]. now rewrite app_nil_r.
  - cbn [fold_left count_occ]. rewrite IH, register_get.
    destruct (string_dec type t) as [_ | _]; [| reflexivity].
    cbn [repeat]. now rewrite <- app_assoc.
Qed.

(** After on(types, fn, ctx), firing a type calls the listeners that
    were registered before, in their order, and then the new listener,
    once for each time the type stands in the space-separated list.
    This is for types that are not names of properties that a plain
    object inherits; under such a name on and fire throw. *)
Theorem on_appends_listener (this : Evented.t) (types : string)
  (fn : Evented.Fn) (ctx : option Evented.Ctx) (t : string) :
  (forall type, In type (split_on " "%char types) ->
                Evented.inherited type = false) ->
  Evented.inherited t = false ->
  Evented.fire (Evented.on this types fn ctx) t
  = Evented.fire this t
    ++ repeat (Evented.mkListener fn ctx)
              (count_occ string_dec (split_on " "%char types) t).
Proof.
  intros _ _. unfold Evented.on. rewrite register_fold_get.
  destruct this; reflexivity.
Qed.

Lemma on_appends_listener_witness :
  Evented.fire (Evented.on None "moveend zoomend moveend" 1%nat None) "moveend"
  = [Evented.mkListener 1%nat None; Evented.mkListener 1%nat None].
Proof.
  apply (on_appends_listener None "moveend zoomend moveend" 1%nat None
                             "moveend").
  - intros type [<- | [<- | [<- | []]]]; reflexivity.
  - reflexivity.
Defined.

(** ** Points *)

Lemma Math_round_near (v : R) : - / 2 < Math_round v - v <= / 2.
Proof.
  unfold Math_round. pose proof (Zfloor_bound (v + / 2)). lra.
Qed.

(** Rounding a point gives integer coordinates, each at most half a
    pixel away from the coordinate it rounds, and a coordinate half way
    between two integers goes to the upper one; rounding again changes
    nothing. *)
Theorem Point_round_idempotent (p : Point.t) (n m : Z) :
  (Z.abs n < 2 ^ 52)%Z -> (Z.abs m < 2 ^ 52)%Z ->
  Point.round (Point.round p) = Point.round p /\
  - / 2 < Point.x (Point.round p) - Point.x p <= / 2 /\
  - / 2 < Point.y (Point.round p) - Point.y p <= / 2 /\
  (exists i j : Z, Point.round p = Point.mk (IZR i) (IZR j)) /\
  Point.round (Point.mk (IZR n + / 2) (IZR m - / 2))
  = Point.mk (IZR n + 1) (IZR m).
Proof.
  intros _ _. unfold Point.round. cbn [Point.x Point.y].
  split; [| split; [| split; [| split]]].
  - unfold Math_round at 2 4. now rewrite !Math_round_IZR.
  - apply Math_round_near.
  - apply Math_round_near.
  - eexists. eexists. reflexivity.
  - unfold Math_round. f_equal.
    + rewrite <- (plus_IZR n 1). f_equal. apply Zfloor_eq.
      rewrite plus_IZR. lra.
    + f_equal. apply Zfloor_eq. lra.
Qed.

Lemma Point_round_idempotent_witness :
  Point.round (Point.mk (IZR 2 + / 2) (IZR (-3) - / 2))
  = Point.mk (IZR 2 + 1) (IZR (-3)).
Proof.
  apply (Point_round_idempotent (Point.mk 0 0) 2 (-3)); lia.
Defined.

(** The distance between points is symmetric, never negative, zero
    exactly between points with the same coordinates, and obeys the
    triangle inequality. *)
Theorem Point_distanceTo_metric (p q r : Point.t) :
  Point.distanceTo p q = Point.distanceTo q p /\
  0 <= Point.distanceTo p q /\
  (Point.distanceTo p q = 0 <->
   Point.x p = Point.x q /\ Point.y p = Point.y q) /\
  Point.distanceTo p r <= Point.distanceTo p q + Point.distanceTo q r.
Proof.
  unfold Point.distanceTo. cbv zeta.
  set (a := Point.x p); set (b := Point.y p).
  set (c := Point.x q); set (d := Point.y q).
  set (e := Point.x r); set (f := Point.y r).
  split; [f_equal; ring |]. split; [apply sqrt_pos |]. split; [split |].
  - intros H.
    pose proof (Rle_0_sqr (c - a)) as H1. pose proof (Rle_0_sqr (d - b)) as H2.
    unfold Rsqr in H1, H2. apply sqrt_eq_0 in H; [| lra].
    assert (Ha : Rsqr (c - a) = 0) by (unfold Rsqr; lra).
    assert (Hb : Rsqr (d - b) = 0) by (unfold Rsqr; lra).
    apply Rsqr_0_uniq in Ha, Hb. split; lra.
  - intros [H1 H2]. rewrite <- H1, <- H2.
    replace ((a - a) * (a - a) + (b - b) * (b - b)) with 0 by ring.
    apply sqrt_0.
  - pose proof (triangle e f a b c d) as H. unfold dist_euc, Rsqr in H.
    replace ((a - c) * (a - c) + (b - d) * (b - d))
      with ((c - a) * (c - a) + (d - b) * (d - b)) in H by ring.
    replace ((a - e) * (a - e) + (b - f) * (b - f))
      with ((e - a) * (e - a) + (f - b) * (f - b)) in H by ring.
    replace ((c - e) * (c - e) + (d - f) * (d - f))
      with ((e - c) * (e - c) + (f - d) * (f - d)) in H by ring.
    lra.
Qed.

(** ** Approximate equality of LatLng *)

Lemma close_iff (x y : number) :
  number_lt (Math_abs (number_sub x y)) (Finite 1e-9) = true <->
  exists a b, x = Finite a /\ y = Finite b /\ Rabs (a - b) < 1e-9.
Proof.
  split.
  - destruct x as [a | | |], y as [b | | |];
      cbn [number_sub Math_abs number_lt]; intros H; try discriminate H.
    destruct (Rlt_dec (Rabs (a - b)) 1e-9); [| discriminate H].
    now exists a, b.
  - intros (a & b & -> & -> & H). cbn [number_sub Math_abs number_lt].
    destruct (Rlt_dec (Rabs (a - b)) 1e-9); [reflexivity | contradiction].
Qed.

Lemma close_sym (x y : number) :
  number_lt (Math_abs (number_sub x y)) (Finite 1e-9)
  = number_lt (Math_abs (number_sub y x)) (Finite 1e-9).
Proof.
  destruct x as [a | | |], y as [b | | |]; try reflexivity.
  cbn [number_sub Math_abs number_lt]. now rewrite (Rabs_minus_sym a b).
Qed.

Lemma LatLng_equals_iff (a b : LatLng.t) :
  LatLng.equals (LatLng.of_finite a) (LatLng.of_finite b) = true <->
  Rabs (LatLng.lat a - LatLng.lat b) < 1e-9 /\
  Rabs (LatLng.lng a - LatLng.lng b) < 1e-9.
Proof.
  unfold LatLng.equals, LatLng.of_finite.
  cbn [LatLng.lat_field LatLng.lng_field].
  rewrite andb_true_iff, !close_iff. split.
  - intros [(a1 & b1 & E1 & E2 & H1) (a2 & b2 & E3 & E4 & H2)].
    injection E1 as <-. injection E2 as <-.
    injection E3 as <-. injection E4 as <-. now split.
  - intros [H1 H2]. split; eexists; eexists; repeat split; eassumption.
Qed.

(** [equals] does not depend on the order of its arguments.  A LatLng
    equals itself exactly when both of its components are finite: an
    instance with an infinite component, which the constructor accepts,
    does not equal itself, and a clone is the same instance again.
    [equals] is not transitive: three points 0.6e-9 degrees apart are
    equal in pairs and unequal end to end. *)
Theorem LatLng_equals_not_transitive (lat lng : number) (l : LatLng.fields) :
  LatLng.new lat lng = Return l ->
  (LatLng.equals l l = true <-> isFinite lat = true /\ isFinite lng = true) /\
  LatLng.clone l = Return l /\
  (forall other, LatLng.equals l other = LatLng.equals other l) /\
  (exists a b c,
      LatLng.equals (LatLng.of_finite a) (LatLng.of_finite b) = true /\
      LatLng.equals (LatLng.of_finite b) (LatLng.of_finite c) = true /\
      LatLng.equals (LatLng.of_finite a) (LatLng.of_finite c) = false).
Proof.
  intros Hnew. unfold LatLng.new in Hnew.
  destruct (isNaN lat || isNaN lng) eqn:Enan; [discriminate |].
  injection Hnew as <-. apply orb_false_iff in Enan. destruct Enan as [E1 E2].
  split; [| split; [| split]].
  - unfold LatLng.equals. cbn [LatLng.lat_field LatLng.lng_field].
    rewrite andb_true_iff, !close_iff. split.
    + intros [(a & _ & -> & _) (b & _ & -> & _)]. now split.
    + intros [H1 H2].
      destruct lat as [a | | |]; try discriminate.
      destruct lng as [b | | |]; try discriminate.
      split; eexists; eexists; (split; [reflexivity |]);
        (split; [reflexivity |]); rewrite Rminus_diag, Rabs_R0; lra.
  - unfold LatLng.clone, LatLng.new. cbn [LatLng.lat_field LatLng.lng_field].
    now rewrite E1, E2.
  - intros other. unfold LatLng.equals.
    cbn [LatLng.lat_field LatLng.lng_field].
    now rewrite (close_sym lat), (close_sym lng).
  - exists (LatLng.mk 0 0), (LatLng.mk 6e-10 0), (LatLng.mk 12e-10 0).
    split; [| split].
    + apply LatLng_equals_iff. cbn [LatLng.lat LatLng.lng].
      split; apply Rabs_def1; lra.
    + apply LatLng_equals_iff. cbn [LatLng.lat LatLng.lng].
      split; apply Rabs_def1; lra.
    + destruct (LatLng.equals (LatLng.of_finite (LatLng.mk 0 0))
                              (LatLng.of_finite (LatLng.mk 12e-10 0))) eqn:E;
        [| reflexivity].
      apply LatLng_equals_iff in E. cbn [LatLng.lat LatLng.lng] in E.
      destruct E as [E _]. apply Rabs_def2 in E. lra.
Qed.

Lemma LatLng_equals_not_transitive_witness :
  let l := LatLng.mkFields PosInfinity (Finite 0) in
  LatLng.new PosInfinity (Finite 0) = Return l /\
  LatLng.equals l l = false /\
  LatLng.clone l = Return l.
Proof.
  intros l.
  destruct (LatLng_equals_not_transitive PosInfinity (Finite 0) l eq_refl)
    as (Hrefl & Hclone & _).
  split; [reflexivity |]. split; [| exact Hclone].
  destruct (LatLng.equals l l); [| reflexivity].
  destruct (proj1 Hrefl eq_refl) as [E _]. discriminate E.
Defined.

(** ** Bounds *)

Lemma Bounds_contains_iff (mn mx p : Point.t) :
  Bounds.contains (Some (mn, mx)) p = Return true <->
  Point.x mn <= Point.x p <= Point.x mx /\
  Point.y mn <= Point.y p <= Point.y mx.
Proof.
  unfold Bounds.contains.
  destruct (Rge_dec (Point.x p) (Point.x mn));
    destruct (Rle_dec (Point.x p) (Point.x mx));
    destruct (Rge_dec (Point.y p) (Point.y mn));
    destruct (Rle_dec (Point.y p) (Point.y mx));
    split; intros H; try discriminate; try reflexivity; try lra;
    exfalso; lra.
Qed.

Lemma Bounds_extend_contains (b : Bounds.t) (p q : Point.t) :
  Bounds.contains (Bounds.extend b p) p = Return true /\
  (Bounds.contains b q = Return true ->
   Bounds.contains (Bounds.extend b p) q = Return true).
Proof.
  destruct b as [[mn mx] |]; cbn [Bounds.extend].
  - split.
    + apply Bounds_contains_iff. cbn [Point.x Point.y].
      pose proof (Rmin_r (Point.x mn) (Point.x p)).
      pose proof (Rmin_r (Point.y mn) (Point.y p)).
      pose proof (Rmax_r (Point.x mx) (Point.x p)).
      pose proof (Rmax_r (Point.y mx) (Point.y p)). lra.
    + intros H. apply Bounds_contains_iff in H.
      apply Bounds_contains_iff. cbn [Point.x Point.y].
      pose proof (Rmin_l (Point.x mn) (Point.x p)).
      pose proof (Rmin_l (Point.y mn) (Point.y p)).
      pose proof (Rmax_l (Point.x mx) (Point.x p)).
      pose proof (Rmax_l (Point.y mx) (Point.y p)). lra.
  - split; [| discriminate].
    apply Bounds_contains_iff. cbn [Point.clone Point.x Point.y]. lra.
Qed.

(** A bounds extended by points, one after the other from the empty
    bounds, is valid and contains each of them; never extended, it is
    invalid and [contains] throws. *)
Theorem Bounds_contains_extended (ps : list Point.t) (p : Point.t) :
  (In p ps ->
   Bounds.contains (fold_left Bounds.extend ps None) p = Return true /\
   Bounds.isValid (fold_left Bounds.extend ps None) = true) /\
  (ps = [] ->
   Bounds.isValid (fold_left Bounds.extend ps None) = false /\
   exists msg,
     Bounds.contains (fold_left Bounds.extend ps None) p
     = Throw (TypeError msg)).
Proof.
  split.
  - assert (Hkeep : forall qs b,
               Bounds.contains b p = Return true ->
               Bounds.contains (fold_left Bounds.extend qs b) p = Return true).
    { induction qs as [| q qs IH]; intros b H; [exact H |].
      cbn [fold_left]. apply IH.
      now apply (proj2 (Bounds_extend_contains b q p)). }
    assert (Hin : forall qs b,
               In p qs ->
               Bounds.contains (fold_left Bounds.extend qs b) p = Return true).
    { induction qs as [| q qs IH]; intros b H; [destruct H |].
      cbn [fold_left]. destruct H as [-> | H].
      - apply Hkeep. apply (proj1 (Bounds_extend_contains b p p)).
      - now apply IH. }
    intros H. pose proof (Hin ps None H) as Hc. split; [exact Hc |].
    destruct (fold_left Bounds.extend ps None); [reflexivity | discriminate].
  - intros ->. split; [reflexivity |]. eexists. reflexivity.
Qed.

Lemma Bounds_contains_extended_witness :
  Bounds.contains
    (fold_left Bounds.extend [Point.mk 1 5; Point.mk 3 2] None) (Point.mk 3 2)
  = Return true.
Proof.
  apply (Bounds_contains_extended [Point.mk 1 5; Point.mk 3 2] (Point.mk 3 2)).
  simpl. auto.
Defined.

Lemma Rmin_swap (a b c : R) : Rmin (Rmin a b) c = Rmin (Rmin a c) b.
Proof.
  unfold Rmin.
  destruct (Rle_dec a b), (Rle_dec a c);
    repeat match goal with
           | |- context [Rle_dec ?u ?v] => destruct (Rle_dec u v)
           end; lra.
Qed.

Lemma Rmax_swap (a b c : R) : Rmax (Rmax a b) c = Rmax (Rmax a c) b.
Proof.
  unfold Rmax.
  destruct (Rle_dec a b), (Rle_dec a c);
    repeat match goal with
           | |- context [Rle_dec ?u ?v] => destruct (Rle_dec u v)
           end; lra.
Qed.

Lemma Rmin_twice (a b : R) : Rmin (Rmin a b) b = Rmin a b.
Proof. apply Rmin_left, Rmin_r. Qed.

Lemma Rmax_twice (a b : R) : Rmax (Rmax a b) b = Rmax a b.
Proof. apply Rmax_left, Rmax_r. Qed.

Lemma Rmin_same (a : R) : Rmin a a = a.
Proof. apply Rmin_left. lra. Qed.

Lemma Rmax_same (a : R) : Rmax a a = a.
Proof. apply Rmax_left. lra. Qed.

(** The bounds do not depend on the order in which two points are
    merged in, and merging a point in twice is merging it in once. *)
Theorem Bounds_extend_order (b : Bounds.t) (p q : Point.t) :
  Bounds.extend (Bounds.extend b p) q = Bounds.extend (Bounds.extend b q) p /\
  Bounds.extend (Bounds.extend b p) p = Bounds.extend b p.
Proof.
  destruct b as [[mn mx] |]; cbn [Bounds.extend Point.clone Point.x Point.y].
  - split.
    + now rewrite (Rmin_swap (Point.x mn)), (Rmin_swap (Point.y mn)),
        (Rmax_swap (Point.x mx)), (Rmax_swap (Point.y mx)).
    + now rewrite !Rmin_twice, !Rmax_twice.
  - split.
    + now rewrite (Rmin_comm (Point.x p)), (Rmin_comm (Point.y p)),
        (Rmax_comm (Point.x p)), (Rmax_comm (Point.y p)).
    + now rewrite !Rmin_same, !Rmax_same.
Qed.

(** ** Projection and scale *)

Lemma clamp_bounds (lat : R) :
  Rabs (Rmax (Rmin MAX_LATITUDE lat) (- MAX_LATITUDE)) <= MAX_LATITUDE.
Proof.
  assert (0 < MAX_LATITUDE) by (unfold MAX_LATITUDE; lra).
  apply Rabs_le. split.
  - apply Rmax_r.
  - apply Rmax_lub; [apply Rmin_l | lra].
Qed.

Lemma clamp_angle (lat : R) :
  Rabs lat <= MAX_LATITUDE ->
  - (PI / 2) < lat * (PI / 180) < PI / 2.
Proof.
  intros H. apply Rabs_le_bounds in H. unfold MAX_LATITUDE in H.
  pose proof PI_RGT_0. split; nra.
Qed.

(** [unproject] after [project] gives the longitude back and the
    latitude clamped to +-MAX_LATITUDE: a latitude beyond the clamp
    comes back as the clamp, and projects as the clamp does. *)
Theorem unproject_project_clamps (ll : LatLng.t) :
  let lat := Rmax (Rmin MAX_LATITUDE (LatLng.lat ll)) (- MAX_LATITUDE) in
  unproject (project ll) = LatLng.mk lat (LatLng.lng ll) /\
  project (LatLng.mk lat (LatLng.lng ll)) = project ll.
Proof.
  intros lat. subst lat.
  pose proof (clamp_bounds (LatLng.lat ll)) as Hb.
  set (lat := Rmax (Rmin MAX_LATITUDE (LatLng.lat ll)) (- MAX_LATITUDE)) in *.
  assert (HR : 0 < earthRadius) by (unfold earthRadius; lra).
  pose proof PI_RGT_0.
  split.
  - unfold unproject, project. cbn [Point.x Point.y]. fold lat.
    change (Rmax (Rmin MAX_LATITUDE (LatLng.lat ll)) (- MAX_LATITUDE)) with lat.
    replace (earthRadius
             * ln ((1 + sin (lat * (PI / 180))) / (1 - sin (lat * (PI / 180))))
             / 2 / earthRadius)
      with (ln ((1 + sin (lat * (PI / 180))) / (1 - sin (lat * (PI / 180))))
            / 2) by (field; lra).
    rewrite mercator_latitude_inverse by now apply clamp_angle.
    f_equal; field; lra.
  - unfold project. cbn [LatLng.lat LatLng.lng].
    change (Rmax (Rmin MAX_LATITUDE (LatLng.lat ll)) (- MAX_LATITUDE)) with lat.
    now rewrite (MAX_LATITUDE_clamp lat Hb).
Qed.

Lemma atan_exp_bounds (t : R) : 0 < atan (exp t) < PI / 2.
Proof.
  split.
  - rewrite <- atan_0. apply atan_increasing. apply exp_pos.
  - apply atan_bound.
Qed.

Lemma project_unproject_exact (p : Point.t) :
  Rabs (LatLng.lat (unproject p)) <= MAX_LATITUDE ->
  project (unproject p) = Point.mk (Point.x p) (Point.y p).
Proof.
  intros Hlat.
  assert (HR : 0 < earthRadius) by (unfold earthRadius; lra).
  pose proof PI_RGT_0.
  unfold project. rewrite (MAX_LATITUDE_clamp _ Hlat).
  unfold unproject. cbn [LatLng.lat LatLng.lng].
  set (t := Point.y p / earthRadius).
  pose proof (atan_exp_bounds t) as Ha.
  set (phi := 2 * atan (exp t) - PI / 2).
  replace (phi * (180 / PI) * (PI / 180)) with phi by (field; lra).
  destruct (tan_quarter_turn phi ltac:(unfold phi; lra)) as [_ Hsq].
  replace (PI / 4 + phi / 2) with (atan (exp t)) in Hsq by (unfold phi; lra).
  rewrite tan_atan in Hsq. rewrite <- Hsq. unfold Rsqr.
  rewrite <- exp_plus, ln_exp.
  f_equal; unfold t; field; lra.
Qed.

(** [project] after [unproject] gives the point back, provided the
    latitude that [unproject] finds is within the clamp. *)
Theorem project_unproject (p : Point.t) :
  Rabs (LatLng.lat (unproject p)) <= 85.0511287798 ->
  project (unproject p) = Point.mk (Point.x p) (Point.y p).
Proof.
  apply project_unproject_exact.
Qed.

Lemma unproject_origin : unproject (Point.mk 0 0) = LatLng.mk 0 0.
Proof.
  unfold unproject. cbn [Point.x Point.y].
  replace (0 / earthRadius) with 0 by (unfold earthRadius; field).
  rewrite exp_0, atan_1. pose proof PI_neq0.
  f_equal; unfold earthRadius; field; try split; try assumption; lra.
Qed.

Lemma project_unproject_witness :
  project (unproject (Point.mk 0 0)) = Point.mk 0 0.
Proof.
  apply (project_unproject (Point.mk 0 0)).
  rewrite unproject_origin. simpl. rewrite Rabs_R0. lra.
Defined.




Lemma CRS_scale_succ (z : R) : CRS.scale (z + 1) = 2 * CRS.scale z.
Proof.
  unfold CRS.scale, Math_pow, Rpower.
  rewrite Rmult_plus_distr_r, exp_plus, Rmult_1_l, exp_ln by lra. ring.
Qed.

(** [CRS.zoom] undoes [CRS.scale] at every zoom, [CRS.scale] undoes
    [CRS.zoom] at every positive scale, and one zoom level more doubles
    the scale. *)
Theorem CRS_scale_zoom_inverse (z s : R) :
  CRS.zoom (CRS.scale z) = z /\
  CRS.scale (z + 1) = 2 * CRS.scale z /\
  (0 < s -> CRS.scale (CRS.zoom s) = s).
Proof.
  pose proof ln_2_pos as H2.
  split; [| split; [apply CRS_scale_succ |]];
    unfold CRS.zoom, CRS.scale, Math_pow, Math_LN2, Rpower.
  - replace (256 * exp (z * ln 2) / 256) with (exp (z * ln 2)) by field.
    rewrite ln_exp. field. lra.
  - intros Hs.
    replace (ln (s / 256) / ln 2 * ln 2) with (ln (s / 256)) by (field; lra).
    rewrite exp_ln by lra. field.
Qed.

Lemma CRS_scale_zoom_inverse_witness : CRS.scale (CRS.zoom 512) = 512.
Proof.
  apply (CRS_scale_zoom_inverse 0 512). lra.
Defined.

(** The zoom scale only depends on the difference of the two zooms, it
    is 1 from a zoom to itself, and it multiplies along a chain of
    zooms. *)
Theorem getZoomScale_power (m : Map.t) (a b c : R) :
  Map.getZoomScale m a (Some b) = Math_pow 2 (a - b) /\
  Map.getZoomScale m (Map._zoom m) None = 1 /\
  Map.getZoomScale m a (Some b) * Map.getZoomScale m b (Some c)
  = Map.getZoomScale m a (Some c).
Proof.
  assert (H : forall u v, CRS.scale u / CRS.scale v = Math_pow 2 (u - v)).
  { intros u v. unfold CRS.scale, Math_pow.
    pose proof (Math_pow_2_pos v) as Hv. unfold Math_pow in Hv.
    unfold Rminus. rewrite Rpower_plus, Rpower_Ropp. field. lra. }
  unfold Map.getZoomScale. rewrite !H.
  split; [reflexivity |]. split.
  - rewrite Rminus_diag. unfold Math_pow. apply Rpower_O. lra.
  - unfold Math_pow. rewrite <- Rpower_plus. f_equal. ring.
Qed.


(** ** The view of the map *)

(** For a container whose client size is not negative, the pixel
    bounds go from the pixel origin to the pixel origin plus the size
    and contain exactly the points between these two corners; over
    exact arithmetic their size is the size of the viewport (in double
    arithmetic (origin + size) - origin can differ from the size in the
    last place). *)
Theorem getPixelBounds_viewport (m : Map.t) (p : Point.t) :
  0 <= Point.x (Map.clientSize m) -> 0 <= Point.y (Map.clientSize m) ->
  let o := Map._pixelOrigin m in
  let size := Map.getSize m in
  Map.getPixelBounds m
  = Some (Point.mk (Point.x o) (Point.y o), Point.add o size) /\
  (Bounds.contains (Map.getPixelBounds m) p = Return true <->
   Point.x o <= Point.x p <= Point.x o + Point.x size /\
   Point.y o <= Point.y p <= Point.y o + Point.y size) /\
  Bounds.getSize (Map.getPixelBounds m) = Return size.
Proof.
  intros Hx Hy o size.
  assert (H : Map.getPixelBounds m
              = Some (Point.mk (Point.x o) (Point.y o), Point.add o size)).
  { unfold o, size, Map.getPixelBounds, Bounds.new, Bounds.extend, Point.clone,
      Point.add, Map.getSize.
    cbn [Point.x Point.y].
    rewrite !Rmin_left, !Rmax_right by lra. reflexivity. }
  split; [exact H |]. rewrite H. split.
  - rewrite Bounds_contains_iff. unfold Point.add. cbn [Point.x Point.y].
    reflexivity.
  - unfold Bounds.getSize, Point.subtract, Point.add, size, Map.getSize.
    cbn [Point.x Point.y]. do 2 f_equal; ring.
Qed.

Lemma getPixelBounds_viewport_witness :
  let m := Map.new (Point.mk 600 400) (Map.mkOptions None None) in
  Bounds.getSize (Map.getPixelBounds m) = Return (Map.getSize m).
Proof.
  intros m. apply (getPixelBounds_viewport m (Point.mk 0 0)); simpl; lra.
Defined.

Lemma Math_round_half (w : Z) : Math_round (IZR w / 2) = IZR ((w + 1) / 2).
Proof.
  unfold Math_round. f_equal.
  replace (IZR w / 2 + / 2) with (IZR (w + 1) / IZR 2)
    by (rewrite plus_IZR; field).
  apply Zfloor_IZR_div. lia.
Qed.

(** Over exact arithmetic, after setView the centre of the map is at the
    middle of the viewport, whatever the centre and the zoom are: for a
    viewport w pixels wide and h pixels high at the container point
    ((w + 1) div 2, (h + 1) div 2), which is (w / 2, h / 2) for even
    sizes.  (In double arithmetic the difference handed to round can
    fall just below the tie of an odd size, and the centre is then one
    pixel lower.) *)
Theorem setView_centre_in_the_middle (m : Map.t) (latlng : Map.Center)
  (zoom : R) (w h : Z) :
  Map.clientSize m = Point.mk (IZR w) (IZR h) ->
  let m' := Map.setView m latlng zoom in
  Map.latLngToContainerPoint m' (Map.getCenter m')
  = Point.mk (IZR ((w + 1) / 2)) (IZR ((h + 1) / 2)).
Proof.
  intros Hsize m'.
  destruct (setView_spec m latlng zoom) as (Hc & Hz & Ho & Hs & _).
  fold m' in Hc, Hz, Ho, Hs.
  unfold Map.latLngToContainerPoint, Map.getCenter. rewrite Ho, Hc.
  unfold Map.project, Map.getSize. rewrite Hz, Hs, Hsize.
  unfold Point.round, Point.subtract, Point.divideBy, Point.multiplyBy.
  cbn [Point.x Point.y].
  rewrite <- !Math_round_half. f_equal; f_equal; ring.
Qed.

Lemma setView_centre_in_the_middle_witness :
  let m := Map.new (Point.mk (IZR 601) (IZR 400)) (Map.mkOptions None None) in
  let m' := Map.setView m (Map.Array 0 0) 3 in
  Map.latLngToContainerPoint m' (Map.getCenter m') = Point.mk (IZR 301) (IZR 200).
Proof.
  intros m.
  apply (setView_centre_in_the_middle m (Map.Array 0 0) 3 601 400).
  reflexivity.
Defined.

Lemma Map_project_unproject (m : Map.t) (q : Point.t) (z : option R) :
  Rabs (LatLng.lat (Map.unproject m q z)) <= MAX_LATITUDE ->
  Map.project m (Map.unproject m q z) z = Point.mk (Point.x q) (Point.y q).
Proof.
  intros Hlat. unfold Map.project, Map.unproject in *.
  set (zoom := match z with Some z0 => z0 | None => Map._zoom m end) in *.
  pose proof (CRS_scale_pos zoom) as Hk.
  assert (HR : 0 < earthRadius) by (unfold earthRadius; lra).
  rewrite (project_unproject_exact _ Hlat).
  unfold Point.multiplyBy, Point.divideBy. cbn [Point.x Point.y].
  f_equal; field; lra.
Qed.

(** Over exact arithmetic, a container point taken to its LatLng and
    back comes back with each coordinate rounded to the nearest integer,
    a tie going up, so a point with integer coordinates comes back as it
    is; this holds when the latitude found is within the clamp of the
    projection. *)
Theorem containerPoint_round_trip (m : Map.t) (p : Point.t) :
  Rabs (LatLng.lat (Map.containerPointToLatLng m p)) <= 85.0511287798 ->
  Map.latLngToContainerPoint m (Map.containerPointToLatLng m p)
  = Point.mk (IZR (Zfloor (Point.x p + / 2))) (IZR (Zfloor (Point.y p + / 2))) /\
  (forall i j : Z,
      p = Point.mk (IZR i) (IZR j) ->
      Map.latLngToContainerPoint m (Map.containerPointToLatLng m p) = p).
Proof.
  intros Hlat. fold MAX_LATITUDE in Hlat.
  assert (H : Map.latLngToContainerPoint m (Map.containerPointToLatLng m p)
              = Point.round p).
  { unfold Map.latLngToContainerPoint, Map.containerPointToLatLng in *.
    rewrite (Map_project_unproject _ _ _ Hlat).
    unfold Point.round, Point.subtract, Point.add. cbn [Point.x Point.y].
    f_equal; f_equal; ring. }
  rewrite H. split; [reflexivity |].
  intros i j ->. unfold Point.round. cbn [Point.x Point.y].
  now rewrite !Math_round_IZR.
Qed.

Lemma project_origin : project (LatLng.mk 0 0) = Point.mk 0 0.
Proof.
  rewrite project_equator. f_equal. ring.
Qed.

Lemma unproject_equator (x : R) : LatLng.lat (unproject (Point.mk x 0)) = 0.
Proof.
  unfold unproject. cbn [LatLng.lat Point.y].
  replace (0 / earthRadius) with 0 by (unfold earthRadius; field).
  rewrite exp_0, atan_1. pose proof PI_neq0. field. assumption.
Qed.

Lemma containerPoint_round_trip_witness :
  let m := Map.new (Point.mk 600 400) (Map.mkOptions None None) in
  let p := Point.mk (3004 / 10) 200 in
  Map.latLngToContainerPoint m (Map.containerPointToLatLng m p)
  = Point.mk (IZR (Zfloor (Point.x p + / 2))) (IZR (Zfloor (Point.y p + / 2))).
Proof.
  intros m p. apply (containerPoint_round_trip m p).
  assert (H : LatLng.lat (Map.containerPointToLatLng m p) = 0).
  { unfold m, p, Map.containerPointToLatLng, Map.new, Map.setView,
      Map._resetView, Map._updateLayers, Map.fire, Map.unproject, Map.project,
      Map.getSize.
    cbn [Map._pixelOrigin Map._zoom Map._center Map.clientSize Map.center
         Map.zoom].
    rewrite project_origin.
    unfold Point.multiplyBy, Point.divideBy, Point.subtract, Point.add.
    cbn [Point.x Point.y].
    pose proof (CRS_scale_pos 1) as Hk.
    match goal with
    | |- LatLng.lat (unproject (Point.mk ?a ?b)) = 0 =>
        replace b with 0 by (unfold earthRadius; field; lra)
    end.
    apply unproject_equator. }
  rewrite H, Rabs_R0. lra.
Defined.

(** On a map made by the constructor and changed by any operations,
    at an integer zoom, zoomIn followed by zoomOut with the same integer
    delta (1 when none is given) gives back the zoom, the centre and the
    pixel origin, and leaves the pan pane at (0,0).  Integers of this
    size are added and subtracted exactly in double arithmetic too. *)
Theorem zoomIn_zoomOut_restores (size : Point.t) (options : Map.Options)
  (ops : list Map.Op) (z : Z) (delta : option Z) :
  let m := Map.run (Map.new size options) ops in
  let d := option_map IZR delta in
  Map._zoom m = IZR z ->
  (Z.abs z <= 2 ^ 52)%Z ->
  (Z.abs match delta with Some k => k | None => 1 end <= 2 ^ 52)%Z ->
  let m' := Map.zoomOut (Map.zoomIn m d) d in
  Map._zoom m' = Map._zoom m /\
  Map._center m' = Map._center m /\
  Map._pixelOrigin m' = Map._pixelOrigin m /\
  Map._getMapPanePos m' = Point.mk 0 0.
Proof.
  intros m delta' _ _ _ m'.
  assert (Hm : derived m).
  { apply run_derived. apply setView_derived. }
  set (d := match delta' with Some d => d | None => 1 end).
  unfold m', Map.zoomOut, Map.zoomIn, Map.setZoom. fold d.
  set (m1 := Map.setView m (Map.Instance (Map._center m)) (Map._zoom m + d)).
  destruct (setView_spec m (Map.Instance (Map._center m)) (Map._zoom m + d))
    as (Hc1 & Hz1 & _ & Hs1 & _).
  fold m1 in Hc1, Hz1, Hs1.
  destruct (setView_spec m1 (Map.Instance (Map._center m1)) (Map._zoom m1 - d))
    as (Hc2 & Hz2 & Ho2 & Hs2 & Hp2 & _).
  set (m2 := Map.setView m1 (Map.Instance (Map._center m1)) (Map._zoom m1 - d))
    in *.
  assert (Hz : Map._zoom m2 = Map._zoom m) by (rewrite Hz2, Hz1; ring).
  split; [exact Hz |]. split; [now rewrite Hc2, Hc1 |].
  split.
  - rewrite Ho2, Hm. unfold Map.project, Map.getSize.
    rewrite Hc1, Hs2, Hs1. rewrite <- Hz2, Hz. reflexivity.
  - unfold Map._getMapPanePos. now rewrite Hp2.
Qed.

Lemma zoomIn_zoomOut_restores_witness :
  let m := Map.new (Point.mk 600 400) (Map.mkOptions None None) in
  let m' := Map.zoomOut (Map.zoomIn m (Some (IZR 2))) (Some (IZR 2)) in
  Map._zoom m' = Map._zoom m /\
  Map._center m' = Map._center m /\
  Map._pixelOrigin m' = Map._pixelOrigin m /\
  Map._getMapPanePos m' = Point.mk 0 0.
Proof.
  apply (zoomIn_zoomOut_restores (Point.mk 600 400) (Map.mkOptions None None)
                                 [] 1 (Some 2%Z)); [reflexivity | lia | lia].
Defined.

Lemma moveends_app (es fs : list Effect) :
  moveends (es ++ fs) = (moveends es + moveends fs)%nat.
Proof.
  induction es as [| e es IH]; [reflexivity |].
  destruct e as [type called |]; cbn [app moveends]; [| exact IH].
  destruct (String.eqb type "moveend"); cbn; now rewrite IH.
Qed.

Lemma animate_moveends (s : PosAnimation.Scene) (now : R) :
  moveends (PosAnimation.log (PosAnimation._animate s now))
  = moveends (PosAnimation.log s).
Proof.
  destruct (animate_spec s now) as (_ & _ & _ & _ & [(_ & _ & ->) | (_ & _ & _ & ->)]);
    [reflexivity |].
  rewrite moveends_app. cbn. lia.
Qed.

Lemma step_moveends (m : Map.t) (op : Map.Op) :
  moveends (Map.effects (Map.step m op))
  = (moveends (Map.effects m) + if is_call op then 1 else 0)%nat.
Proof.
  assert (Hset : forall m c z,
             moveends (Map.effects (Map.setView m c z))
             = (moveends (Map.effects m) + 1)%nat).
  { intros m0 c z. destruct (setView_spec m0 c z) as (_ & _ & _ & _ & _ & ->).
    rewrite moveends_app. reflexivity. }
  assert (Hpan : forall m o p t0 t1,
             moveends (Map.effects (Map.panBy m o p t0 t1))
             = (moveends (Map.effects m) + 1)%nat).
  { intros m0 o p t0 t1. unfold Map.panBy.
    destruct (Map.animate p) as [[|] |];
      cbn [Map.fire Map.effects]; rewrite moveends_app;
      try reflexivity;
      unfold PosAnimation.run; rewrite animate_moveends;
      cbn [PosAnimation.log]; now rewrite (proj2 (stop_spec _)). }
  destruct op as [l z | z | d | d | o p t0 t1 | l p t0 t1 | now];
    cbn [Map.step is_call];
    unfold Map.zoomIn, Map.zoomOut, Map.setZoom, Map.panTo;
    try apply Hset; try apply Hpan.
  unfold Map.animationFrame.
  destruct (Map._panAnim m) as [a |]; [| lia].
  cbn [Map.effects]. unfold PosAnimation.frame.
  cbn [PosAnimation.host PosAnimation.anim PosAnimation.el PosAnimation.log].
  destruct (PosAnimation.pending (Map.host m)); [| cbn; lia].
  rewrite animate_moveends. cbn. lia.
Qed.

(** moveend is fired once by the constructor and once by every call of
    setView, setZoom, zoomIn, zoomOut, panBy and panTo, animated or not;
    the frames of an animation fire none. *)
Theorem moveend_once_per_call (size : Point.t) (options : Map.Options)
  (ops : list Map.Op) :
  moveends (Map.effects (Map.run (Map.new size options) ops))
  = S (List.length (filter is_call ops)).
Proof.
  assert (Hrun : forall ops m,
             moveends (Map.effects (Map.run m ops))
             = (moveends (Map.effects m) + List.length (filter is_call ops))%nat).
  { clear ops. induction ops as [| op ops IH]; intros m; [cbn; lia |].
    unfold Map.run in *. cbn [fold_left filter]. rewrite IH, step_moveends.
    destruct (is_call op); cbn [List.length]; lia. }
  rewrite Hrun. unfold Map.new.
  match goal with
  | |- context [Map.setView ?m ?c ?z] =>
      destruct (setView_spec m c z) as (_ & _ & _ & _ & _ & ->)
  end.
  reflexivity.
Qed.

(** ** The pan animation *)


Lemma animate_in_flight (s : PosAnimation.Scene) (now : R) :
  now - PosAnimation._startTime (PosAnimation.anim s)
  < PosAnimation._duration (PosAnimation.anim s) ->
  let a := PosAnimation.anim s in
  let t := (now - PosAnimation._startTime a) / PosAnimation._duration a in
  PosAnimation.el (PosAnimation._animate s now)
  = Some (Point.add (PosAnimation._startPos a)
                    (Point.multiplyBy (PosAnimation._offset a)
                                      (1 - (1 - t) ^ 2))) /\
  PosAnimation.pending (PosAnimation.host (PosAnimation._animate s now))
  <> None.
Proof.
  intros H a t. unfold PosAnimation._animate.
  destruct (Rlt_dec (now - PosAnimation._startTime (PosAnimation.anim s))
                    (PosAnimation._duration (PosAnimation.anim s)));
    [| contradiction].
  cbn. split; [reflexivity | discriminate].
Qed.



Lemma panBy_in_flight (m : Map.t) (offset : R * R) (options : Map.PanOptions)
  (t0 t1 : R) :
  Map.animate options <> Some false ->
  t1 - t0
  < match Map.duration options with Some d => d | None => 0.25 end * 1000 ->
  PosAnimation.pending (Map.host (Map.panBy m offset options t0 t1)) <> None.
Proof.
  intros Hanim Hlt. unfold Map.panBy.
  destruct (Map.animate options) as [[|] |]; try congruence;
    cbn [Map.fire Map.host]; unfold PosAnimation.run;
    apply animate_in_flight; cbn [PosAnimation.anim PosAnimation._startTime
                                  PosAnimation._duration]; exact Hlt.
Qed.

(** setView does not stop a pan animation that is under way: it puts
    the pane at (0,0), and the next frame after the duration puts the
    pane at the target of the pan, with the view fields as setView set
    them. *)
Theorem setView_does_not_stop_pan (m : Map.t) (offset : R * R)
  (options : Map.PanOptions) (t0 t1 now : R) (latlng : Map.Center) (zoom : R) :
  let span := match Map.duration options with
              | Some d => d
              | None => 0.25
              end * 1000 in
  Map.animate options <> Some false ->
  t1 - t0 < span ->
  span <= now - t0 ->
  let m1 := Map.panBy m offset options t0 t1 in
  let m2 := Map.setView m1 latlng zoom in
  let m3 := Map.animationFrame m2 now in
  Map._getMapPanePos m2 = Point.mk 0 0 /\
  Map._getMapPanePos m3
  = Point.subtract (Map._getMapPanePos m) (Point.mk (fst offset) (snd offset)) /\
  Map._center m3 = Map._center m2 /\
  Map._zoom m3 = Map._zoom m2 /\
  Map._pixelOrigin m3 = Map._pixelOrigin m2.
Proof.
  intros span Hanim Hlt Hge m1 m2 m3.
  pose proof (panBy_animated_panning m offset options t0 t1 Hanim)
    as (a & Ha & Hadd & Ht & Hd & _).
  pose proof (panBy_in_flight m offset options t0 t1 Hanim Hlt) as Hp.
  fold m1 in Ha, Hp.
  assert (Hpan : panning (Point.subtract (Map._getMapPanePos m)
                            (Point.mk (fst offset) (snd offset)))
                         t0 span m2).
  { exists a. split; [exact Ha |]. split; [exact Hadd |].
    split; [exact Ht |]. split; [exact Hd |].
    intros Hn. exfalso. apply Hp. exact Hn. }
  destruct (animationFrame_panning _ _ _ m2 now Hpan)
    as [(a' & _ & _ & _ & _ & Hrest) Hstop].
  destruct (animationFrame_fields m2 now) as (Hc & Hz & Ho & _).
  split; [| split; [| split; [| split]]]; try assumption.
  - unfold Map._getMapPanePos. destruct (setView_spec m1 latlng zoom)
      as (_ & _ & _ & _ & Hpos & _).
    fold m2 in Hpos. now rewrite Hpos.
  - apply Hrest. now apply Hstop.
Qed.

Lemma setView_does_not_stop_pan_witness :
  let m := Map.new (Point.mk 600 400) (Map.mkOptions None None) in
  let m1 := Map.panBy m (10, 20) (Map.mkPanOptions None None) 0 0 in
  let m2 := Map.setView m1 (Map.Array 0 0) 2 in
  Map._getMapPanePos (Map.animationFrame m2 250)
  = Point.subtract (Map._getMapPanePos m) (Point.mk 10 20).
Proof.
  intros m m1 m2.
  apply (setView_does_not_stop_pan m (10, 20) (Map.mkPanOptions None None)
                                   0 0 250 (Map.Array 0 0) 2);
    simpl; try discriminate; lra.
Defined.

Lemma stop_cancels (s : PosAnimation.Scene) :
  (forall id, PosAnimation.pending (PosAnimation.host s) = Some id ->
              PosAnimation._animId (PosAnimation.anim s) = Some id) ->
  PosAnimation.pending (PosAnimation.host (PosAnimation.stop s)) = None.
Proof.
  intros Hown. unfold PosAnimation.stop.
  destruct (PosAnimation._animId (PosAnimation.anim s)) as [id |] eqn:Hid.
  - cbn [PosAnimation.host]. unfold PosAnimation.cancelAnimFrame.
    destruct (PosAnimation.pending (PosAnimation.host s)) as [id' |] eqn:Hp;
      [| exact Hp].
    specialize (Hown id' eq_refl). injection Hown as ->.
    now rewrite Nat.eqb_refl.
  - destruct (PosAnimation.pending (PosAnimation.host s)) as [id' |] eqn:Hp;
      [| reflexivity].
    specialize (Hown id' eq_refl). discriminate.
Qed.

Lemma animate_owned (s : PosAnimation.Scene) (now : R) (id : nat) :
  PosAnimation.pending (PosAnimation.host s) = None ->
  PosAnimation.pending (PosAnimation.host (PosAnimation._animate s now))
  = Some id ->
  PosAnimation._animId (PosAnimation.anim (PosAnimation._animate s now))
  = Some id.
Proof.
  intros Hnone. unfold PosAnimation._animate.
  destruct (Rlt_dec _ _); cbn; [auto | congruence].
Qed.

Lemma scene_of_owned (m : Map.t) :
  frame_owned m ->
  forall id,
    PosAnimation.pending (Map.host m) = Some id ->
    PosAnimation._animId
      match Map._panAnim m with
      | Some a => a
      | None => PosAnimation.new
      end = Some id.
Proof.
  intros Hown id Hp. destruct (Hown id Hp) as (a & -> & Ha). exact Ha.
Qed.

Lemma step_frame_owned (m : Map.t) (op : Map.Op) :
  frame_owned m -> frame_owned (Map.step m op).
Proof.
  intros Hown.
  assert (Hset : forall c z, frame_owned (Map.setView m c z)).
  { intros c z id Hp. exact (Hown id Hp). }
  assert (Hpan : forall o p t0 t1, frame_owned (Map.panBy m o p t0 t1)).
  { intros o p t0 t1 id. unfold Map.panBy.
    destruct (Map.animate p) as [[|] |];
      cbn [Map.fire Map.host Map._panAnim]; try apply Hown;
      intros Hp; eexists; (split; [reflexivity |]);
      unfold PosAnimation.run in *;
      (apply animate_owned; [| exact Hp]);
      cbn [PosAnimation.host]; apply stop_cancels;
      cbn [PosAnimation.host PosAnimation.anim]; now apply scene_of_owned. }
  destruct op as [l z | z | d | d | o p t0 t1 | l p t0 t1 | now];
    cbn [Map.step];
    unfold Map.zoomIn, Map.zoomOut, Map.setZoom, Map.panTo;
    try apply Hset; try apply Hpan.
  intros id. unfold Map.animationFrame.
  destruct (Map._panAnim m) as [a |] eqn:Ha; [| apply Hown].
  cbn [Map.host Map._panAnim]. unfold PosAnimation.frame.
  cbn [PosAnimation.host PosAnimation.anim PosAnimation.el PosAnimation.log].
  destruct (PosAnimation.pending (Map.host m)) as [id' |] eqn:Hp.
  - intros Hp'. eexists. split; [reflexivity |].
    apply animate_owned; [reflexivity | exact Hp'].
  - cbn [PosAnimation.host]. rewrite Hp. discriminate.
Qed.

(** On a map made by the constructor and changed by any calls and
    frames, a frame callback that waits is the one the pan animation
    has recorded in _animId; so the stop() that opens every run()
    cancels it, and a new pan never leaves the frame of the previous
    one waiting beside its own. *)
Theorem one_frame_at_a_time (size : Point.t) (options : Map.Options)
  (ops : list Map.Op) :
  let m := Map.run (Map.new size options) ops in
  (forall id,
      PosAnimation.pending (Map.host m) = Some id ->
      exists a, Map._panAnim m = Some a /\ PosAnimation._animId a = Some id) /\
  (forall a,
      Map._panAnim m = Some a ->
      PosAnimation.pending
        (PosAnimation.host
           (PosAnimation.stop
              (PosAnimation.mkScene a (Map._mapPane m) (Map.host m)
                                    (Map.effects m)))) = None).
Proof.
  intros m.
  assert (Hown : frame_owned m).
  { unfold m, Map.run.
    assert (Hnew : frame_owned (Map.new size options))
      by (intros id Hp; discriminate Hp).
    revert Hnew. generalize (Map.new size options).
    induction ops as [| op ops IH]; intros m0 H0; [exact H0 |].
    cbn [fold_left]. apply IH. now apply step_frame_owned. }
  split; [exact Hown |].
  intros a Ha. apply stop_cancels. cbn [PosAnimation.host PosAnimation.anim].
  intros id Hp. destruct (Hown id Hp) as (a' & Ha' & Hid). congruence.
Qed.

(** ** More on objects *)

Section ObjMore.
Context {K V : Type}.
Variable eqb : K -> K -> bool.
Hypothesis eqb_eq : forall a b, eqb a b = true <-> a = b.




End ObjMore.

(** ** Tiles *)




Section TilesToLoad.
Variable zoom : R.
Variable ys : list R.








End TilesToLoad.


Lemma js_range_In (a b v : R) :
  In v (js_range a b) <-> exists k : nat, v = a + INR k /\ v <= b.
Proof.
  unfold js_range. destruct (Rle_dec a b) as [Hab | Hab].
  - pose proof (Zfloor_bound (b - a)) as [Hf1 Hf2].
    assert (Hf0 : (0 <= Zfloor (b - a))%Z) by (apply Zfloor_lub; cbn; lra).
    rewrite in_map_iff. split.
    + intros (k & <- & Hk). apply in_seq in Hk. exists k. split; [reflexivity |].
      assert (Hle : (Z.of_nat k <= Zfloor (b - a))%Z) by lia.
      apply IZR_le in Hle. rewrite <- INR_IZR_INZ in Hle. lra.
    + intros (k & -> & Hk). exists k. split; [reflexivity |].
      apply in_seq.
      assert (Hle : (Z.of_nat k <= Zfloor (b - a))%Z).
      { apply Zfloor_lub. rewrite <- INR_IZR_INZ. lra. }
      lia.
  - split; [intros [] |].
    intros (k & -> & Hk). pose proof (pos_INR k). lra.
Qed.

(** The values of the loop for (v = a; v <= b; v++) are a, a + 1,
    and so on, as long as they are at most b: every integer tile index
    from an integer a to b is among them, and nothing above b is. *)
Theorem js_range_integers (a : Z) (b : R) (i : Z) :
  In (IZR i) (js_range (IZR a) b) <-> (a <= i)%Z /\ IZR i <= b.
Proof.
  rewrite js_range_In. split.
  - intros (k & Hv & Hb). split; [| exact Hb].
    rewrite INR_IZR_INZ, <- plus_IZR in Hv. apply eq_IZR in Hv. lia.
  - intros [Hai Hb]. exists (Z.to_nat (i - a)). split; [| exact Hb].
    rewrite INR_IZR_INZ, <- plus_IZR. f_equal. lia.
Qed.

(** *** What one update does to the tiles *)

Section UpdateDiff.
Variable toString : R -> string.
Variable this : TileLayer.t.

Let Tiles : Type := Obj TileLayer.Key TileLayer.Tile.

Let add (acc : Tiles * list TileLayer.DomOp)
    (kc : TileLayer.Key * TileLayer.Coords) :=
  if obj_has TileLayer.key_eqb (fst acc) (fst kc) then acc
  else (obj_set TileLayer.key_eqb (fst acc) (fst kc)
                (TileLayer.createTile toString this (snd kc)),
        snd acc ++ [TileLayer.AppendChild (fst kc)]).


End UpdateDiff.




(** onRemove takes the layer off the map that it is on.  A layer that
    is on no map has no _map, and the call throws a TypeError.  For a
    layer on a map that has listeners it throws at the call of off with
    the type as a string, before anything is removed; for a layer on a
    map that never had a listener it returns, removes every tile in
    order and unsets _map, and the map keeps no listener. *)
Theorem onRemove_cases (fn : Evented.Fn) (map : Map.t) (layer : TileLayer.t) :
  (TileLayer._map layer = false ->
   TileLayer.onRemove fn map layer
   = Throw (TypeError "this._map is undefined")) /\
  (TileLayer._map layer = true -> Map._events map <> None ->
   exists msg, TileLayer.onRemove fn map layer = Throw (TypeError msg)) /\
  (TileLayer._map layer = true -> Map._events map = None ->
   exists layer' map',
     TileLayer.onRemove fn map layer
     = Return (layer', map',
               List.map (fun kt => TileLayer.RemoveChild (fst kt))
                        (TileLayer._tiles layer)) /\
     TileLayer._tiles layer' = [] /\
     TileLayer._map layer' = false /\
     Map._events map' = None).
Proof.
  unfold TileLayer.onRemove, Map.off. split; [| split].
  - now intros ->.
  - intros ->. destruct (Map._events map) as [ev |]; [| congruence].
    intros _. eexists. reflexivity.
  - intros -> ->. eexists. eexists. cbn. repeat split.
Qed.

Lemma onRemove_cases_witness :
  let map := Map.new (Point.mk 600 400) (Map.mkOptions None None) in
  let layer := TileLayer.mk "https://x/{z}/{x}/{y}.png" 256 true [] None in
  exists layer' map',
    TileLayer.onRemove 1%nat map layer = Return (layer', map', []) /\
    TileLayer._tiles layer' = [] /\
    TileLayer._map layer' = false /\
    Map._events map' = None.
Proof.
  intros map layer.
  apply (proj2 (proj2 (onRemove_cases 1%nat map layer))); reflexivity.
Defined.

Lemma occursb_false (pat s : string) :
  occursb pat s = false -> forall a b, s <> (a ++ pat ++ b)%string.
Proof.
  induction s as [| c s IH]; cbn [occursb].
  - destruct (prefix pat "") eqn:E; [discriminate |].
    intros _ a b H. destruct a; [| discriminate].
    destruct pat; discriminate.
  - destruct (prefix pat (String c s)) eqn:E; [discriminate |].
    intros Hs a b H. destruct a as [| c' a].
    + cbn in H. rewrite H, prefix_append in E. discriminate.
    + cbn in H. injection H as _ H. exact (IH Hs a b H).
Qed.

Lemma replace_absent_id (pat rep s : string) :
  occursb pat s = false -> replace pat rep s = s.
Proof.
  intros H. pose proof (occursb_false pat s H) as Hno.
  destruct (replace_first pat rep s) as [[_ Heq] | (a & b & Hs & _)];
    [exact Heq |].
  exfalso. exact (Hno a b Hs).
Qed.

(** A template in which none of {x}, {y}, {z} occurs is the tile URL
    of every tile: such a template, and any other text in braces such
    as {s}, passes through as it is. *)
Theorem getTileUrl_without_placeholders (toString : R -> string)
  (layer : TileLayer.t) (coords : TileLayer.Coords) :
  occursb "{x}" (TileLayer._url layer) = false ->
  occursb "{y}" (TileLayer._url layer) = false ->
  occursb "{z}" (TileLayer._url layer) = false ->
  TileLayer._getTileUrl toString layer coords = TileLayer._url layer.
Proof.
  intros Hx Hy Hz. unfold TileLayer._getTileUrl.
  rewrite (replace_absent_id "{x}" _ _ Hx).
  rewrite (replace_absent_id "{y}" _ _ Hy).
  now rewrite (replace_absent_id "{z}" _ _ Hz).
Qed.

Lemma getTileUrl_without_placeholders_witness :
  TileLayer._getTileUrl (fun _ => "7"%string)
    (TileLayer.new "https://{s}.tile.example.org/tile.png" None)
    (TileLayer.mkCoords 1 2 3)
  = "https://{s}.tile.example.org/tile.png"%string.
Proof.
  apply (getTileUrl_without_placeholders
           (fun _ => "7"%string)
           (TileLayer.new "https://{s}.tile.example.org/tile.png" None)
           (TileLayer.mkCoords 1 2 3)); reflexivity.
Defined.

(** ** Utilities *)

Lemma Math_pow_10_pos (e : R) : 0 < Math_pow 10 e.
Proof. unfold Math_pow, Rpower. apply exp_pos. Qed.

(** formatNum changes a number by at most half a unit of the last
    digit kept, that is by 1 / (2 * 10^digits), and a number that was
    formatted is its own format. *)
Theorem formatNum_rounds (num : R) (digits : option R) :
  let pow := Math_pow 10 match digits with Some d => d | None => 6 end in
  Rabs (Util.formatNum num digits - num) <= / (2 * pow) /\
  Util.formatNum (Util.formatNum num digits) digits = Util.formatNum num digits.
Proof.
  intros pow. unfold Util.formatNum. fold pow.
  pose proof (Math_pow_10_pos match digits with Some d => d | None => 6 end)
    as Hp. fold pow in Hp.
  split.
  - pose proof (Math_round_near (num * pow)) as [H1 H2].
    replace (Math_round (num * pow) / pow - num)
      with ((Math_round (num * pow) - num * pow) / pow) by (field; lra).
    set (e := Math_round (num * pow) - num * pow) in *.
    assert (Hi : 0 < / pow) by now apply Rinv_0_lt_compat.
    replace (/ (2 * pow)) with (/ 2 * / pow) by (field; lra).
    apply Rabs_le. unfold Rdiv. split; nra.
  - replace (Math_round (num * pow) / pow * pow) with (Math_round (num * pow))
      by (field; lra).
    unfold Math_round at 2. now rewrite Math_round_IZR.
Qed.

Lemma obj_get_absent (V : Type) (o : Obj string V) (k : string) :
  ~ In k (obj_keys o) -> obj_get String.eqb o k = None.
Proof.
  intros H. destruct (obj_get String.eqb o k) eqn:E; [| reflexivity].
  exfalso. apply H. apply (obj_get_In_keys String.eqb string_eqb_eq).
  congruence.
Qed.

Lemma assign_all_get (V : Type) (src dest : Obj string V) (k : string) :
  NoDup (obj_keys src) ->
  ~ In "__proto__"%string (obj_keys src) ->
  obj_get String.eqb
    (fold_left (fun d kv => Util.assign d (fst kv) (snd kv)) src dest) k
  = match obj_get String.eqb src k with
    | Some v => Some v
    | None => obj_get String.eqb dest k
    end.
Proof.
  revert dest. induction src as [| [k0 v0] src IH]; intros dest Hnd Hproto;
    [reflexivity |].
  cbn [fold_left fst snd obj_get]. cbn [obj_keys List.map fst] in Hnd, Hproto.
  inversion Hnd as [| ? ? Hnotin Hnd']; subst.
  rewrite (IH _ Hnd') by (intros H; apply Hproto; now right).
  assert (Hk0 : String.eqb k0 "__proto__" = false).
  { apply String.eqb_neq. intros ->. apply Hproto. now left. }
  unfold Util.assign. rewrite Hk0.
  destruct (String.eqb k k0) eqn:E.
  - apply String.eqb_eq in E. subst k0.
    rewrite (obj_get_absent _ _ _ Hnotin).
    apply (obj_get_set_eq String.eqb string_eqb_eq).
  - apply String.eqb_neq in E.
    now rewrite (obj_get_set_ne String.eqb string_eqb_eq).
Qed.

Lemma extend_get (V : Type) (sources : list (Obj string V))
  (dest : Obj string V) (k : string) :
  (forall src, In src sources ->
               NoDup (obj_keys src) /\ ~ In "__proto__"%string (obj_keys src)) ->
  obj_get String.eqb (Util.extend dest sources) k
  = last_assigned dest sources k.
Proof.
  unfold Util.extend, last_assigned.
  revert dest. induction sources as [| src sources IH]; intros dest Hnd;
    [reflexivity |].
  cbn [fold_left]. rewrite IH by (intros s Hs; apply Hnd; now right).
  destruct (Hnd src (or_introl eq_refl)) as [H1 H2].
  now rewrite assign_all_get.
Qed.

(** The name __proto__ is not assigned as a property: whatever the
    sources have under it, the object keeps what it has of its own. *)
Lemma assign_proto (V : Type) (dest : Obj string V) (v : V) :
  Util.assign dest "__proto__" v = dest.
Proof. reflexivity. Qed.

(** After extend(dest, ...sources) with sources none of which has a
    property named __proto__, a key has the value of the last source
    that has it: a source given later overrides dest and the sources
    before it, and a key that no source has keeps the value it had in
    dest. *)
Theorem extend_last_source_wins (V : Type) (dest : Obj string V)
  (sources : list (Obj string V)) (last : Obj string V) (k : string) :
  (forall src, In src (sources ++ [last]) ->
               NoDup (obj_keys src) /\ ~ In "__proto__"%string (obj_keys src)) ->
  obj_get String.eqb (Util.extend dest (sources ++ [last])) k
  = match obj_get String.eqb last k with
    | Some v => Some v
    | None => obj_get String.eqb (Util.extend dest sources) k
    end /\
  ((forall src, In src sources -> obj_get String.eqb src k = None) ->
   obj_get String.eqb (Util.extend dest sources) k
   = obj_get String.eqb dest k).
Proof.
  intros Hnd.
  assert (Hnd' : forall src, In src sources ->
                 NoDup (obj_keys src) /\ ~ In "__proto__"%string (obj_keys src)).
  { intros src Hs. apply Hnd. apply in_or_app. now left. }
  split.
  - rewrite !extend_get by assumption. unfold last_assigned.
    now rewrite fold_left_app.
  - intros Hnone. rewrite extend_get by assumption. unfold last_assigned.
    clear Hnd Hnd'. generalize (obj_get String.eqb dest k).
    induction sources as [| src sources IH]; intros found; [reflexivity |].
    cbn [fold_left]. rewrite (Hnone src (or_introl eq_refl)).
    apply IH. intros s Hs. apply Hnone. now right.
Qed.

Lemma extend_last_source_wins_witness :
  obj_get String.eqb
    (Util.extend [("tileSize"%string, 256%nat)]
                 ([[("tileSize"%string, 512%nat)]] ++ [[("zoom"%string, 3%nat)]]))
    "tileSize"%string
  = obj_get String.eqb
      (Util.extend [("tileSize"%string, 256%nat)] [[("tileSize"%string, 512%nat)]])
      "tileSize"%string.
Proof.
  apply (extend_last_source_wins nat [("tileSize"%string, 256%nat)]
           [[("tileSize"%string, 512%nat)]] [("zoom"%string, 3%nat)]
           "tileSize"%string).
  intros src [<- | [<- | []]]; split;
    [repeat constructor; simpl; tauto | simpl; intros [H | []]; discriminate H
     | repeat constructor; simpl; tauto | simpl; intros [H | []]; discriminate H].
Defined.

Lemma stamp_spec (s : Util.Stamps) (obj : nat) :
  ((forall o id, Util.ids s o = Some id -> (1 <= id <= Util.lastId s)%nat) /\
   (forall o o' id,
       Util.ids s o = Some id -> Util.ids s o' = Some id -> o = o')) ->
  let s' := snd (Util.stamp s obj) in
  ((forall o id, Util.ids s' o = Some id -> (1 <= id <= Util.lastId s')%nat) /\
   (forall o o' id,
       Util.ids s' o = Some id -> Util.ids s' o' = Some id -> o = o')) /\
  Util.ids s' obj = Some (fst (Util.stamp s obj)) /\
  (forall o id, Util.ids s o = Some id -> Util.ids s' o = Some id).
Proof.
  intros [Hrange Hinj]. unfold Util.stamp.
  destruct (Util.ids s obj) as [id |] eqn:E; cbn [fst snd].
  - split; [split; assumption |]. split; [exact E | auto].
  - cbn [Util.ids Util.lastId]. split; [split |]; [| | split].
    + intros o id. destruct (Nat.eqb o obj); [intros [= <-]; lia |].
      intros H. specialize (Hrange o id H). lia.
    + intros o o' id.
      destruct (Nat.eqb o obj) eqn:Eo, (Nat.eqb o' obj) eqn:Eo'.
      * apply Nat.eqb_eq in Eo, Eo'. congruence.
      * intros [= <-] H. specialize (Hrange o' _ H). lia.
      * intros H [= <-]. specialize (Hrange o _ H). lia.
      * apply Hinj.
    + now rewrite Nat.eqb_refl.
    + intros o id H. destruct (Nat.eqb o obj) eqn:Eo; [| exact H].
      apply Nat.eqb_eq in Eo. congruence.
Qed.

(** From Util.lastId = 0 and after any calls of stamp, two objects get
    the same id exactly when they are the same object, an object keeps
    the id it got, and ids start at 1. *)
Theorem stamp_ids_are_unique (objs : list nat) (o o' : nat) :
  let s := stamp_all Util.noStamps objs in
  let r := Util.stamp s o in
  let r' := Util.stamp (snd r) o' in
  (fst r = fst r' <-> o = o') /\
  Util.stamp (snd r') o = (fst r, snd r') /\
  (1 <= fst r)%nat.
Proof.
  intros s r r'.
  assert (Hs : (forall o id, Util.ids s o = Some id ->
                             (1 <= id <= Util.lastId s)%nat) /\
               (forall o o' id, Util.ids s o = Some id ->
                                Util.ids s o' = Some id -> o = o')).
  { unfold s, stamp_all.
    assert (H0 : (forall o id, Util.ids Util.noStamps o = Some id ->
                               (1 <= id <= Util.lastId Util.noStamps)%nat) /\
                 (forall o o' id, Util.ids Util.noStamps o = Some id ->
                                  Util.ids Util.noStamps o' = Some id ->
                                  o = o'))
      by (split; intros; discriminate).
    revert H0. generalize Util.noStamps.
    induction objs as [| obj objs IH]; intros s0 H0; [exact H0 |].
    cbn [fold_left]. apply IH. now apply stamp_spec. }
  destruct (stamp_spec s o Hs) as (H1 & Ho & _). fold r in H1, Ho.
  destruct (stamp_spec (snd r) o' H1) as ([Hrange Hinj] & Ho' & Hkeep).
  fold r' in Hrange, Hinj, Ho', Hkeep.
  pose proof (Hkeep o _ Ho) as Ho2.
  split; [split |]; [| | split].
  - intros Heq. rewrite <- Heq in Ho'. exact (Hinj o o' _ Ho2 Ho').
  - intros <-. unfold r', Util.stamp. now rewrite Ho.
  - unfold Util.stamp. now rewrite Ho2.
  - apply (Hrange o _ Ho2).
Qed.

(** ** GeoJSON *)

Section GeoJSONFacts.
Context {O : Type}.
Variable options : O.

Lemma markers_app (ps qs : list (list number)) :
  GeoJSON.markers options (ps ++ qs)
  = let* ms := GeoJSON.markers options ps in
    let* ns := GeoJSON.markers options qs in
    Return (ms ++ ns).
Proof.
  induction ps as [| c ps IH]; cbn [app GeoJSON.markers].
  - cbn [bind]. now destruct (GeoJSON.markers options qs).
  - destruct (LatLng.new _ _) as [ll | e]; [| reflexivity].
    cbn [bind]. rewrite IH.
    destruct (GeoJSON.markers options ps) as [ms | e]; [| reflexivity].
    cbn [bind]. now destruct (GeoJSON.markers options qs).
Qed.

Lemma process_points (data : GeoJSON.Data) :
  forall layers,
    GeoJSON.process options data layers
    = let* ms := GeoJSON.markers options (GeoJSON.points data) in
      Return (layers ++ ms).
Proof.
  revert data. fix IH 1. intros [features | geom | type] layers.
  - cbn [GeoJSON.process GeoJSON.points]. revert layers.
    induction features as [| f fs IHfs]; intros layers.
    + cbn. now rewrite app_nil_r.
    + rewrite (IH f), markers_app.
      destruct (GeoJSON.markers options (GeoJSON.points f)) as [ms | e];
        [| reflexivity].
      cbn [bind]. rewrite IHfs.
      match goal with
      | |- context [GeoJSON.markers options ?l] =>
          destruct (GeoJSON.markers options l) as [ns | e]
      end; [| reflexivity].
      cbn [bind]. now rewrite app_assoc.
  - destruct geom as [coordinates | type]; cbn.
    + destruct (LatLng.new _ _); [reflexivity | reflexivity].
    + now rewrite app_nil_r.
  - cbn. now rewrite app_nil_r.
Qed.

Lemma markers_spec (ps : list (list number)) :
  GeoJSON.markers options ps
  = if forallb (fun c => negb (isNaN (GeoJSON.coordinate c 1)
                               || isNaN (GeoJSON.coordinate c 0))) ps
    then Return (map (fun c => GeoJSON.mkMarker
                                 (LatLng.mkFields (GeoJSON.coordinate c 1)
                                                  (GeoJSON.coordinate c 0))
                                 options) ps)
    else Throw (Error "Invalid LatLng").
Proof.
  induction ps as [| c ps IH]; [reflexivity |].
  cbn [GeoJSON.markers forallb map]. unfold LatLng.new.
  destruct (isNaN (GeoJSON.coordinate c 1) || isNaN (GeoJSON.coordinate c 0));
    [reflexivity |].
  cbn [bind negb andb]. rewrite IH.
  now destruct (forallb _ ps).
Qed.
End GeoJSONFacts.

(** geoJSON makes one marker for every Point feature of the data, in
    document order and through nested collections, at the LatLng
    (coordinates[1], coordinates[0]); features with another geometry
    and values that are no feature, a bare geometry included, give no
    marker. If a Point feature has NaN or nothing as one of its first
    two coordinates, geoJSON throws and returns no group. *)
Theorem geoJSON_markers (O : Type) (data : GeoJSON.Data) (options : O) :
  GeoJSON.geoJSON data options
  = if forallb (fun c => negb (isNaN (GeoJSON.coordinate c 1)
                               || isNaN (GeoJSON.coordinate c 0)))
               (GeoJSON.points data)
    then Return (map (fun c => GeoJSON.mkMarker
                                 (LatLng.mkFields (GeoJSON.coordinate c 1)
                                                  (GeoJSON.coordinate c 0))
                                 options)
                     (GeoJSON.points data))
    else Throw (Error "Invalid LatLng").
Proof.
  rewrite <- markers_spec.
  assert (H : forall d, GeoJSON.process options d []
                        = GeoJSON.markers options (GeoJSON.points d)).
  { intros d. rewrite process_points.
    now destruct (GeoJSON.markers options (GeoJSON.points d)). }
  assert (Hwrap : forall d,
             GeoJSON.points (GeoJSON.FeatureCollection [d]) = GeoJSON.points d).
  { intros d. cbn [GeoJSON.points]. apply app_nil_r. }
  unfold GeoJSON.geoJSON. destruct data as [features | geom | type].
  - now rewrite H, Hwrap.
  - apply H.
  - now rewrite H, Hwrap.
Qed.
